(** * E-CLP derived parameters: the calculator of
      [script/interactions/compute_eclp_derived_params.py]

    The script derives the Gyroscope E-CLP constants (the two tau points,
    the shape coefficients u, v, w, z and dSq) from five pool parameters
    with Python's [decimal] module at 200 significant digits, scales each by
    [10^38] and truncates it to an integer.

    The development has three layers:
    - [Dec]: the decimal arithmetic the script runs on (finite numbers,
      rounding half-even, the exponent limits of the default context, the
      three trapped signals as exceptions and the Underflow flag);
    - [Number] and the program itself, written once over an arithmetic
      interface, with the same names and the same order of operations as
      the script;
    - the instances: [Decimal] (what the script computes) and [R]
      (the same formulas in exact real arithmetic). *)

From Stdlib Require Import ZArith QArith Qround Qpower Qabs Bool List Lia.
From Stdlib Require Import Reals Lra Qreals.
From Stdlib Require Import Ascii String DecimalString.

Local Open Scope Z_scope.

(** ** Outcomes of an operation *)

(** The signals that the default context traps: they surface as Python
    exceptions and end the run. *)
Inductive exn : Type :=
| DivisionByZero
| InvalidOperation
| Overflow.

Inductive result (A : Type) : Type :=
| Ok (a : A)
| Raise (e : exn).

Arguments Ok {A} a.
Arguments Raise {A} e.

(** A computation yields an outcome together with the context's sticky
    [Underflow] flag: [true] when some operation rounded a subnormal
    result inexactly (possibly to zero).  The flag is not trapped, so the
    run goes on. *)
Definition M (A : Type) : Type := (bool * result A)%type.

Definition ret {A} (a : A) : M A := (false, Ok a).

Definition raise {A} (e : exn) : M A := (false, Raise e).

Definition bind {A B} (m : M A) (k : A -> M B) : M B :=
  match m with
  | (f, Ok a) => let (f', r) := k a in (f || f', r)
  | (f, Raise e) => (f, Raise e)
  end.

Declare Scope monad_scope.
Delimit Scope monad_scope with monad.
Notation "x <- m ;; k" := (bind m (fun x => k))
  (at level 61, m at next level, right associativity) : monad_scope.
Notation "' pat <- m ;; k" := (bind m (fun x => match x with pat => k end))
  (at level 61, pat pattern, m at next level, right associativity) : monad_scope.
Local Open Scope monad_scope.

(** ** Decimal numbers *)

Module Dec.

(** A finite decimal: sign bit, coefficient (a natural number) and
    exponent; its value is [(-1)^sign * coef * 10^expo]. *)
Record Decimal : Type := mkDec { sign : bool; coef : Z; expo : Z }.

Definition wf (x : Decimal) : Prop := 0 <= coef x.

Definition is_zero (x : Decimal) : bool := coef x =? 0.

Record context : Type := mkContext { prec : Z; Emin : Z; Emax : Z }.

Definition DefaultContext : context :=
  {| prec := 28; Emin := -999999; Emax := 999999 |}.

Definition set_prec (ctx : context) (p : Z) : context :=
  {| prec := p; Emin := Emin ctx; Emax := Emax ctx |}.

Definition Etiny (ctx : context) : Z := Emin ctx - prec ctx + 1.
Definition Etop (ctx : context) : Z := Emax ctx - prec ctx + 1.

(** [ndigits n] is [len(str(n))] for [n >= 0]: the digits are counted
    upward from an estimate taken from the binary length (never too
    large); should the estimate fail, they are counted one by one. *)
Fixpoint ndigits_aux (fuel : nat) (n : Z) : Z :=
  match fuel with
  | O => 1
  | S fuel' => if n <? 10 then 1 else 1 + ndigits_aux fuel' (n / 10)
  end.

Fixpoint ndigits_up (fuel : nat) (n k p : Z) : Z :=
  match fuel with
  | O => k
  | S fuel' => if n <? p then k else ndigits_up fuel' n (k + 1) (p * 10)
  end.

Definition ndigits (n : Z) : Z :=
  let fuel := S (Z.to_nat (Z.log2 n)) in
  let k := Z.log2 n * 1233 / 4096 + 1 in
  let p := 10 ^ (k - 1) in
  if p <=? n then ndigits_up fuel n k (p * 10) else ndigits_aux fuel n.

(** Value of a decimal as a rational. *)
Definition pow10Q (e : Z) : Q := Qpower (inject_Z 10) e.

Definition to_Q (x : Decimal) : Q :=
  (inject_Z (if sign x then - coef x else coef x) * pow10Q (expo x))%Q.

(** Sign of the value: [-1], [0] or [1]. *)
Definition sgn (x : Decimal) : Z :=
  if coef x =? 0 then 0 else if sign x then -1 else 1.

(** The numbers an operation of the context can return: at most [prec]
    digits, exponent not below [Etiny]. *)
Definition representable (ctx : context) (x : Decimal) : Prop :=
  wf x /\ ndigits (coef x) <= prec ctx /\ Etiny ctx <= expo x.

(** *** Rounding to the context: [_fix] *)

(** [round_half_even c k]: direction of the rounding of [c] when its last
    [k] digits are dropped: [1] up, [0] exact, [-1] down. *)
Definition round_half_even (c k : Z) : Z :=
  let q := c / 10 ^ k in
  let r := c mod 10 ^ k in
  let half := 5 * 10 ^ (k - 1) in
  if r =? 0 then 0
  else if (half <? r) || ((r =? half) && Z.odd q) then 1
  else -1.

Definition fix_ (ctx : context) (x : Decimal) : M Decimal :=
  if coef x =? 0 then
    ret (mkDec (sign x) 0 (Z.min (Z.max (expo x) (Etiny ctx)) (Emax ctx)))
  else
    let len := ndigits (coef x) in
    let exp_min := len + expo x - prec ctx in
    if Etop ctx <? exp_min then raise Overflow
    else
      let self_is_subnormal := exp_min <? Etiny ctx in
      let exp_min := if self_is_subnormal then Etiny ctx else exp_min in
      if expo x <? exp_min then
        let digits := len + expo x - exp_min in
        let '(c, e) := if digits <? 0 then (1, exp_min - 1) else (coef x, expo x) in
        let k := exp_min - e in
        let changed := round_half_even c k in
        let q := c / 10 ^ k in
        let '(q, exp_min) :=
          if 0 <? changed then
            if prec ctx <? ndigits (q + 1) then ((q + 1) / 10, exp_min + 1)
            else (q + 1, exp_min)
          else (q, exp_min) in
        if Etop ctx <? exp_min then raise Overflow
        else (negb (changed =? 0) && self_is_subnormal, Ok (mkDec (sign x) q exp_min))
      else ret x.

(** *** Arithmetic *)

Definition of_Z (n : Z) : Decimal := mkDec (n <? 0) (Z.abs n) 0.

Definition copy_negate (x : Decimal) : Decimal :=
  mkDec (negb (sign x)) (coef x) (expo x).

Definition mul (ctx : context) (x y : Decimal) : M Decimal :=
  fix_ ctx (mkDec (xorb (sign x) (sign y)) (coef x * coef y) (expo x + expo y)).

(** [_normalize]: the two coefficients written at one exponent.  The
    operand with the smaller exponent, when it lies wholly below the digits
    that can survive the rounding, is replaced by a single unit just below
    them, which rounds the same way. *)
Definition normalize (p : Z) (x y : Decimal) : Z * Z * Z :=
  let '(tmp, other) := if expo x <? expo y then (y, x) else (x, y) in
  let e := expo tmp + Z.min (-1) (ndigits (coef tmp) - p - 2) in
  let '(oc, oe) := if ndigits (coef other) + expo other - 1 <? e then (1, e)
                   else (coef other, expo other) in
  let tc := coef tmp * 10 ^ (expo tmp - oe) in
  if expo x <? expo y then (oc, tc, oe) else (tc, oc, oe).

(** Addition: a zero operand leaves the other one (padded with zeros down
    to the smaller exponent, by at most [prec + 1] places); otherwise the
    normalized coefficients are added with their signs.  An exact zero sum
    of nonzero operands is [+0]; the sum of two zeros is [-0] only when
    both are. *)
Definition add (ctx : context) (x y : Decimal) : M Decimal :=
  let e := Z.min (expo x) (expo y) in
  if (coef x =? 0) && (coef y =? 0) then
    fix_ ctx (mkDec (sign x && sign y) 0 e)
  else if coef x =? 0 then
    let e := Z.max e (expo y - prec ctx - 1) in
    fix_ ctx (mkDec (sign y) (coef y * 10 ^ (expo y - e)) e)
  else if coef y =? 0 then
    let e := Z.max e (expo x - prec ctx - 1) in
    fix_ ctx (mkDec (sign x) (coef x * 10 ^ (expo x - e)) e)
  else
    let '(c1, c2, en) := normalize (prec ctx) x y in
    let v := (if sign x then - c1 else c1) + (if sign y then - c2 else c2) in
    if v =? 0 then fix_ ctx (mkDec false 0 e)
    else fix_ ctx (mkDec (v <? 0) (Z.abs v) en).

Definition sub (ctx : context) (x y : Decimal) : M Decimal :=
  add ctx x (copy_negate y).

(** Trailing zeros of an exact quotient are removed while the exponent is
    below the ideal one. *)
Fixpoint strip_zeros (fuel : nat) (q e ideal : Z) : Z * Z :=
  match fuel with
  | O => (q, e)
  | S fuel' =>
      if (e <? ideal) && (q mod 10 =? 0) then strip_zeros fuel' (q / 10) (e + 1) ideal
      else (q, e)
  end.

Definition div (ctx : context) (x y : Decimal) : M Decimal :=
  let sg := xorb (sign x) (sign y) in
  if coef y =? 0 then
    if coef x =? 0 then raise InvalidOperation else raise DivisionByZero
  else if coef x =? 0 then fix_ ctx (mkDec sg 0 (expo x - expo y))
  else
    let shift := ndigits (coef y) - ndigits (coef x) + prec ctx + 1 in
    let e := expo x - expo y - shift in
    let '(n, m) := if 0 <=? shift then (coef x * 10 ^ shift, coef y)
                   else (coef x, coef y * 10 ^ (- shift)) in
    let q := n / m in
    let r := n mod m in
    let '(q, e) :=
      if r =? 0 then strip_zeros (Z.to_nat (expo x - expo y - e)) q e (expo x - expo y)
      else (if q mod 5 =? 0 then q + 1 else q, e) in
    fix_ ctx (mkDec sg q e).

(** Square root, correctly rounded (always half-even): the root is taken
    to one extra digit, rounded down, and its last digit is moved off 0
    and 5 when the root is inexact, so that the final rounding is right. *)
Definition sqrt (ctx : context) (x : Decimal) : M Decimal :=
  if coef x =? 0 then fix_ ctx (mkDec (sign x) 0 (expo x / 2))
  else if sign x then raise InvalidOperation
  else
    let p := prec ctx + 1 in
    let e := expo x / 2 in
    let len := ndigits (coef x) in
    let '(c, l) := if Z.odd (expo x) then (coef x * 10, len / 2 + 1)
                   else (coef x, (len + 1) / 2) in
    let shift := p - l in
    let '(c, exact) := if 0 <=? shift then (c * 100 ^ shift, true)
                       else (c / 100 ^ (- shift), c mod 100 ^ (- shift) =? 0) in
    let e := e - shift in
    let n := Z.sqrt c in
    let exact := exact && (n * n =? c) in
    let '(n, e) :=
      if exact then
        (if 0 <=? shift then n / 10 ^ shift else n * 10 ^ (- shift), e + shift)
      else (if n mod 5 =? 0 then n + 1 else n, e) in
    fix_ ctx (mkDec false n e).

(** Power with a positive integer exponent, as CPython's decimal computes
    it: left-to-right binary exponentiation in a working context with
    [ndigits n + 2] extra digits, then one final rounding.  A zero base
    gives a zero with exponent 0. *)
Fixpoint pow_uint (wctx : context) (base : Decimal) (n : positive) : M Decimal :=
  match n with
  | xH => ret base
  | xO n' => r <- pow_uint wctx base n' ;; mul wctx r r
  | xI n' => r <- pow_uint wctx base n' ;; r2 <- mul wctx r r ;; mul wctx r2 base
  end.

Definition pow (ctx : context) (base : Decimal) (n : positive) : M Decimal :=
  if coef base =? 0 then ret (mkDec (sign base && Z.odd (Zpos n)) 0 0)
  else
    let wctx := set_prec ctx (prec ctx + (ndigits (Zpos n) + 2)) in
    r <- pow_uint wctx base n ;;
    fix_ ctx r.

(** [int(x)]: truncation toward zero. *)
Definition to_int (x : Decimal) : Z :=
  (if sign x then -1 else 1) *
  (if 0 <=? expo x then coef x * 10 ^ expo x else coef x / 10 ^ (- expo x)).

(** [str(n)] for an integer and [str(x)] for a decimal (scientific
    notation of the decimal specification, capital [E]). *)
Definition str_int (n : Z) : string := NilZero.string_of_int (Z.to_int n).

Fixpoint zeros (k : nat) : string :=
  match k with
  | O => EmptyString
  | S k' => String "0" (zeros k')
  end.

Definition str (x : Decimal) : string :=
  let sg := (if sign x then "-" else "")%string in
  let int_ := str_int (coef x) in
  let len := Z.of_nat (String.length int_) in
  let leftdigits := expo x + len in
  let dotplace := if (expo x <=? 0) && (-6 <? leftdigits) then leftdigits else 1 in
  let '(intpart, fracpart) :=
    if dotplace <=? 0 then
      ("0", "." ++ zeros (Z.to_nat (- dotplace)) ++ int_)%string
    else if len <=? dotplace then
      (int_ ++ zeros (Z.to_nat (dotplace - len)), "")%string
    else
      (substring 0 (Z.to_nat dotplace) int_,
       "." ++ substring (Z.to_nat dotplace) (Z.to_nat (len - dotplace)) int_)%string in
  let e := leftdigits - dotplace in
  let exp := if e =? 0 then ""%string
             else ("E" ++ (if (0 <=? e)%Z then "+" else "") ++ str_int e)%string in
  (sg ++ intpart ++ fracpart ++ exp)%string.

End Dec.

(** ** The arithmetic interface of the script *)

(** What the script asks of its number type: construction from an integer
    literal, the four operations, [sqrt], [**] with a positive integer
    exponent, and [int()]. *)
Class Number (D : Type) : Type := {
  of_int : Z -> D;
  num_add : D -> D -> M D;
  num_sub : D -> D -> M D;
  num_mul : D -> D -> M D;
  num_div : D -> D -> M D;
  num_sqrt : D -> M D;
  num_pow : D -> positive -> M D;
  num_int : D -> Z
}.

(** Operands are evaluated left to right, as Python does. *)
Definition lift1 {D} (f : D -> M D) (x : M D) : M D :=
  a <- x ;; f a.

Definition lift2 {D} (f : D -> D -> M D) (x y : M D) : M D :=
  a <- x ;; b <- y ;; f a b.

Declare Scope num_scope.
Delimit Scope num_scope with num.
Notation "$ x" := (ret x) (at level 9, x at level 0, format "$ x") : num_scope.
Notation "x + y" := (lift2 num_add x y) : num_scope.
Notation "x - y" := (lift2 num_sub x y) : num_scope.
Notation "x * y" := (lift2 num_mul x y) : num_scope.
Notation "x / y" := (lift2 num_div x y) : num_scope.
Notation "x ** n" := (lift1 (fun a => num_pow a n) x)
  (at level 30, right associativity) : num_scope.
Notation "'Decimal' n" := (ret (of_int n)) (at level 9, n at level 0) : num_scope.

(** ** The program *)

Section Program.

Context {D : Type} {num : Number D}.

Local Open Scope num_scope.

Record params : Type := mkParams {
  alpha : D; beta : D; c : D; s : D; lam : D
}.

(** Lines 37-41: the five base parameters, 18-decimal integers divided by
    [10^18]. *)
Definition base_params : M params :=
  alpha <- Decimal 1035905000000000000 / Decimal 1000000000000000000 ;;
  beta <- Decimal 1144947000000000000 / Decimal 1000000000000000000 ;;
  c <- Decimal 1000000000000000000 / Decimal 1000000000000000000 ;;
  s <- Decimal 0 / Decimal 1000000000000000000 ;;
  lam <- Decimal 50000000000000000000 / Decimal 1000000000000000000 ;;
  ret (mkParams alpha beta c s lam).

Definition SCALE_38 : M D := Decimal 10 ** 38.

(** Lines 61-74.  The globals [c], [s], [lam] and [d] the function reads
    are its first arguments here. *)
Definition compute_tau (c s lam d p : D) : M (D * D) :=
  c_over_d <- $c / $d ;;
  s_over_d <- $s / $d ;;
  term1 <- ($c_over_d + $p * $s_over_d) ** 2 / ($lam ** 2) ;;
  term2 <- ($p * $c_over_d - $s_over_d) ** 2 ;;
  dFactor <- Decimal 1 / lift1 num_sqrt ($term1 + $term2) ;;
  tau_x <- ($p * $c - $s) * $dFactor ;;
  tau_y <- ($c + $s * $p) * $dFactor / $lam ;;
  ret (tau_x, tau_y).

Record derived : Type := mkDerived {
  dSq : D; d : D;
  tauAlpha_x : D; tauAlpha_y : D; tauBeta_x : D; tauBeta_y : D;
  u : D; v : D; w : D; z : D
}.

(** Lines 54-89: steps 1 to 3. *)
Definition derive (prm : params) : M derived :=
  let '(mkParams alpha beta c s lam) := prm in
  dSq <- $c * $c + $s * $s ;;
  d <- num_sqrt dSq ;;
  '(tauAlpha_x, tauAlpha_y) <- compute_tau c s lam d alpha ;;
  '(tauBeta_x, tauBeta_y) <- compute_tau c s lam d beta ;;
  u <- $s * $c * ($tauBeta_x - $tauAlpha_x) ;;
  v <- $s * $s * $tauBeta_y + $c * $c * $tauAlpha_y ;;
  w <- $s * $c * ($tauBeta_y - $tauAlpha_y) ;;
  z <- $c * $c * $tauBeta_x + $s * $s * $tauAlpha_x ;;
  ret (mkDerived dSq d tauAlpha_x tauAlpha_y tauBeta_x tauBeta_y u v w z).

(** Lines 98-101. *)
Definition to_int38 (SCALE_38 val : D) : M Z :=
  scaled <- $val * $SCALE_38 ;;
  ret (num_int scaled).

Record constants : Type := mkConstants {
  tauAlpha_x_38 : Z; tauAlpha_y_38 : Z; tauBeta_x_38 : Z; tauBeta_y_38 : Z;
  u_38 : Z; v_38 : Z; w_38 : Z; z_38 : Z; dSq_38 : Z
}.

(** Lines 103-111: step 4. *)
Definition scale (SCALE_38 : D) (dv : derived) : M constants :=
  tauAlpha_x_38 <- to_int38 SCALE_38 (tauAlpha_x dv) ;;
  tauAlpha_y_38 <- to_int38 SCALE_38 (tauAlpha_y dv) ;;
  tauBeta_x_38 <- to_int38 SCALE_38 (tauBeta_x dv) ;;
  tauBeta_y_38 <- to_int38 SCALE_38 (tauBeta_y dv) ;;
  u_38 <- to_int38 SCALE_38 (u dv) ;;
  v_38 <- to_int38 SCALE_38 (v dv) ;;
  w_38 <- to_int38 SCALE_38 (w dv) ;;
  z_38 <- to_int38 SCALE_38 (z dv) ;;
  dSq_38 <- to_int38 SCALE_38 (dSq dv) ;;
  ret (mkConstants tauAlpha_x_38 tauAlpha_y_38 tauBeta_x_38 tauBeta_y_38
         u_38 v_38 w_38 z_38 dSq_38).

(** Lines 129-131: the three values of the sanity section. *)
Record sanity : Type := mkSanity {
  norm_tauAlpha : D; norm_tauBeta : D; dSq_again : D
}.

Definition sanity_checks (lam : D) (dv : derived) : M sanity :=
  na <- lift1 num_sqrt ($(tauAlpha_x dv) ** 2 + ($(tauAlpha_y dv) * $lam) ** 2) ;;
  nb <- lift1 num_sqrt ($(tauBeta_x dv) ** 2 + ($(tauBeta_y dv) * $lam) ** 2) ;;
  ret (mkSanity na nb (dSq dv)).

(** The whole computation for given parameters, in the script's order. *)
Record outputs : Type := mkOutputs {
  out_derived : derived; out_constants : constants; out_sanity : sanity
}.

Definition run (scale38 : M D) (prm : params) : M outputs :=
  SCALE_38 <- scale38 ;;
  dv <- derive prm ;;
  cs <- scale SCALE_38 dv ;;
  sn <- sanity_checks (lam prm) dv ;;
  ret (mkOutputs dv cs sn).

Definition main : M outputs :=
  prm <- base_params ;;
  run SCALE_38 prm.

End Program.

Arguments params D : clear implicits.
Arguments derived D : clear implicits.
Arguments sanity D : clear implicits.
Arguments outputs D : clear implicits.

(** ** The script's number type: [Decimal] at 200 digits *)

(** Line 24: [getcontext().prec = 200] on the default context. *)
Definition script_context : Dec.context := Dec.set_prec Dec.DefaultContext 200.

Definition Decimal_Number (ctx : Dec.context) : Number Dec.Decimal := {|
  of_int := Dec.of_Z;
  num_add := Dec.add ctx;
  num_sub := Dec.sub ctx;
  num_mul := Dec.mul ctx;
  num_div := Dec.div ctx;
  num_sqrt := Dec.sqrt ctx;
  num_pow := Dec.pow ctx;
  num_int := Dec.to_int
|}.

#[export] Instance script_number : Number Dec.Decimal :=
  Decimal_Number script_context.

Definition script_main : M (outputs Dec.Decimal) := main.

(** [SCALE_38] as line 43 leaves it. *)
Definition script_SCALE_38 : Dec.Decimal := Dec.mkDec false (10 ^ 38) 0.

(** [d] as line 55 leaves it on the hard-coded parameters. *)
Definition script_d : Dec.Decimal := Dec.mkDec false 1 0.

(** The five parameters as lines 37-41 leave them. *)
Definition script_params : params Dec.Decimal :=
  mkParams (Dec.mkDec false 1035905 (-6)) (Dec.mkDec false 1144947 (-6))
           (Dec.mkDec false 1 0) (Dec.mkDec false 0 0) (Dec.mkDec false 50 0).

(** *** The text written to standard output *)

Definition nl : string := String (ascii_of_nat 10) EmptyString.

(** [print(line)] *)
Definition print (line : string) : string := (line ++ nl)%string.

(** The values of the run on the hard-coded parameters: the two tau
    points, steps 1 to 3, and the whole run. *)
Definition script_tauAlpha : M (Dec.Decimal * Dec.Decimal) :=
  Eval vm_compute in
    compute_tau (c script_params) (s script_params) (lam script_params)
      script_d (alpha script_params).

Definition script_tauBeta : M (Dec.Decimal * Dec.Decimal) :=
  Eval vm_compute in
    compute_tau (c script_params) (s script_params) (lam script_params)
      script_d (beta script_params).

Definition script_derived : M (derived Dec.Decimal) :=
  Eval vm_compute in derive script_params.

Definition script_main_value : M (outputs Dec.Decimal) :=
  Eval vm_compute in script_main.

(** ** The same formulas in exact real arithmetic *)

Module RealArith.

Definition trunc (x : R) : Z :=
  if Rle_dec 0 x then Int_part x else (- Int_part (- x))%Z.

Definition rdiv (x y : R) : M R :=
  if Req_dec_T y 0 then
    if Req_dec_T x 0 then raise InvalidOperation else raise DivisionByZero
  else ret (x / y)%R.

Definition rsqrt (x : R) : M R :=
  if Rlt_dec x 0 then raise InvalidOperation else ret (sqrt x).

#[export] Instance R_Number : Number R := {
  of_int := IZR;
  num_add := fun x y => ret (x + y)%R;
  num_sub := fun x y => ret (x - y)%R;
  num_mul := fun x y => ret (x * y)%R;
  num_div := rdiv;
  num_sqrt := rsqrt;
  num_pow := fun x n => ret (x ^ Pos.to_nat n)%R;
  num_int := trunc
}.

(** The closed forms of [compute_tau] and of steps 1 to 3 over the
    reals. *)
Definition tau_real (c s lam d p : R) : R * R :=
  let T := ((c / d + p * (s / d)) ^ 2 / lam ^ 2 + (p * (c / d) - s / d) ^ 2)%R in
  ((p * c - s) * (1 / sqrt T), (c + s * p) * (1 / sqrt T) / lam)%R.

Definition derive_real (alpha beta c s lam : R) : derived R :=
  let dSq := (c * c + s * s)%R in
  let d := sqrt dSq in
  let tA := tau_real c s lam d alpha in
  let tB := tau_real c s lam d beta in
  mkDerived dSq d (fst tA) (snd tA) (fst tB) (snd tB)
    (s * c * (fst tB - fst tA))%R (s * s * snd tB + c * c * snd tA)%R
    (s * c * (snd tB - snd tA))%R (c * c * fst tB + s * s * fst tA)%R.

End RealArith.

(** ** The reference algorithm of the specification *)

(** Section 4.1 of the specification, steps 1 to 3, word for word; its
    squares [x²] are read as the number type's [** 2]. *)
Module Spec.

Section Reference.

Context {D : Type} {num : Number D}.

Local Open Scope num_scope.

Definition tau (c s lambda d p : D) : M (D * D) :=
  cOverD <- $c / $d ;;
  sOverD <- $s / $d ;;
  term1 <- ($cOverD + $p * $sOverD) ** 2 / $lambda ** 2 ;;
  term2 <- ($p * $cOverD - $sOverD) ** 2 ;;
  dFactor <- Decimal 1 / lift1 num_sqrt ($term1 + $term2) ;;
  tau_x <- ($p * $c - $s) * $dFactor ;;
  tau_y <- ($c + $s * $p) * $dFactor / $lambda ;;
  ret (tau_x, tau_y).

Definition steps_1_to_3 (alpha beta c s lambda : D) : M (derived D) :=
  dSq <- $c ** 2 + $s ** 2 ;;
  d <- num_sqrt dSq ;;
  '(tauAlpha_x, tauAlpha_y) <- tau c s lambda d alpha ;;
  '(tauBeta_x, tauBeta_y) <- tau c s lambda d beta ;;
  u <- $s * $c * ($tauBeta_x - $tauAlpha_x) ;;
  v <- $s ** 2 * $tauBeta_y + $c ** 2 * $tauAlpha_y ;;
  w <- $s * $c * ($tauBeta_y - $tauAlpha_y) ;;
  z <- $c ** 2 * $tauBeta_x + $s ** 2 * $tauAlpha_x ;;
  ret (mkDerived dSq d tauAlpha_x tauAlpha_y tauBeta_x tauBeta_y u v w z).

End Reference.

End Spec.

(** ** Vocabulary of the statements *)

(** Valid parameters: c and s not both zero, lambda and the two price
    bounds strictly positive. *)
Definition valid_params (prm : params Dec.Decimal) : Prop :=
  Dec.wf (alpha prm) /\ Dec.wf (beta prm) /\ Dec.wf (c prm) /\ Dec.wf (s prm) /\
  Dec.wf (lam prm) /\
  (Dec.coef (c prm) <> 0 \/ Dec.coef (s prm) <> 0) /\
  (Dec.sign (lam prm) = false /\ 0 < Dec.coef (lam prm)) /\
  (Dec.sign (alpha prm) = false /\ 0 < Dec.coef (alpha prm)) /\
  (Dec.sign (beta prm) = false /\ 0 < Dec.coef (beta prm)).

(** The hard-coded parameters with [c = 1E-600000]. *)
Definition underflow_params : params Dec.Decimal :=
  mkParams (alpha script_params) (beta script_params)
           (Dec.mkDec false 1 (-600000)) (s script_params) (lam script_params).

Definition in_int256 (n : Z) : Prop := - 2 ^ 255 <= n <= 2 ^ 255 - 1.

Definition constants_list (cs : constants) : list Z :=
  tauAlpha_x_38 cs :: tauAlpha_y_38 cs :: tauBeta_x_38 cs :: tauBeta_y_38 cs ::
  u_38 cs :: v_38 cs :: w_38 cs :: z_38 cs :: dSq_38 cs :: nil.

(** [safe P m]: if the run [m] ends with the Underflow flag clear, then it
    either returned a value satisfying [P] or stopped on Overflow; it did
    not divide by zero and took no invalid operation. *)
Definition safe {A} (P : A -> Prop) (m : M A) : Prop :=
  fst m = false ->
  match snd m with
  | Ok a => P a
  | Raise e => e = Overflow
  end.

(** [post P m]: whatever [m] returns satisfies [P]. *)
Definition post {A} (P : A -> Prop) (m : M A) : Prop :=
  forall f a, m = (f, Ok a) -> P a.

(** [SG S x]: [x] is well formed and its sign is one of [S]. *)
Definition SG (S : Z -> Prop) (x : Dec.Decimal) : Prop :=
  Dec.wf x /\ S (Dec.sgn x).

Definition any_sign : Z -> Prop := fun _ => True.

Definition has_sgn (z : Z) (x : Dec.Decimal) : Prop := Dec.wf x /\ Dec.sgn x = z.

Definition Zr (x : Dec.Decimal) : Prop := Dec.coef x = 0.

Definition derived_wf (dv : derived Dec.Decimal) : Prop :=
  Dec.wf (dSq dv) /\ Dec.wf (tauAlpha_x dv) /\ Dec.wf (tauAlpha_y dv) /\
  Dec.wf (tauBeta_x dv) /\ Dec.wf (tauBeta_y dv) /\
  Dec.wf (u dv) /\ Dec.wf (v dv) /\ Dec.wf (w dv) /\ Dec.wf (z dv).

(** ** Vocabulary of the further properties *)

(** [truncated_38 x n]: [n] is [x * 10^38] truncated toward zero, the floor
    for [x >= 0] and the ceiling for [x < 0]. *)
Definition truncated_38 (x : Dec.Decimal) (n : Z) : Prop :=
  ((0 <= Dec.to_Q x -> n = Qfloor (Dec.to_Q x * inject_Z (10 ^ 38))) /\
   (Dec.to_Q x < 0 -> n = Qceiling (Dec.to_Q x * inject_Z (10 ^ 38))))%Q.

(** The nine values lines 103-111 pass to [to_int38], in the order of
    [constants_list]. *)
Definition scaled_values (dv : derived Dec.Decimal) : list Dec.Decimal :=
  tauAlpha_x dv :: tauAlpha_y dv :: tauBeta_x dv :: tauBeta_y dv ::
  u dv :: v dv :: w dv :: z dv :: dSq dv :: nil.

(** [in_range ctx x]: at most [prec] digits, exponent not below [Etiny]
    and magnitude within [Emax]: the numbers that the rounding of the
    context leaves as they are. *)
Definition in_range (ctx : Dec.context) (x : Dec.Decimal) : Prop :=
  Dec.representable ctx x /\
  (if Dec.coef x =? 0 then Dec.expo x <= Dec.Emax ctx
   else Dec.ndigits (Dec.coef x) + Dec.expo x <= Dec.Emax ctx + 1).

(** A context with at least one digit whose exponent range contains 0. *)
Definition usual_context (ctx : Dec.context) : Prop :=
  1 <= Dec.prec ctx /\ Dec.Etiny ctx <= 0 /\ 0 <= Dec.Emax ctx.

(** [same_value x y]: the same sign bit and the same value, [y] with the
    larger exponent. *)
Definition same_value (x y : Dec.Decimal) : Prop :=
  Dec.sign y = Dec.sign x /\ Dec.expo x <= Dec.expo y /\
  Dec.coef y * 10 ^ (Dec.expo y - Dec.expo x) = Dec.coef x.

(** The number 1, as line 39 computes [c]. *)
Definition decimal_one : Dec.Decimal := Dec.mkDec false 1 0.

(** [overflow_only P m]: the run [m] returns a value satisfying [P] or
    stops on Overflow, whatever the flag. *)
Definition overflow_only {A} (P : A -> Prop) (m : M A) : Prop :=
  match snd m with
  | Ok a => P a
  | Raise e => e = Overflow
  end.

(** Well formed with the sign bit clear. *)
Definition nonneg (x : Dec.Decimal) : Prop := Dec.wf x /\ Dec.sign x = false.

(** ** Vocabulary of the rounding *)

(** The value of a decimal as a real number, and the powers of ten. *)
Definition p10 (e : Z) : R := powerRZ 10 e.

Definition to_R (x : Dec.Decimal) : R :=
  (IZR (if Dec.sign x then - Dec.coef x else Dec.coef x) * p10 (Dec.expo x))%R.

(** [nearest_even a m]: the integer [m] is nearest to [a], and even when
    [a] lies half way between two integers. *)
Definition nearest_even (a : R) (m : Z) : Prop :=
  (2 * IZR m - 1 <= 2 * a <= 2 * IZR m + 1)%R /\
  ((2 * a = 2 * IZR m - 1)%R \/ (2 * a = 2 * IZR m + 1)%R -> Z.even m = true).

(** [rounded ctx q r]: [r] is the nonnegative real [q] correctly rounded
    in the context: zero for zero; otherwise, with [L] the position of the
    leading digit of [q], the multiple of [10^e] nearest to [q] (ties to
    even), where [e = max (L - prec) Etiny]. *)
Definition rounded (ctx : Dec.context) (q r : R) : Prop :=
  (q = 0 /\ r = 0)%R \/
  exists L m,
    (p10 (L - 1) <= q < p10 L)%R /\
    nearest_even (q / p10 (Z.max (L - Dec.prec ctx) (Dec.Etiny ctx))) m /\
    r = (IZR m * p10 (Z.max (L - Dec.prec ctx) (Dec.Etiny ctx)))%R.

(** Two runs side by side.  [post2 R m1 m2]: whatever the two runs return
    is related by [R]. *)
Definition post2 {A} (R : A -> A -> Prop) (m1 m2 : M A) : Prop :=
  forall f1 a1 f2 a2, m1 = (f1, Ok a1) -> m2 = (f2, Ok a2) -> R a1 a2.

(** How a value of the second run compares with that of the first. *)
Inductive direction : Type := Same | Up | Down.

Definition compare_as (d : direction) (a b : R) : Prop :=
  match d with
  | Same => a = b
  | Up => (a <= b)%R
  | Down => (b <= a)%R
  end.

(** [ordered d x1 x2]: two nonnegative decimals whose values compare
    as [d] says. *)
Definition ordered (d : direction) (x1 x2 : Dec.Decimal) : Prop :=
  nonneg x1 /\ nonneg x2 /\ compare_as d (to_R x1) (to_R x2).

(** ** The script as it executes *)

(** The script prints between its computations, so a run that stops on an
    exception has already written the lines before it.  Besides the trapped
    signals of the arithmetic, one more exception can end it: CPython refuses
    to convert an integer of more than 4300 digits to text (the default of
    [sys.set_int_max_str_digits]) and raises [ValueError]; the f-strings of
    lines 115-123 make this conversion. *)
Inductive stop : Type :=
| Signal (e : exn)
| ValueError.

Inductive ending (A : Type) : Type :=
| Finished (a : A)
| Stopped (e : stop).

Arguments Finished {A} a.
Arguments Stopped {A} e.

(** [Out A]: the lines written to standard output so far, the Underflow
    flag, and how the run stands. *)
Definition Out (A : Type) : Type := (list string * (bool * ending A))%type.

Definition out_ret {A} (a : A) : Out A := (nil, (false, Finished a)).

Definition out_bind {A B} (m : Out A) (k : A -> Out B) : Out B :=
  match m with
  | (l1, (f1, Finished a)) =>
      match k a with
      | (l2, (f2, r)) => (l1 ++ l2, (f1 || f2, r))
      end
  | (l1, (f1, Stopped e)) => (l1, (f1, Stopped e))
  end.

(** A statement that computes, and [print(line)]. *)
Definition calc {A} (m : M A) : Out A :=
  match m with
  | (f, Ok a) => (nil, (f, Finished a))
  | (f, Raise e) => (nil, (f, Stopped (Signal e)))
  end.

Definition say (line : string) : Out unit := (line :: nil, (false, Finished tt)).

(** [str(n)] for an integer, as an f-string makes it. *)
Definition int_max_str_digits : Z := 4300.

Definition printable (n : Z) : bool := Dec.ndigits (Z.abs n) <=? int_max_str_digits.

Definition format_int (n : Z) : option string :=
  if printable n then Some (Dec.str_int n) else None.

(** [print(f"    int256 internal constant NAME = {n};")]: the text is
    built first, so nothing is written when the conversion fails. *)
Definition constant_line (name text : string) : string :=
  ("    int256 internal constant " ++ name ++ " = " ++ text ++ ";")%string.

Definition say_constant (name : string) (n : Z) : Out unit :=
  match format_int n with
  | Some text => say (constant_line name text)
  | None => (nil, (false, Stopped ValueError))
  end.

Declare Scope out_scope.
Delimit Scope out_scope with out.
Notation "x <- m ;; k" := (out_bind m (fun x => k))
  (at level 61, m at next level, right associativity) : out_scope.
Notation "' pat <- m ;; k" := (out_bind m (fun x => match x with pat => k end))
  (at level 61, pat pattern, m at next level, right associativity) : out_scope.
Notation "m ;; k" := (out_bind m (fun _ => k))
  (at level 61, right associativity) : out_scope.

(** The text on standard output: every line with its newline. *)
Definition stdout (lines : list string) : string :=
  String.concat EmptyString (map print lines).

(** Lines 43-131, statement by statement, for given parameters and an
    ambient context whose precision line 24 has set to 200. *)
Definition script_exec (ambient : Dec.context) (prm : params Dec.Decimal)
  : Out constants :=
  let ctx := Dec.set_prec ambient 200 in
  let N := Decimal_Number ctx in
  let '(mkParams alpha beta c s lam) := prm in
  (SCALE_38 <- calc (@SCALE_38 _ N) ;;
   say "=== E-CLP Derived Parameter Computation ===" ;;
   say ("alpha  = " ++ Dec.str alpha) ;;
   say ("beta   = " ++ Dec.str beta) ;;
   say ("c      = " ++ Dec.str c) ;;
   say ("s      = " ++ Dec.str s) ;;
   say ("lambda = " ++ Dec.str lam) ;;
   say EmptyString ;;
   dSq <- calc ($c * $c + $s * $s)%num ;;
   d <- calc (num_sqrt dSq) ;;
   say ("dSq = " ++ Dec.str dSq) ;;
   say ("d   = " ++ Dec.str d) ;;
   say EmptyString ;;
   '(tauAlpha_x, tauAlpha_y) <- calc (compute_tau c s lam d alpha) ;;
   '(tauBeta_x, tauBeta_y) <- calc (compute_tau c s lam d beta) ;;
   say ("tauAlpha.x = " ++ Dec.str tauAlpha_x) ;;
   say ("tauAlpha.y = " ++ Dec.str tauAlpha_y) ;;
   say ("tauBeta.x  = " ++ Dec.str tauBeta_x) ;;
   say ("tauBeta.y  = " ++ Dec.str tauBeta_y) ;;
   say EmptyString ;;
   u <- calc ($s * $c * ($tauBeta_x - $tauAlpha_x))%num ;;
   v <- calc ($s * $s * $tauBeta_y + $c * $c * $tauAlpha_y)%num ;;
   w <- calc ($s * $c * ($tauBeta_y - $tauAlpha_y))%num ;;
   z <- calc ($c * $c * $tauBeta_x + $s * $s * $tauAlpha_x)%num ;;
   say ("u = " ++ Dec.str u) ;;
   say ("v = " ++ Dec.str v) ;;
   say ("w = " ++ Dec.str w) ;;
   say ("z = " ++ Dec.str z) ;;
   say EmptyString ;;
   tauAlpha_x_38 <- calc (to_int38 SCALE_38 tauAlpha_x) ;;
   tauAlpha_y_38 <- calc (to_int38 SCALE_38 tauAlpha_y) ;;
   tauBeta_x_38 <- calc (to_int38 SCALE_38 tauBeta_x) ;;
   tauBeta_y_38 <- calc (to_int38 SCALE_38 tauBeta_y) ;;
   u_38 <- calc (to_int38 SCALE_38 u) ;;
   v_38 <- calc (to_int38 SCALE_38 v) ;;
   w_38 <- calc (to_int38 SCALE_38 w) ;;
   z_38 <- calc (to_int38 SCALE_38 z) ;;
   dSq_38 <- calc (to_int38 SCALE_38 dSq) ;;
   say "=== Solidity Constants (38-decimal, int256) ===" ;;
   say EmptyString ;;
   say_constant "TAU_ALPHA_X" tauAlpha_x_38 ;;
   say_constant "TAU_ALPHA_Y" tauAlpha_y_38 ;;
   say_constant "TAU_BETA_X " tauBeta_x_38 ;;
   say_constant "TAU_BETA_Y " tauBeta_y_38 ;;
   say_constant "U          " u_38 ;;
   say_constant "V          " v_38 ;;
   say_constant "W          " w_38 ;;
   say_constant "Z          " z_38 ;;
   say_constant "D_SQ       " dSq_38 ;;
   say EmptyString ;;
   say "=== Sanity Checks ===" ;;
   na <- calc (lift1 num_sqrt ($tauAlpha_x ** 2 + ($tauAlpha_y * $lam) ** 2))%num ;;
   say ("|tauAlpha| = " ++ Dec.str na) ;;
   nb <- calc (lift1 num_sqrt ($tauBeta_x ** 2 + ($tauBeta_y * $lam) ** 2))%num ;;
   say ("|tauBeta|  = " ++ Dec.str nb) ;;
   say ("dSq ~= 1?  " ++ Dec.str dSq) ;;
   out_ret (mkConstants tauAlpha_x_38 tauAlpha_y_38 tauBeta_x_38 tauBeta_y_38
              u_38 v_38 w_38 z_38 dSq_38))%out%string.

(** The computation of the nine constants alone: line 43 and steps 1
    to 4. *)
Definition constants_stage (ambient : Dec.context) (prm : params Dec.Decimal)
  : M constants :=
  let N := Decimal_Number (Dec.set_prec ambient 200) in
  SCALE_38 <- @SCALE_38 _ N ;;
  dv <- @derive _ N prm ;;
  @scale _ N SCALE_38 dv.

(** The whole computation, without the prints. *)
Definition script_outputs (ambient : Dec.context) (prm : params Dec.Decimal)
  : M (outputs Dec.Decimal) :=
  let N := Decimal_Number (Dec.set_prec ambient 200) in
  @run _ N (@SCALE_38 _ N) prm.

(** The nine constants with the names lines 115-123 print them under, and
    the declaration lines a run writes: those of the constants before the
    first one that has too many digits. *)
Definition named_constants (cs : constants) : list (string * Z) :=
  ("TAU_ALPHA_X"%string, tauAlpha_x_38 cs) :: ("TAU_ALPHA_Y"%string, tauAlpha_y_38 cs) ::
  ("TAU_BETA_X "%string, tauBeta_x_38 cs) :: ("TAU_BETA_Y "%string, tauBeta_y_38 cs) ::
  ("U          "%string, u_38 cs) :: ("V          "%string, v_38 cs) ::
  ("W          "%string, w_38 cs) :: ("Z          "%string, z_38 cs) ::
  ("D_SQ       "%string, dSq_38 cs) :: nil.

Fixpoint declarations (l : list (string * Z)) : list string :=
  match l with
  | nil => nil
  | (name, n) :: rest =>
      match format_int n with
      | Some text => constant_line name text :: declarations rest
      | None => nil
      end
  end.

Definition is_declaration (line : string) : bool :=
  String.prefix "    int256 internal constant " line.

(** * Properties *)

(** ** The monad *)

Lemma bind_ret_l {A B} (a : A) (k : A -> M B) : bind (ret a) k = k a.
Proof. unfold bind, ret. destruct (k a) as [f r]. reflexivity. Qed.

Lemma bind_Ok_l {A B} (a : A) (k : A -> M B) : bind (false, Ok a) k = k a.
Proof. apply bind_ret_l. Qed.

Lemma bind_Ok_inv {A B} (m : M A) (k : A -> M B) (f : bool) (b : B) :
  bind m k = (f, Ok b) ->
  exists f1 a f2, m = (f1, Ok a) /\ k a = (f2, Ok b) /\ f = f1 || f2.
Proof.
  unfold bind. destruct m as [f1 [a | e]]; [| discriminate].
  destruct (k a) as [f2 r] eqn:Hk. intros H. inversion H; subst.
  exists f1, a, f2. auto.
Qed.

Lemma bind_ext {A B} (m m' : M A) (k k' : A -> M B) :
  m = m' -> (forall a, k a = k' a) -> bind m k = bind m' k'.
Proof.
  intros -> H. unfold bind. destruct m' as [f [a | e]]; [rewrite H |]; reflexivity.
Qed.

Lemma lift1_ret {D} (f : D -> M D) (a : D) : lift1 f (ret a) = f a.
Proof. unfold lift1. apply bind_ret_l. Qed.

Lemma lift2_ret {D} (f : D -> D -> M D) (a b : D) : lift2 f (ret a) (ret b) = f a b.
Proof. unfold lift2. rewrite !bind_ret_l. reflexivity. Qed.

(** ** Decimal arithmetic *)

Module DecFacts.
Import Dec.

Lemma pow10_pos (k : Z) : 0 <= k -> 0 < 10 ^ k.
Proof. intros. apply Z.pow_pos_nonneg; lia. Qed.

Lemma pow10_succ (k : Z) : 0 <= k -> 10 ^ (k + 1) = 10 * 10 ^ k.
Proof. intros. rewrite Z.pow_add_r by lia. lia. Qed.

Lemma ndigits_aux_ge_1 (fuel : nat) (n : Z) : 1 <= ndigits_aux fuel n.
Proof.
  revert n. induction fuel as [| fuel IH]; intros n; cbn [ndigits_aux]; [lia |].
  destruct (n <? 10); [lia | specialize (IH (n / 10)); lia].
Qed.

Lemma ndigits_aux_spec (fuel : nat) (n : Z) :
  0 < n < 2 ^ Z.of_nat fuel ->
  10 ^ (ndigits_aux fuel n - 1) <= n < 10 ^ ndigits_aux fuel n.
Proof.
  revert n. induction fuel as [| fuel IH]; intros n Hn.
  - simpl in Hn. lia.
  - cbn [ndigits_aux]. destruct (n <? 10) eqn:E.
    + apply Z.ltb_lt in E. simpl. lia.
    + apply Z.ltb_ge in E.
      assert (H2 : 2 ^ Z.of_nat (S fuel) = 2 * 2 ^ Z.of_nat fuel).
      { rewrite Nat2Z.inj_succ, Z.pow_succ_r by lia. reflexivity. }
      assert (Hq : 0 < n / 10 < 2 ^ Z.of_nat fuel).
      { split; [apply Z.div_str_pos; lia |].
        apply Z.div_lt_upper_bound; lia. }
      specialize (IH _ Hq).
      pose proof (ndigits_aux_ge_1 fuel (n / 10)) as H1.
      set (k := ndigits_aux fuel (n / 10)) in *.
      replace (1 + k - 1) with ((k - 1) + 1) by lia.
      replace (1 + k) with (k + 1) by lia.
      rewrite !pow10_succ by lia.
      pose proof (Z.div_mod n 10 ltac:(lia)) as Hdm.
      pose proof (Z.mod_pos_bound n 10 ltac:(lia)) as Hm.
      lia.
Qed.

Lemma ndigits_up_spec (fuel : nat) (n k p : Z) :
  1 <= k -> p = 10 ^ k -> 10 ^ (k - 1) <= n -> n < p * 2 ^ Z.of_nat fuel ->
  let r := ndigits_up fuel n k p in
  1 <= r /\ 10 ^ (r - 1) <= n < 10 ^ r.
Proof.
  revert k p. induction fuel as [| fuel IH]; intros k p Hk Hp Hlo Hhi; cbn [ndigits_up].
  - cbn in Hhi. subst p. cbv zeta. lia.
  - destruct (n <? p) eqn:E.
    + apply Z.ltb_lt in E. subst p. cbv zeta. lia.
    + apply Z.ltb_ge in E. apply IH.
      * lia.
      * subst p. rewrite pow10_succ by lia. lia.
      * subst p. replace (k + 1 - 1) with k by lia. exact E.
      * rewrite Nat2Z.inj_succ, Z.pow_succ_r in Hhi by lia.
        pose proof (Z.pow_pos_nonneg 2 (Z.of_nat fuel) ltac:(lia) ltac:(lia)).
        subst p. pose proof (pow10_pos k ltac:(lia)). nia.
Qed.

Lemma ndigits_est_ge_1 (n : Z) : 1 <= Z.log2 n * 1233 / 4096 + 1.
Proof.
  pose proof (Z.log2_nonneg n).
  assert (0 <= Z.log2 n * 1233 / 4096) by (apply Z.div_pos; lia). lia.
Qed.

Lemma ndigits_up_bounds (n : Z) :
  let k := Z.log2 n * 1233 / 4096 + 1 in
  10 ^ (k - 1) <= n ->
  10 ^ k = 10 ^ (k - 1) * 10 /\
  n < 10 ^ (k - 1) * 10 * 2 ^ Z.of_nat (S (Z.to_nat (Z.log2 n))).
Proof.
  intros k E. pose proof (ndigits_est_ge_1 n) as Hk. fold k in Hk.
  pose proof (pow10_pos (k - 1) ltac:(lia)) as Hp.
  assert (Hn : 0 < n) by lia.
  split.
  - replace k with (k - 1 + 1) at 1 by lia. rewrite pow10_succ by lia. lia.
  - rewrite Nat2Z.inj_succ, Z2Nat.id by apply Z.log2_nonneg.
    pose proof (Z.log2_spec n Hn). nia.
Qed.

Lemma ndigits_ge_1 (n : Z) : 1 <= ndigits n.
Proof.
  unfold ndigits. cbv zeta.
  destruct (_ <=? n) eqn:E; [| apply ndigits_aux_ge_1].
  apply Z.leb_le in E. destruct (ndigits_up_bounds n E) as [H1 H2].
  apply ndigits_up_spec; auto using ndigits_est_ge_1.
Qed.

Lemma ndigits_spec (n : Z) :
  0 < n -> 10 ^ (ndigits n - 1) <= n < 10 ^ ndigits n.
Proof.
  intros Hn. unfold ndigits. cbv zeta.
  destruct (_ <=? n) eqn:E.
  - apply Z.leb_le in E. destruct (ndigits_up_bounds n E) as [H1 H2].
    apply ndigits_up_spec; auto using ndigits_est_ge_1.
  - apply ndigits_aux_spec. split; [exact Hn |].
    rewrite Nat2Z.inj_succ, Z2Nat.id by apply Z.log2_nonneg.
    apply Z.log2_spec. exact Hn.
Qed.

Lemma pow10_lt_inv (a b : Z) : 0 <= a -> 0 <= b -> 10 ^ a < 10 ^ b -> a < b.
Proof. intros Ha Hb H. apply (Z.pow_lt_mono_r_iff 10); lia. Qed.

Lemma ndigits_unique (n k : Z) :
  1 <= k -> 10 ^ (k - 1) <= n < 10 ^ k -> ndigits n = k.
Proof.
  intros Hk [Hlo Hhi].
  assert (Hn : 0 < n) by (pose proof (pow10_pos (k - 1)); lia).
  pose proof (ndigits_spec n Hn) as [Hlo' Hhi'].
  pose proof (ndigits_ge_1 n) as H1.
  assert (ndigits n - 1 < k) by (apply pow10_lt_inv; lia).
  assert (k - 1 < ndigits n) by (apply pow10_lt_inv; lia).
  lia.
Qed.

Lemma ndigits_mul_pow10 (n k : Z) :
  0 < n -> 0 <= k -> ndigits (n * 10 ^ k) = ndigits n + k.
Proof.
  intros Hn Hk. pose proof (ndigits_spec n Hn) as [Hlo Hhi].
  pose proof (ndigits_ge_1 n) as H1. pose proof (pow10_pos k Hk) as Hp.
  apply ndigits_unique; [lia |].
  replace (ndigits n + k - 1) with ((ndigits n - 1) + k) by lia.
  rewrite !Z.pow_add_r by lia. nia.
Qed.


(** *** Sign and zero-ness through [fix_] *)

Lemma sgn_range (x : Dec.Decimal) : -1 <= sgn x <= 1.
Proof. unfold sgn. destruct (coef x =? 0), (sign x); lia. Qed.

Lemma sgn_zero_iff (x : Dec.Decimal) : sgn x = 0 <-> coef x = 0.
Proof.
  unfold sgn. destruct (coef x =? 0) eqn:E.
  - apply Z.eqb_eq in E. tauto.
  - apply Z.eqb_neq in E. destruct (sign x); split; intros; lia.
Qed.

Lemma div_pow10_lower (c L p : Z) :
  0 <= p -> p <= L -> 10 ^ (L - 1) <= c -> 1 <= p -> 10 ^ (p - 1) <= c / 10 ^ (L - p).
Proof.
  intros Hp HpL Hc H1.
  apply Z.div_le_lower_bound; [apply pow10_pos; lia |].
  rewrite <- Z.pow_add_r by lia. replace (L - p + (p - 1)) with (L - 1) by lia. exact Hc.
Qed.

(** The four ways [fix_] ends. *)
Lemma fix_cases (ctx : context) (x : Dec.Decimal) (f : bool) (r : result Dec.Decimal) :
  fix_ ctx x = (f, r) -> wf x -> 1 <= prec ctx ->
  (coef x = 0 /\ f = false /\ exists e, r = Ok (mkDec (sign x) 0 e)) \/
  (0 < coef x /\ f = false /\ r = Raise Overflow) \/
  (0 < coef x /\ f = false /\ r = Ok x) \/
  (0 < coef x /\ exists q e, r = Ok (mkDec (sign x) q e) /\ 0 <= q /\ (q = 0 -> f = true)).
Proof.
  unfold fix_, wf. intros H Hwf Hprec.
  destruct (coef x =? 0) eqn:E0.
  { apply Z.eqb_eq in E0. inversion H; subst. left. eauto. }
  apply Z.eqb_neq in E0. assert (Hc : 0 < coef x) by lia. right.
  pose proof (ndigits_spec _ Hc) as [Hlo Hhi].
  set (L := ndigits (coef x)) in *.
  destruct (Etop ctx <? L + expo x - prec ctx) eqn:E1.
  { inversion H; subst. left. auto. }
  set (sub := L + expo x - prec ctx <? Etiny ctx) in *.
  set (exp_min := if sub then Etiny ctx else L + expo x - prec ctx) in *.
  destruct (expo x <? exp_min) eqn:E2.
  2:{ inversion H; subst. right. left. auto. }
  apply Z.ltb_lt in E2.
  set (ce := if L + expo x - exp_min <? 0 then (1, exp_min - 1) else (coef x, expo x)) in *.
  assert (Hce : 0 < fst ce /\ snd ce < exp_min /\
                (sub = false -> 10 ^ (prec ctx - 1) <= fst ce / 10 ^ (exp_min - snd ce))).
  { unfold ce. destruct (L + expo x - exp_min <? 0) eqn:E3; cbn [fst snd].
    - apply Z.ltb_lt in E3. repeat split; try lia.
      intros Hs. unfold exp_min in E3. rewrite Hs in E3. lia.
    - repeat split; try lia. intros Hs. unfold exp_min. rewrite Hs.
      replace (L + expo x - prec ctx - expo x) with (L - prec ctx) by lia.
      unfold exp_min in E2. rewrite Hs in E2.
      apply div_pow10_lower; lia. }
  destruct ce as [c e]. cbn [fst snd] in Hce. destruct Hce as (Hc0 & He & Hnorm).
  assert (Hk : 0 < 10 ^ (exp_min - e)) by (apply pow10_pos; lia).
  assert (Hq : 0 <= c / 10 ^ (exp_min - e)) by (apply Z.div_pos; lia).
  set (q := c / 10 ^ (exp_min - e)) in *.
  assert (Hch : q = 0 -> round_half_even c (exp_min - e) <> 0 /\ sub = true).
  { intros Hq0. split.
    - unfold round_half_even. fold q.
      assert (Hr : c mod 10 ^ (exp_min - e) = c).
      { apply Z.mod_small. split; [lia |].
        destruct (Z_lt_ge_dec c (10 ^ (exp_min - e))) as [Hlt | Hge]; [exact Hlt |].
        assert (1 <= q) by (apply Z.div_le_lower_bound; lia). lia. }
      rewrite Hr. destruct (c =? 0) eqn:Ec; [apply Z.eqb_eq in Ec; lia |].
      destruct (_ || _); lia.
    - destruct sub; [reflexivity |].
      specialize (Hnorm eq_refl). pose proof (pow10_pos (prec ctx - 1)). lia. }
  assert (Hfin : forall q' e' fl,
    0 <= q' -> (q' = 0 -> fl = true) ->
    (if Etop ctx <? e' then raise Overflow else (fl, Ok (mkDec (sign x) q' e'))) = (f, r) ->
    (f = false /\ r = Raise Overflow) \/
    (exists q e, r = Ok (mkDec (sign x) q e) /\ 0 <= q /\ (q = 0 -> f = true))).
  { intros q' e' fl Hq' Hfl Hr. destruct (Etop ctx <? e'); inversion Hr; subst.
    - left. auto.
    - right. eauto. }
  assert (Hgoal : (f = false /\ r = Raise Overflow) \/
    (exists q e, r = Ok (mkDec (sign x) q e) /\ 0 <= q /\ (q = 0 -> f = true))).
  { destruct (0 <? round_half_even c (exp_min - e)) eqn:E4.
    - apply Z.ltb_lt in E4.
      destruct (prec ctx <? ndigits (q + 1)) eqn:E5.
      + apply Z.ltb_lt in E5.
        pose proof (ndigits_spec (q + 1) ltac:(lia)) as [Hlo1 _].
        assert (10 ^ 1 <= 10 ^ (ndigits (q + 1) - 1)) by (apply Z.pow_le_mono_r; lia).
        assert (1 <= (q + 1) / 10) by (apply Z.div_le_lower_bound; lia).
        apply Hfin in H; [exact H | lia | lia].
      + apply Hfin in H; [exact H | lia | lia].
    - apply Hfin in H; [exact H | lia |].
      intros Hq0. destruct (Hch Hq0) as [Hne ->].
      destruct (round_half_even c (exp_min - e) =? 0) eqn:E6;
        [apply Z.eqb_eq in E6; contradiction | reflexivity]. }
  destruct Hgoal as [[-> ->] | Hgoal]; [left; auto | right; right; auto].
Qed.


(** *** Runs that neither divide by zero nor take an invalid operation *)

Lemma safe_ret {A} (P : A -> Prop) (a : A) : P a -> safe P (ret a).
Proof. intros H _. exact H. Qed.

Lemma safe_bind {A B} (P : A -> Prop) (Q : B -> Prop) (m : M A) (k : A -> M B) :
  safe P m -> (forall a, P a -> safe Q (k a)) -> safe Q (bind m k).
Proof.
  unfold safe, bind. destruct m as [f [a | e]]; cbn [fst snd]; intros Hm Hk.
  - destruct (k a) as [f' r] eqn:E. cbn [fst snd]. intros Hf.
    apply orb_false_iff in Hf. destruct Hf as [-> ->].
    specialize (Hk a (Hm eq_refl)). rewrite E in Hk. exact (Hk eq_refl).
  - exact Hm.
Qed.

Lemma safe_weaken {A} (P Q : A -> Prop) (m : M A) :
  safe P m -> (forall a, P a -> Q a) -> safe Q m.
Proof.
  unfold safe. destruct m as [f [a | e]]; cbn [fst snd]; auto.
Qed.

Lemma safe_lift1 {D} (P Q : D -> Prop) (f : D -> M D) (x : M D) :
  safe P x -> (forall a, P a -> safe Q (f a)) -> safe Q (lift1 f x).
Proof. intros Hx Hf. unfold lift1. eapply safe_bind; eauto. Qed.

Lemma safe_lift2 {D} (P Q R : D -> Prop) (f : D -> D -> M D) (x y : M D) :
  safe P x -> safe Q y -> (forall a b, P a -> Q b -> safe R (f a b)) ->
  safe R (lift2 f x y).
Proof.
  intros Hx Hy Hf. unfold lift2.
  eapply safe_bind; [exact Hx |]. intros a Ha.
  eapply safe_bind; [exact Hy |]. intros b Hb. auto.
Qed.

Section Ops.

Variable ctx : context.
Hypothesis Hprec : 1 <= prec ctx.

Lemma fix_safe (x : Dec.Decimal) : wf x -> safe (has_sgn (sgn x)) (fix_ ctx x).
Proof.
  intros Hwf. destruct (fix_ ctx x) as [f r] eqn:E. unfold safe. cbn [fst snd].
  intros ->. unfold has_sgn, wf, sgn.
  destruct (fix_cases _ _ _ _ E Hwf Hprec)
    as [(H0 & _ & e & ->) | [(Hc & _ & ->) | [(Hc & _ & ->) | (Hc & q & e & -> & Hq & Hq0)]]].
  - cbn [coef sign]. rewrite H0. cbn. lia.
  - reflexivity.
  - split; [exact Hwf | reflexivity].
  - cbn [coef sign]. split; [exact Hq |].
    destruct (q =? 0) eqn:Eq; [apply Z.eqb_eq in Eq; specialize (Hq0 Eq); discriminate |].
    destruct (coef x =? 0) eqn:Ec; [apply Z.eqb_eq in Ec; lia | reflexivity].
Qed.

Lemma sgn_mkDec (sg : bool) (c e : Z) :
  sgn (mkDec sg c e) = if c =? 0 then 0 else if sg then -1 else 1.
Proof. reflexivity. Qed.

Lemma mul_safe (x y : Dec.Decimal) :
  wf x -> wf y -> safe (has_sgn (sgn x * sgn y)) (mul ctx x y).
Proof.
  intros Hx Hy. unfold mul.
  set (p := mkDec _ _ _).
  assert (Hp : wf p) by (unfold p, wf in *; cbn; nia).
  replace (sgn x * sgn y) with (sgn p); [apply fix_safe; exact Hp |].
  unfold p, sgn, wf in *. cbn [coef sign].
  destruct (coef x =? 0) eqn:Ex; [apply Z.eqb_eq in Ex; rewrite Ex; reflexivity |].
  destruct (coef y =? 0) eqn:Ey; [apply Z.eqb_eq in Ey; rewrite Ey, Z.mul_0_r; cbn; lia |].
  apply Z.eqb_neq in Ex, Ey.
  destruct (coef x * coef y =? 0) eqn:Exy; [apply Z.eqb_eq in Exy; nia |].
  destruct (sign x), (sign y); reflexivity.
Qed.

Lemma sgn_pos_mkDec (sg : bool) (q e : Z) :
  1 <= q -> sgn (mkDec sg q e) = if sg then -1 else 1.
Proof.
  intros Hq. rewrite sgn_mkDec. destruct (q =? 0) eqn:E; [apply Z.eqb_eq in E; lia | reflexivity].
Qed.

Lemma normalize_pos (p : Z) (x y : Dec.Decimal) :
  0 < coef x -> 0 < coef y ->
  0 < fst (fst (normalize p x y)) /\ 0 < snd (fst (normalize p x y)).
Proof.
  intros Hx Hy. unfold normalize.
  destruct (expo x <? expo y) eqn:E;
    [apply Z.ltb_lt in E | apply Z.ltb_ge in E];
    match goal with
    | |- context [if ?b then (1, ?e) else _] => destruct b
    end; cbn [fst snd]; split; try lia;
    (apply Z.mul_pos_pos; [assumption | apply pow10_pos; lia]).
Qed.

Lemma sgn_nonzero (x : Dec.Decimal) :
  wf x -> coef x <> 0 -> 0 < coef x /\ sgn x = if sign x then -1 else 1.
Proof.
  unfold wf, sgn. intros Hwf Hc.
  destruct (coef x =? 0) eqn:E; [apply Z.eqb_eq in E; contradiction |].
  split; [lia | reflexivity].
Qed.

Lemma add_safe (x y : Dec.Decimal) :
  wf x -> wf y ->
  safe (fun z => wf z /\ (0 <= sgn x * sgn y -> sgn z = Z.sgn (sgn x + sgn y)))
       (add ctx x y).
Proof.
  intros Hx Hy. unfold add.
  destruct (Z.eqb_spec (coef x) 0) as [Ex | Ex];
    destruct (Z.eqb_spec (coef y) 0) as [Ey | Ey]; cbn [andb].
  - (* both zero *)
    eapply safe_weaken; [apply fix_safe; unfold wf; cbn; lia |].
    intros z [Hz Hs]. split; [exact Hz |]. intros _. rewrite Hs.
    rewrite (proj2 (sgn_zero_iff x) Ex), (proj2 (sgn_zero_iff y) Ey). reflexivity.
  - (* x zero *)
    destruct (sgn_nonzero y Hy Ey) as [Hcy Hsy].
    set (e := Z.max _ _).
    assert (He : 0 < 10 ^ (expo y - e)) by (apply pow10_pos; unfold e; lia).
    eapply safe_weaken; [apply fix_safe; unfold wf; cbn; nia |].
    intros z [Hz Hs]. split; [exact Hz |]. intros _. rewrite Hs.
    rewrite sgn_pos_mkDec by nia.
    rewrite (proj2 (sgn_zero_iff x) Ex), Hsy. destruct (sign y); reflexivity.
  - (* y zero *)
    destruct (sgn_nonzero x Hx Ex) as [Hcx Hsx].
    set (e := Z.max _ _).
    assert (He : 0 < 10 ^ (expo x - e)) by (apply pow10_pos; unfold e; lia).
    eapply safe_weaken; [apply fix_safe; unfold wf; cbn; nia |].
    intros z [Hz Hs]. split; [exact Hz |]. intros _. rewrite Hs.
    rewrite sgn_pos_mkDec by nia.
    rewrite (proj2 (sgn_zero_iff y) Ey), Hsx. destruct (sign x); reflexivity.
  - (* neither zero *)
    destruct (sgn_nonzero x Hx Ex) as [Hcx Hsx].
    destruct (sgn_nonzero y Hy Ey) as [Hcy Hsy].
    pose proof (normalize_pos (prec ctx) x y Hcx Hcy) as [H1 H2].
    destruct (normalize (prec ctx) x y) as [[c1 c2] en]. cbn [fst snd] in H1, H2.
    set (v := (if sign x then - c1 else c1) + (if sign y then - c2 else c2)).
    destruct (v =? 0) eqn:Ev.
    + apply Z.eqb_eq in Ev.
      eapply safe_weaken; [apply fix_safe; unfold wf; cbn; lia |].
      intros z [Hz Hs]. split; [exact Hz |]. intros Hxy. exfalso.
      rewrite Hsx, Hsy in Hxy. unfold v in Ev.
      destruct (sign x), (sign y); lia.
    + apply Z.eqb_neq in Ev.
      eapply safe_weaken; [apply fix_safe; unfold wf; cbn; lia |].
      intros z [Hz Hs]. split; [exact Hz |]. intros Hxy. rewrite Hs.
      rewrite sgn_pos_mkDec by lia. rewrite Hsx, Hsy in *. unfold v in *.
      destruct (sign x), (sign y); try lia;
        match goal with
        | |- context [?a <? 0] => destruct (a <? 0) eqn:El;
            [apply Z.ltb_lt in El | apply Z.ltb_ge in El]
        end; cbn; lia.
Qed.

Lemma sgn_copy_negate (x : Dec.Decimal) : sgn (copy_negate x) = - sgn x.
Proof. unfold sgn, copy_negate. cbn. destruct (coef x =? 0), (sign x); reflexivity. Qed.

Lemma sub_safe (x y : Dec.Decimal) :
  wf x -> wf y ->
  safe (fun z => wf z /\ (sgn x * sgn y <= 0 -> sgn z = Z.sgn (sgn x - sgn y)))
       (sub ctx x y).
Proof.
  intros Hx Hy. unfold sub.
  eapply safe_weaken; [apply add_safe; [exact Hx | exact Hy] |].
  intros z [Hz Hs]. split; [exact Hz |]. rewrite sgn_copy_negate in Hs.
  intros H. rewrite Hs by lia. reflexivity.
Qed.


Lemma strip_zeros_pos (fuel : nat) (q e ideal : Z) :
  1 <= q -> 1 <= fst (strip_zeros fuel q e ideal).
Proof.
  revert q e. induction fuel as [| fuel IH]; intros q e Hq; cbn [strip_zeros]; [exact Hq |].
  destruct ((e <? ideal) && (q mod 10 =? 0)) eqn:E; [| exact Hq].
  apply andb_true_iff in E. destruct E as [_ E]. apply Z.eqb_eq in E.
  apply IH. pose proof (Z.div_mod q 10 ltac:(lia)). lia.
Qed.

Lemma sgn_xorb (x y : Dec.Decimal) :
  0 < coef x -> 0 < coef y ->
  (if xorb (sign x) (sign y) then -1 else 1) = sgn x * sgn y.
Proof.
  intros Hx Hy. unfold sgn.
  destruct (coef x =? 0) eqn:Ex; [apply Z.eqb_eq in Ex; lia |].
  destruct (coef y =? 0) eqn:Ey; [apply Z.eqb_eq in Ey; lia |].
  destruct (sign x), (sign y); reflexivity.
Qed.

Lemma div_safe (x y : Dec.Decimal) :
  wf x -> wf y -> sgn y <> 0 -> safe (has_sgn (sgn x * sgn y)) (div ctx x y).
Proof.
  intros Hx Hy Hy0. unfold div.
  assert (Hcy : 0 < coef y).
  { unfold wf in Hy. pose proof (proj2 (sgn_zero_iff y)). lia. }
  destruct (coef y =? 0) eqn:Ey; [apply Z.eqb_eq in Ey; lia |].
  destruct (coef x =? 0) eqn:Ex.
  - apply Z.eqb_eq in Ex.
    set (p := mkDec _ _ _).
    replace (sgn x * sgn y) with (sgn p);
      [apply fix_safe; unfold p, wf; cbn; lia |].
    unfold p. rewrite sgn_mkDec. cbn.
    rewrite (proj2 (sgn_zero_iff x) Ex). reflexivity.
  - apply Z.eqb_neq in Ex. assert (Hcx : 0 < coef x) by (unfold wf in Hx; lia).
    pose proof (ndigits_spec _ Hcx) as [Hxlo Hxhi].
    pose proof (ndigits_spec _ Hcy) as [Hylo Hyhi].
    pose proof (ndigits_ge_1 (coef x)) as Hx1. pose proof (ndigits_ge_1 (coef y)) as Hy1.
    set (Lx := ndigits (coef x)) in *. set (Ly := ndigits (coef y)) in *.
    set (shift := Ly - Lx + prec ctx + 1).
    set (nm := if 0 <=? shift then (coef x * 10 ^ shift, coef y)
               else (coef x, coef y * 10 ^ (- shift))).
    assert (Hnm : 0 < snd nm <= fst nm).
    { unfold nm. destruct (0 <=? shift) eqn:Es; cbn [fst snd].
      - apply Z.leb_le in Es. split; [lia |].
        assert (10 ^ Ly <= 10 ^ (Lx - 1) * 10 ^ shift).
        { rewrite <- Z.pow_add_r by lia. apply Z.pow_le_mono_r; lia. }
        pose proof (pow10_pos shift Es). nia.
      - apply Z.leb_gt in Es. pose proof (pow10_pos (- shift) ltac:(lia)) as Hp.
        split; [nia |].
        assert (10 ^ Ly * 10 ^ (- shift) <= 10 ^ (Lx - 1)).
        { rewrite <- Z.pow_add_r by lia. apply Z.pow_le_mono_r; lia. }
        nia. }
    destruct nm as [n m]. cbn [fst snd] in Hnm.
    assert (Hq : 1 <= n / m) by (apply Z.div_le_lower_bound; lia).
    set (qe := if n mod m =? 0 then _ else _).
    assert (Hqe : 1 <= fst qe).
    { unfold qe. destruct (n mod m =? 0).
      - apply strip_zeros_pos. exact Hq.
      - cbn [fst]. destruct (n / m mod 5 =? 0); lia. }
    destruct qe as [q e]. cbn [fst] in Hqe.
    set (p := mkDec _ _ _).
    replace (sgn x * sgn y) with (sgn p);
      [apply fix_safe; unfold p, wf; cbn; lia |].
    unfold p. rewrite sgn_pos_mkDec by exact Hqe.
    apply sgn_xorb; assumption.
Qed.

Lemma pow100 (k : Z) : 0 <= k -> 100 ^ k = 10 ^ (2 * k).
Proof. intros Hk. rewrite Z.pow_mul_r by lia. reflexivity. Qed.

Lemma sqrt_safe (x : Dec.Decimal) :
  wf x -> 0 <= sgn x -> safe (has_sgn (sgn x)) (sqrt ctx x).
Proof.
  intros Hx Hs. unfold sqrt.
  destruct (coef x =? 0) eqn:Ex.
  - apply Z.eqb_eq in Ex.
    set (p := mkDec _ _ _).
    replace (sgn x) with (sgn p); [apply fix_safe; unfold p, wf; cbn; lia |].
    unfold p. rewrite sgn_mkDec. cbn. symmetry. apply sgn_zero_iff. exact Ex.
  - assert (Hsx : sgn x = 1 /\ sign x = false).
    { unfold sgn in *. rewrite Ex in *. destruct (sign x); [lia | auto]. }
    destruct Hsx as [Hs1 Hsf]. rewrite Hsf, Hs1.
    apply Z.eqb_neq in Ex. assert (Hcx : 0 < coef x) by (unfold wf in Hx; lia).
    pose proof (ndigits_spec _ Hcx) as [Hxlo Hxhi].
    pose proof (ndigits_ge_1 (coef x)) as Hx1.
    set (len := ndigits (coef x)) in *.
    set (cl := if Z.odd (expo x) then (coef x * 10, len / 2 + 1)
               else (coef x, (len + 1) / 2)).
    assert (Hcl : 1 <= fst cl /\ 1 <= snd cl /\ 10 ^ (2 * (snd cl - 1)) <= fst cl).
    { unfold cl. destruct (Z.odd (expo x)); cbn [fst snd].
      - pose proof (Z.div_mod len 2 ltac:(lia)). pose proof (Z.mod_pos_bound len 2 ltac:(lia)).
        repeat split; try lia.
        assert (10 ^ (2 * (len / 2 + 1 - 1)) <= 10 ^ (len - 1) * 10).
        { replace (10 ^ (len - 1) * 10) with (10 ^ (len - 1 + 1)) by (rewrite pow10_succ; lia).
          apply Z.pow_le_mono_r; lia. }
        lia.
      - pose proof (Z.div_mod (len + 1) 2 ltac:(lia)).
        pose proof (Z.mod_pos_bound (len + 1) 2 ltac:(lia)).
        repeat split; try lia.
        assert (10 ^ (2 * ((len + 1) / 2 - 1)) <= 10 ^ (len - 1))
          by (apply Z.pow_le_mono_r; lia).
        lia. }
    destruct cl as [c0 l]. cbn [fst snd] in Hcl. destruct Hcl as (Hc0 & Hl & Hlo).
    set (shift := prec ctx + 1 - l).
    set (ce := if 0 <=? shift then (c0 * 100 ^ shift, true)
               else (c0 / 100 ^ (- shift), c0 mod 100 ^ (- shift) =? 0)).
    assert (Hce : 1 <= fst ce /\ (0 <= shift -> fst ce = c0 * (10 ^ shift) ^ 2)).
    { unfold ce. destruct (0 <=? shift) eqn:Es; cbn [fst].
      - apply Z.leb_le in Es. rewrite pow100 by lia.
        split; [pose proof (pow10_pos (2 * shift)); nia |].
        intros _. rewrite (Z.mul_comm 2 shift), Z.pow_mul_r by lia. reflexivity.
      - apply Z.leb_gt in Es. split; [| lia].
        rewrite pow100 by lia.
        apply Z.div_le_lower_bound; [apply pow10_pos; lia |].
        rewrite Z.mul_1_r.
        transitivity (10 ^ (2 * (l - 1))); [apply Z.pow_le_mono_r; lia | exact Hlo]. }
    destruct ce as [c1 exact]. cbn [fst] in Hce. destruct Hce as (Hc1 & Hc1eq).
    assert (Hn : 1 <= Z.sqrt c1).
    { change 1 with (Z.sqrt 1). apply Z.sqrt_le_mono. exact Hc1. }
    set (n := Z.sqrt c1) in *.
    set (ne := if exact && (n * n =? c1) then _ else _).
    assert (Hne : 1 <= fst ne).
    { unfold ne. destruct (exact && (n * n =? c1)) eqn:Eex; cbn [fst].
      - apply andb_true_iff in Eex. destruct Eex as [_ Eex]. apply Z.eqb_eq in Eex.
        destruct (0 <=? shift) eqn:Es.
        + apply Z.leb_le in Es. pose proof (pow10_pos shift Es) as Hp.
          apply Z.div_le_lower_bound; [exact Hp |].
          rewrite (Hc1eq Es) in Eex. nia.
        + apply Z.leb_gt in Es. pose proof (pow10_pos (- shift) ltac:(lia)). nia.
      - destruct (n mod 5 =? 0); lia. }
    destruct ne as [n' e']. cbn [fst] in Hne.
    set (p := mkDec _ _ _).
    replace 1 with (sgn p); [apply fix_safe; unfold p, wf; cbn; lia |].
    unfold p. rewrite sgn_pos_mkDec by exact Hne. reflexivity.
Qed.

End Ops.

Lemma pow2_safe (ctx : context) (x : Dec.Decimal) :
  1 <= prec ctx -> wf x -> safe (has_sgn (sgn x * sgn x)) (pow ctx x 2).
Proof.
  intros Hprec Hx. unfold pow.
  destruct (coef x =? 0) eqn:Ex.
  - apply Z.eqb_eq in Ex. apply safe_ret. split; [unfold wf; cbn; lia |].
    rewrite (proj2 (sgn_zero_iff x) Ex). rewrite andb_false_r. reflexivity.
  - cbn [pow_uint]. rewrite bind_ret_l.
    eapply safe_bind.
    + apply mul_safe; [| exact Hx | exact Hx].
      cbn [prec set_prec]. pose proof (ndigits_ge_1 2). lia.
    + intros r [Hr Hsr]. rewrite <- Hsr. apply fix_safe; assumption.
Qed.


(** *** Sign analysis of the program *)

Lemma Zsgn_cases (n : Z) :
  (0 < n -> Z.sgn n = 1) /\ (n < 0 -> Z.sgn n = -1) /\ (n = 0 -> Z.sgn n = 0).
Proof. destruct n; cbn; repeat split; intros; lia. Qed.

Section Lifted.

Variable ctx : context.
Hypothesis Hprec : 1 <= prec ctx.

Lemma lmul (S1 S2 : Z -> Prop) (X Y : M Dec.Decimal) :
  safe (SG S1) X -> safe (SG S2) Y ->
  safe (SG (fun z => exists a b, S1 a /\ S2 b /\ z = a * b)) (lift2 (mul ctx) X Y).
Proof.
  intros HX HY. eapply safe_lift2; [exact HX | exact HY |].
  intros a b [Ha Sa] [Hb Sb].
  eapply safe_weaken; [exact (mul_safe ctx Hprec a b Ha Hb) |].
  intros z [Hz Hs]. split; [exact Hz | eauto].
Qed.

Lemma ldiv (S1 S2 : Z -> Prop) (X Y : M Dec.Decimal) :
  safe (SG S1) X -> safe (SG S2) Y ->
  (forall b, S2 b -> b <> 0) ->
  safe (SG (fun z => exists a b, S1 a /\ S2 b /\ z = a * b)) (lift2 (div ctx) X Y).
Proof.
  intros HX HY H0. eapply safe_lift2; [exact HX | exact HY |].
  intros a b [Ha Sa] [Hb Sb].
  eapply safe_weaken; [exact (div_safe ctx Hprec a b Ha Hb (H0 _ Sb)) |].
  intros z [Hz Hs]. split; [exact Hz | eauto].
Qed.

Lemma ladd (S1 S2 : Z -> Prop) (X Y : M Dec.Decimal) :
  safe (SG S1) X -> safe (SG S2) Y ->
  safe (SG (fun z => exists a b, S1 a /\ S2 b /\ -1 <= z <= 1 /\
                     (0 <= a * b -> (0 < a + b -> z = 1) /\ (a + b < 0 -> z = -1) /\
                                    (a + b = 0 -> z = 0))))
       (lift2 (add ctx) X Y).
Proof.
  intros HX HY. eapply safe_lift2; [exact HX | exact HY |].
  intros a b [Ha Sa] [Hb Sb].
  eapply safe_weaken; [exact (add_safe ctx Hprec a b Ha Hb) |].
  intros z [Hz Hs]. split; [exact Hz |].
  exists (sgn a), (sgn b). pose proof (sgn_range z) as Hr.
  split; [exact Sa |]. split; [exact Sb |]. split; [exact Hr |].
  intros H1. rewrite (Hs H1). apply Zsgn_cases.
Qed.

Lemma lsub (S1 S2 : Z -> Prop) (X Y : M Dec.Decimal) :
  safe (SG S1) X -> safe (SG S2) Y ->
  safe (SG (fun z => exists a b, S1 a /\ S2 b /\ -1 <= z <= 1 /\
                     (a * b <= 0 -> (0 < a - b -> z = 1) /\ (a - b < 0 -> z = -1) /\
                                    (a - b = 0 -> z = 0))))
       (lift2 (sub ctx) X Y).
Proof.
  intros HX HY. eapply safe_lift2; [exact HX | exact HY |].
  intros a b [Ha Sa] [Hb Sb].
  eapply safe_weaken; [exact (sub_safe ctx Hprec a b Ha Hb) |].
  intros z [Hz Hs]. split; [exact Hz |].
  exists (sgn a), (sgn b). pose proof (sgn_range z) as Hr.
  split; [exact Sa |]. split; [exact Sb |]. split; [exact Hr |].
  intros H1. rewrite (Hs H1). apply Zsgn_cases.
Qed.

Lemma sqrt_SG (S1 : Z -> Prop) (x : Dec.Decimal) :
  SG S1 x -> (forall a, S1 a -> 0 <= a) -> safe (SG S1) (sqrt ctx x).
Proof.
  intros [Hx Sx] H0.
  eapply safe_weaken; [exact (sqrt_safe ctx Hprec x Hx (H0 _ Sx)) |].
  intros z [Hz Hs]. split; [exact Hz | rewrite Hs; exact Sx].
Qed.

Lemma lsqrt (S1 : Z -> Prop) (X : M Dec.Decimal) :
  safe (SG S1) X -> (forall a, S1 a -> 0 <= a) -> safe (SG S1) (lift1 (sqrt ctx) X).
Proof.
  intros HX H0. eapply safe_lift1; [exact HX |]. intros a Ha. apply sqrt_SG; assumption.
Qed.

Lemma lpow2 (S1 : Z -> Prop) (X : M Dec.Decimal) :
  safe (SG S1) X ->
  safe (SG (fun z => exists a, S1 a /\ z = a * a)) (lift1 (fun a => pow ctx a 2) X).
Proof.
  intros HX. eapply safe_lift1; [exact HX |]. intros a [Ha Sa].
  eapply safe_weaken; [exact (pow2_safe ctx a Hprec Ha) |].
  intros z [Hz Hs]. split; [exact Hz | eauto].
Qed.

Lemma lconst (n : Z) : safe (SG (eq (Z.sgn n))) (ret (of_Z n)).
Proof.
  apply safe_ret. split; [unfold wf; cbn; lia |].
  unfold sgn. cbn. destruct n; reflexivity.
Qed.

End Lifted.


Lemma SG_any (S : Z -> Prop) (x : Dec.Decimal) : SG S x -> SG any_sign x.
Proof. intros [H _]. split; [exact H | exact I]. Qed.

Lemma SG_sgn (x : Dec.Decimal) : wf x -> SG (eq (sgn x)) x.
Proof. intros H. split; [exact H | reflexivity]. Qed.

Ltac sg Hprec :=
  lazymatch goal with
  | |- safe _ (lift2 (mul _) _ _) => eapply (lmul _ Hprec); [sg Hprec | sg Hprec]
  | |- safe _ (lift2 (div _) _ _) => eapply (ldiv _ Hprec); [sg Hprec | sg Hprec |]
  | |- safe _ (lift2 (add _) _ _) => eapply (ladd _ Hprec); [sg Hprec | sg Hprec]
  | |- safe _ (lift2 (sub _) _ _) => eapply (lsub _ Hprec); [sg Hprec | sg Hprec]
  | |- safe _ (lift1 (sqrt _) _) => eapply (lsqrt _ Hprec); [sg Hprec |]
  | |- safe _ (lift1 (fun a => pow _ a 2) _) => eapply (lpow2 _ Hprec); sg Hprec
  | |- safe _ (ret (of_Z _)) => apply lconst
  | |- safe _ (ret _) => apply safe_ret; eassumption
  end.

Ltac sg_side :=
  intros; unfold any_sign in *;
  repeat match goal with
         | H : exists _, _ |- _ => destruct H
         | H : _ /\ _ |- _ => destruct H
         end;
  subst;
  repeat match goal with
         | H1 : -1 <= ?a, H2 : ?a <= 1 |- _ =>
             is_var a;
             assert (a = -1 \/ a = 0 \/ a = 1) as [-> | [-> | ->]] by lia;
             clear H1 H2
         end;
  lia.

Section ProgramSafety.

Variable ctx : context.
Hypothesis Hprec : 1 <= prec ctx.

Lemma compute_tau_safe (c s lam d p : Dec.Decimal) :
  wf c -> wf s -> sgn c <> 0 \/ sgn s <> 0 ->
  SG (eq 1) lam -> SG (eq 1) d -> SG (eq 1) p ->
  safe (fun t => SG any_sign (fst t) /\ SG any_sign (snd t))
       (@compute_tau _ (Decimal_Number ctx) c s lam d p).
Proof.
  intros Hc Hs Hcs Hlam Hd Hp.
  apply SG_sgn in Hc, Hs.
  unfold compute_tau.
  cbn [num_add num_sub num_mul num_div num_sqrt num_pow of_int Decimal_Number].
  pose proof (sgn_range c) as Rc. pose proof (sgn_range s) as Rs.
  set (a := sgn c) in *. set (b := sgn s) in *. clearbody a b.
  eapply safe_bind; [sg Hprec | intros c_over_d Hcod].
  { intros; lia. }
  eapply safe_bind; [sg Hprec | intros s_over_d Hsod].
  { intros; lia. }
  eapply safe_bind; [sg Hprec | intros term1 Hterm1].
  { sg_side. }
  eapply safe_bind; [sg Hprec | intros term2 Hterm2].
  eapply safe_bind; [sg Hprec | intros dFactor HdFactor].
  { sg_side. }
  { sg_side. }
  eapply safe_bind; [sg Hprec | intros tau_x Htau_x].
  eapply safe_bind; [sg Hprec | intros tau_y Htau_y].
  { sg_side. }
  apply safe_ret. cbn [fst snd]. split; eapply SG_any; eassumption.
Qed.


Lemma SG_positive (x : Dec.Decimal) :
  wf x -> sign x = false -> 0 < coef x -> SG (eq 1) x.
Proof.
  intros Hx Hs Hc. split; [exact Hx |]. unfold sgn. rewrite Hs.
  destruct (coef x =? 0) eqn:E; [apply Z.eqb_eq in E; lia | reflexivity].
Qed.

Lemma SG_weaken (S S' : Z -> Prop) (x : Dec.Decimal) :
  SG S x -> (forall z, S z -> S' z) -> SG S' x.
Proof. intros [H1 H2] H. split; auto. Qed.

Lemma derive_safe (prm : params Dec.Decimal) :
  valid_params prm ->
  safe derived_wf (@derive _ (Decimal_Number ctx) prm).
Proof.
  unfold valid_params. destruct prm as [pa pb pc ps pl]. cbn [alpha beta c s lam].
  intros (Ha & Hb & Hc & Hs & Hl & Hcs & Sl & Sa & Sb).
  assert (Hlam : SG (eq 1) pl) by (apply SG_positive; tauto).
  assert (Halpha : SG (eq 1) pa) by (apply SG_positive; tauto).
  assert (Hbeta : SG (eq 1) pb) by (apply SG_positive; tauto).
  rewrite <- !sgn_zero_iff in Hcs.
  pose proof (compute_tau_safe pc ps pl) as Htau.
  pose proof (sgn_range pc) as Rc. pose proof (sgn_range ps) as Rs.
  apply SG_sgn in Hc, Hs.
  set (a := sgn pc) in *. set (b := sgn ps) in *. clearbody a b.
  unfold derive.
  cbn [num_add num_sub num_mul num_div num_sqrt num_pow of_int Decimal_Number].
  eapply safe_bind; [sg Hprec | intros dSq HdSq].
  eapply safe_bind; [apply (sqrt_SG _ Hprec _ _ HdSq); sg_side | intros d Hd].
  assert (Hd1 : SG (eq 1) d) by (apply (SG_weaken _ _ _ Hd); sg_side).
  destruct Hc as [Hc Hc'], Hs as [Hs Hs']. subst a b.
  eapply safe_bind; [apply Htau; assumption | intros [tauAlpha_x tauAlpha_y] [Hax Hay]].
  eapply safe_bind; [apply Htau; assumption | intros [tauBeta_x tauBeta_y] [Hbx Hby]].
  cbn [fst snd] in *.
  apply SG_sgn in Hc, Hs.
  eapply safe_bind; [sg Hprec | intros u Hu].
  eapply safe_bind; [sg Hprec | intros v Hv].
  eapply safe_bind; [sg Hprec | intros w Hw].
  eapply safe_bind; [sg Hprec | intros z Hz].
  apply safe_ret. unfold derived_wf. cbn.
  repeat match goal with H : SG _ _ |- _ => destruct H as [H _] end.
  tauto.
Qed.

Lemma to_int38_safe (SCALE val : Dec.Decimal) :
  wf SCALE -> wf val ->
  safe (fun _ => True) (@to_int38 _ (Decimal_Number ctx) SCALE val).
Proof.
  intros HS Hv. apply SG_sgn in HS, Hv. unfold to_int38.
  cbn [num_mul num_int Decimal_Number].
  eapply safe_bind; [sg Hprec | intros scaled _]. apply safe_ret. exact I.
Qed.

Lemma scale_safe (SCALE : Dec.Decimal) (dv : derived Dec.Decimal) :
  wf SCALE -> derived_wf dv ->
  safe (fun _ => True) (@scale _ (Decimal_Number ctx) SCALE dv).
Proof.
  intros HS (H1 & H2 & H3 & H4 & H5 & H6 & H7 & H8 & H9). unfold scale.
  repeat (eapply safe_bind; [apply to_int38_safe; assumption | intros ? _]).
  apply safe_ret. exact I.
Qed.

Lemma sanity_checks_safe (lam : Dec.Decimal) (dv : derived Dec.Decimal) :
  wf lam -> derived_wf dv ->
  safe (fun _ => True) (@sanity_checks _ (Decimal_Number ctx) lam dv).
Proof.
  intros Hl (H1 & H2 & H3 & H4 & H5 & H6 & H7 & H8 & H9). unfold sanity_checks.
  apply SG_sgn in Hl, H2, H3, H4, H5.
  pose proof (sgn_range lam). pose proof (sgn_range (tauAlpha_x dv)).
  pose proof (sgn_range (tauAlpha_y dv)). pose proof (sgn_range (tauBeta_x dv)).
  pose proof (sgn_range (tauBeta_y dv)).
  set (sl := sgn lam) in *. set (s1 := sgn (tauAlpha_x dv)) in *.
  set (s2 := sgn (tauAlpha_y dv)) in *. set (s3 := sgn (tauBeta_x dv)) in *.
  set (s4 := sgn (tauBeta_y dv)) in *. clearbody sl s1 s2 s3 s4.
  cbn [num_add num_sub num_mul num_div num_sqrt num_pow of_int Decimal_Number].
  eapply safe_bind; [sg Hprec; sg_side | intros na _].
  eapply safe_bind; [sg Hprec; sg_side | intros nb _].
  apply safe_ret. exact I.
Qed.

Lemma run_safe (scale38 : M Dec.Decimal) (prm : params Dec.Decimal) :
  safe wf scale38 -> valid_params prm ->
  safe (fun _ => True) (@run _ (Decimal_Number ctx) scale38 prm).
Proof.
  intros HS Hprm. unfold run.
  eapply safe_bind; [exact HS | intros SCALE HSC].
  eapply safe_bind; [apply derive_safe; exact Hprm | intros dv Hdv].
  eapply safe_bind; [apply scale_safe; assumption | intros cs _].
  eapply safe_bind; [apply sanity_checks_safe; [apply Hprm | exact Hdv] | intros sn _].
  apply safe_ret. exact I.
Qed.

End ProgramSafety.

(** *** What a run returns, whatever the flag *)

Lemma post_ret {A} (P : A -> Prop) (a : A) : P a -> post P (ret a).
Proof. intros H f b E. inversion E; subst. exact H. Qed.

Lemma post_bind {A B} (P : A -> Prop) (Q : B -> Prop) (m : M A) (k : A -> M B) :
  post P m -> (forall a, P a -> post Q (k a)) -> post Q (bind m k).
Proof.
  intros Hm Hk f b E. apply bind_Ok_inv in E.
  destruct E as (f1 & a & f2 & E1 & E2 & _). exact (Hk a (Hm _ _ E1) _ _ E2).
Qed.

Lemma post_any {A} (m : M A) : post (fun _ => True) m.
Proof. intros f a _. exact I. Qed.

Lemma fix_zero (ctx : context) (x : Dec.Decimal) : Zr x -> post Zr (fix_ ctx x).
Proof.
  unfold Zr, fix_. intros -> f a E. cbn in E. inversion E; subst. reflexivity.
Qed.

Lemma mul_zero_l (ctx : context) (x y : Dec.Decimal) : Zr x -> post Zr (mul ctx x y).
Proof. intros H. unfold mul. apply fix_zero. unfold Zr in *. cbn. rewrite H. reflexivity. Qed.

Lemma lmul_zero_l (ctx : context) (X Y : M Dec.Decimal) :
  post Zr X -> post Zr (lift2 (mul ctx) X Y).
Proof.
  intros HX. unfold lift2. eapply post_bind; [exact HX |]. intros a Ha.
  eapply post_bind; [apply post_any |]. intros b _. apply mul_zero_l. exact Ha.
Qed.

Lemma to_int_zero (x : Dec.Decimal) : Zr x -> to_int x = 0.
Proof.
  unfold Zr, to_int. intros ->. destruct (0 <=? expo x).
  - rewrite Z.mul_0_l. apply Z.mul_0_r.
  - rewrite Zdiv_0_l. apply Z.mul_0_r.
Qed.

Section ZeroSine.

Variable ctx : context.

Lemma to_int38_zero (SCALE val : Dec.Decimal) :
  Zr val -> post (fun n => n = 0) (@to_int38 _ (Decimal_Number ctx) SCALE val).
Proof.
  intros Hv. unfold to_int38. cbn [num_mul num_int Decimal_Number].
  eapply post_bind; [apply lmul_zero_l, post_ret; exact Hv |].
  intros scaled Hs. apply post_ret. apply to_int_zero. exact Hs.
Qed.

Lemma derive_zero_sine (prm : params Dec.Decimal) :
  Zr (s prm) ->
  post (fun dv => Zr (u dv) /\ Zr (w dv)) (@derive _ (Decimal_Number ctx) prm).
Proof.
  destruct prm as [pa pb pc ps pl]. cbn [s]. intros Hs.
  unfold derive. cbn [num_add num_sub num_mul num_div num_sqrt num_pow of_int Decimal_Number].
  eapply post_bind; [apply post_any | intros dSq _].
  eapply post_bind; [apply post_any | intros d _].
  eapply post_bind; [apply post_any | intros [tauAlpha_x tauAlpha_y] _].
  eapply post_bind; [apply post_any | intros [tauBeta_x tauBeta_y] _].
  eapply post_bind; [apply lmul_zero_l, lmul_zero_l, post_ret; exact Hs | intros u Hu].
  eapply post_bind; [apply post_any | intros v _].
  eapply post_bind; [apply lmul_zero_l, lmul_zero_l, post_ret; exact Hs | intros w Hw].
  eapply post_bind; [apply post_any | intros z _].
  apply post_ret. cbn. auto.
Qed.

Lemma scale_zero (SCALE : Dec.Decimal) (dv : derived Dec.Decimal) :
  Zr (u dv) -> Zr (w dv) ->
  post (fun cs => u_38 cs = 0 /\ w_38 cs = 0) (@scale _ (Decimal_Number ctx) SCALE dv).
Proof.
  intros Hu Hw. unfold scale.
  do 4 (eapply post_bind; [apply post_any | intros ? _]).
  eapply post_bind; [apply to_int38_zero; exact Hu | intros u_38 Hu38].
  eapply post_bind; [apply post_any | intros ? _].
  eapply post_bind; [apply to_int38_zero; exact Hw | intros w_38 Hw38].
  do 2 (eapply post_bind; [apply post_any | intros ? _]).
  apply post_ret. cbn. auto.
Qed.

Lemma run_zero_sine (scale38 : M Dec.Decimal) (prm : params Dec.Decimal) :
  Zr (s prm) ->
  post (fun o => u_38 (out_constants o) = 0 /\ w_38 (out_constants o) = 0)
       (@run _ (Decimal_Number ctx) scale38 prm).
Proof.
  intros Hs. unfold run.
  eapply post_bind; [apply post_any | intros SCALE _].
  eapply post_bind; [apply derive_zero_sine; exact Hs | intros dv [Hu Hw]].
  eapply post_bind; [apply scale_zero; assumption | intros cs Hcs].
  eapply post_bind; [apply post_any | intros sn _].
  apply post_ret. cbn. exact Hcs.
Qed.

End ZeroSine.

(** *** Scaling by [10^38] and truncation *)

(** Multiplying a representable number by [10^38] is exact. *)
Lemma mul_SCALE_38_exact (ctx : context) (x : Dec.Decimal) :
  representable ctx x -> 0 < coef x ->
  ndigits (coef x) + expo x + 38 <= Emax ctx + 1 ->
  exists y, mul ctx x script_SCALE_38 = (false, Ok y) /\
            sign y = sign x /\ expo x <= expo y /\
            coef y * 10 ^ (expo y - expo x) = coef x * 10 ^ 38.
Proof.
  intros (Hwf & Hdig & Hexp) Hc Hov.
  unfold mul, script_SCALE_38. cbn [sign coef expo].
  rewrite xorb_false_r, Z.add_0_r.
  unfold fix_. cbn [sign coef expo].
  assert (Hp38 : 0 < 10 ^ 38) by (apply pow10_pos; lia).
  destruct (coef x * 10 ^ 38 =? 0) eqn:E0; [apply Z.eqb_eq in E0; nia |].
  rewrite ndigits_mul_pow10 by lia.
  set (L := ndigits (coef x)) in *.
  pose proof (ndigits_ge_1 (coef x)) as HL1. fold L in HL1.
  unfold Etop.
  destruct (Emax ctx - prec ctx + 1 <? L + 38 + expo x - prec ctx) eqn:E1;
    [apply Z.ltb_lt in E1; lia |].
  set (sub := L + 38 + expo x - prec ctx <? Etiny ctx).
  set (exp_min := if sub then Etiny ctx else L + 38 + expo x - prec ctx).
  destruct (expo x <? exp_min) eqn:E2.
  2:{ eexists. split; [reflexivity |]. cbn [sign coef expo].
      rewrite Z.sub_diag. repeat split; lia. }
  apply Z.ltb_lt in E2.
  assert (Hsub : sub = false).
  { unfold exp_min in E2. destruct sub; [lia | reflexivity]. }
  unfold exp_min in *. rewrite Hsub in *. clear exp_min.
  replace (L + 38 + expo x - (L + 38 + expo x - prec ctx) <? 0) with false
    by (symmetry; apply Z.ltb_ge; lia).
  cbv zeta. cbn iota.
  set (k := L + 38 + expo x - prec ctx - expo x).
  assert (Hk : 0 < k <= 38) by (unfold k; lia).
  assert (Hsplit : coef x * 10 ^ 38 = coef x * 10 ^ (38 - k) * 10 ^ k).
  { rewrite <- Z.mul_assoc, <- Z.pow_add_r by lia. do 2 f_equal. lia. }
  assert (Hpk : 0 < 10 ^ k) by (apply pow10_pos; lia).
  assert (Hq : coef x * 10 ^ 38 / 10 ^ k = coef x * 10 ^ (38 - k)).
  { rewrite Hsplit. apply Z.div_mul. lia. }
  assert (Hr : round_half_even (coef x * 10 ^ 38) k = 0).
  { unfold round_half_even. rewrite Hsplit, Z.mod_mul by lia. reflexivity. }
  rewrite Hr, Hq. cbn [Z.ltb Z.eqb Z.compare negb andb]. rewrite E1.
  eexists. split; [reflexivity |]. cbn [sign coef expo]. fold k.
  split; [reflexivity |]. split; [lia |]. symmetry. exact Hsplit.
Qed.

(** [int()] depends on the value only. *)
Lemma to_int_same_value (sg : bool) (c1 e1 c2 e2 : Z) :
  e1 <= e2 -> c2 * 10 ^ (e2 - e1) = c1 ->
  to_int (mkDec sg c2 e2) = to_int (mkDec sg c1 e1).
Proof.
  intros He Hc. unfold to_int. cbn [sign coef expo]. f_equal. subst c1.
  destruct (0 <=? e2) eqn:E2; destruct (0 <=? e1) eqn:E1;
    try apply Z.leb_le in E1; try apply Z.leb_le in E2;
    try apply Z.leb_gt in E1; try apply Z.leb_gt in E2; try lia.
  - rewrite <- Z.mul_assoc, <- Z.pow_add_r by lia. do 2 f_equal. lia.
  - replace (e2 - e1) with (e2 + - e1) by lia.
    rewrite Z.pow_add_r, Z.mul_assoc by lia.
    rewrite Z.div_mul; [reflexivity |]. pose proof (pow10_pos (- e1)); lia.
  - replace (- e1) with (- e2 + (e2 - e1)) by lia.
    rewrite Z.pow_add_r by lia.
    rewrite Z.div_mul_cancel_r; [reflexivity | |];
      [pose proof (pow10_pos (- e2)) | pose proof (pow10_pos (e2 - e1))]; lia.
Qed.

Local Open Scope Q_scope.

Lemma pow10Q_nonneg (e : Z) : (0 <= e)%Z -> pow10Q e == inject_Z (10 ^ e).
Proof. intros He. unfold pow10Q. symmetry. apply Zpower_Qpower. exact He. Qed.

Lemma pow10Q_neg (e : Z) : (e < 0)%Z -> pow10Q e == / inject_Z (10 ^ (- e)).
Proof.
  intros He. unfold pow10Q.
  replace e with (- - e)%Z at 1 by lia.
  rewrite Qpower_opp. apply Qinv_comp. symmetry. apply Zpower_Qpower. lia.
Qed.

Lemma pow10Q_pos (e : Z) : 0 < pow10Q e.
Proof. unfold pow10Q. apply Qpower_0_lt. reflexivity. Qed.

Lemma to_int_floor (x : Dec.Decimal) :
  sign x = false -> to_int x = Qfloor (to_Q x).
Proof.
  intros Hs. unfold to_int, to_Q. rewrite Hs, Z.mul_1_l.
  destruct (0 <=? expo x)%Z eqn:E.
  - apply Z.leb_le in E.
    rewrite (Qfloor_comp _ (inject_Z (coef x * 10 ^ expo x))).
    + symmetry. apply Qfloor_Z.
    + rewrite inject_Z_mult, pow10Q_nonneg by exact E. reflexivity.
  - apply Z.leb_gt in E.
    rewrite (Qfloor_comp _ (inject_Z (coef x) / inject_Z (10 ^ (- expo x)))).
    + apply Zdiv_Qdiv.
    + rewrite pow10Q_neg by exact E. reflexivity.
Qed.

Lemma to_Q_negate (x : Dec.Decimal) : to_Q (copy_negate x) == - to_Q x.
Proof.
  unfold to_Q, copy_negate. cbn [sign coef expo].
  destruct (sign x); cbn [negb]; rewrite ?inject_Z_opp; ring.
Qed.

Lemma to_int_negate (x : Dec.Decimal) : to_int (copy_negate x) = (- to_int x)%Z.
Proof.
  unfold to_int, copy_negate. cbn [sign coef expo]. destruct (sign x); cbn [negb]; lia.
Qed.

Lemma to_int_ceiling (x : Dec.Decimal) :
  sign x = true -> to_int x = Qceiling (to_Q x).
Proof.
  intros Hs. unfold Qceiling.
  rewrite <- (Qfloor_comp _ _ (to_Q_negate x)), <- to_int_floor.
  - rewrite to_int_negate. lia.
  - unfold copy_negate. cbn. rewrite Hs. reflexivity.
Qed.

Lemma to_Q_sign (x : Dec.Decimal) :
  wf x -> if sign x then to_Q x <= 0 else 0 <= to_Q x.
Proof.
  unfold wf, to_Q. intros Hwf. pose proof (pow10Q_pos (expo x)) as Hp.
  destruct (sign x).
  - setoid_replace 0 with (0 * pow10Q (expo x)) by ring.
    apply Qmult_le_compat_r; [| apply Qlt_le_weak; exact Hp].
    change 0%Q with (inject_Z 0). rewrite <- Zle_Qle. lia.
  - setoid_replace 0 with (0 * pow10Q (expo x)) by ring.
    apply Qmult_le_compat_r; [| apply Qlt_le_weak; exact Hp].
    change 0%Q with (inject_Z 0). rewrite <- Zle_Qle. lia.
Qed.

(** [int()] truncates toward zero. *)
Lemma to_int_truncates (x : Dec.Decimal) :
  wf x ->
  (0 <= to_Q x -> to_int x = Qfloor (to_Q x)) /\
  (to_Q x < 0 -> to_int x = Qceiling (to_Q x)).
Proof.
  intros Hwf. pose proof (to_Q_sign x Hwf) as Hsg.
  destruct (sign x) eqn:Hs.
  - split; [| intros _; apply to_int_ceiling; exact Hs].
    intros H0. assert (E : to_Q x == 0) by (apply Qle_antisym; assumption).
    rewrite (to_int_ceiling x Hs).
    rewrite (Qceiling_comp _ _ E), (Qfloor_comp _ _ E). reflexivity.
  - split; [intros _; apply to_int_floor; exact Hs |].
    intros H0. exfalso. apply (Qlt_not_le _ _ H0). exact Hsg.
Qed.

Local Close Scope Q_scope.

End DecFacts.

(** ** Correct rounding *)

Module RoundFacts.
Import Dec DecFacts.

Local Open Scope R_scope.

Ltac izr :=
  repeat first [rewrite mult_IZR | rewrite plus_IZR | rewrite minus_IZR | rewrite opp_IZR].

Ltac izr_in H :=
  repeat first [rewrite mult_IZR in H | rewrite plus_IZR in H | rewrite minus_IZR in H
               | rewrite opp_IZR in H].

Lemma p10_pos (e : Z) : 0 < p10 e.
Proof. unfold p10. apply powerRZ_lt. lra. Qed.

Lemma p10_add (a b : Z) : p10 (a + b) = p10 a * p10 b.
Proof. unfold p10. apply powerRZ_add. lra. Qed.

Lemma p10_0 : p10 0 = 1.
Proof. reflexivity. Qed.

Lemma p10_1 : p10 1 = 10.
Proof. unfold p10. apply powerRZ_1. Qed.

Lemma p10_succ (a : Z) : p10 (a + 1) = 10 * p10 a.
Proof. rewrite p10_add, p10_1. ring. Qed.

Lemma p10_IZR (k : Z) : (0 <= k)%Z -> p10 k = IZR (10 ^ k).
Proof.
  intros Hk. unfold p10.
  rewrite <- (Z2Nat.id k Hk) at 1. rewrite <- pow_powerRZ.
  rewrite <- (Z2Nat.id k Hk) at 2. symmetry. rewrite <- pow_IZR. reflexivity.
Qed.

Lemma p10_ge_1 (k : Z) : (0 <= k)%Z -> 1 <= p10 k.
Proof.
  intros Hk. rewrite p10_IZR by exact Hk. apply IZR_le.
  pose proof (pow10_pos k Hk). lia.
Qed.

Lemma p10_le (a b : Z) : (a <= b)%Z -> p10 a <= p10 b.
Proof.
  intros H. replace b with (a + (b - a))%Z by lia. rewrite p10_add.
  pose proof (p10_pos a). pose proof (p10_ge_1 (b - a) ltac:(lia)). nra.
Qed.

Lemma p10_lt (a b : Z) : (a < b)%Z -> p10 a < p10 b.
Proof.
  intros H. replace b with (a + 1 + (b - a - 1))%Z by lia. rewrite p10_add, p10_succ.
  pose proof (p10_pos a). pose proof (p10_ge_1 (b - a - 1) ltac:(lia)). nra.
Qed.

Lemma p10_lt_inv (a b : Z) : p10 a < p10 b -> (a < b)%Z.
Proof.
  intros H. destruct (Z_lt_ge_dec a b) as [Hlt | Hge]; [exact Hlt |].
  pose proof (p10_le b a ltac:(lia)). lra.
Qed.

(** The grid point of a power of ten. *)
Lemma p10_split (a e : Z) : (e <= a)%Z -> p10 a = IZR (10 ^ (a - e)) * p10 e.
Proof.
  intros H. rewrite <- p10_IZR by lia. rewrite <- p10_add. f_equal. lia.
Qed.

Lemma nearest_even_nonneg (a : R) (m : Z) : 0 <= a -> nearest_even a m -> (0 <= m)%Z.
Proof.
  intros Ha [[_ H] _].
  assert (-1 < IZR m) by lra.
  apply lt_IZR in H0. lia.
Qed.

Lemma nearest_even_mono (a b : R) (m n : Z) :
  a <= b -> nearest_even a m -> nearest_even b n -> (m <= n)%Z.
Proof.
  intros Hab [[Hm1 Hm2] Hme] [[Hn1 Hn2] Hne].
  assert (H : IZR m < IZR n + 2) by lra.
  change 2 with (IZR 2) in H. rewrite <- plus_IZR in H. apply lt_IZR in H.
  destruct (Z.eq_dec m (n + 1)) as [E | E]; [| lia].
  exfalso. subst m. rewrite plus_IZR in *.
  assert (E1 : Z.even (n + 1) = true) by (apply Hme; left; lra).
  assert (E2 : Z.even n = true) by (apply Hne; right; lra).
  rewrite Z.even_add, E2 in E1. discriminate.
Qed.

(** A grid point below (above) a number stays below (above) its
    rounding. *)
Lemma nearest_even_ge (a : R) (m k : Z) : IZR k <= a -> nearest_even a m -> (k <= m)%Z.
Proof.
  intros Hk [[_ H] _].
  assert (H1 : IZR k < IZR m + 1) by lra.
  change 1 with (IZR 1) in H1. rewrite <- plus_IZR in H1. apply lt_IZR in H1. lia.
Qed.

Lemma nearest_even_le (a : R) (m k : Z) : a <= IZR k -> nearest_even a m -> (m <= k)%Z.
Proof.
  intros Hk [[H _] _].
  assert (H1 : IZR m < IZR k + 1) by lra.
  change 1 with (IZR 1) in H1. rewrite <- plus_IZR in H1. apply lt_IZR in H1. lia.
Qed.

Lemma div_grid (k : Z) (g : R) : 0 < g -> IZR k * g / g = IZR k.
Proof. intros. field. lra. Qed.

Section Rounding.

Variable ctx : context.
Hypothesis Hprec : (1 <= prec ctx)%Z.

Lemma rounded_nonneg (q r : R) : 0 <= q -> rounded ctx q r -> 0 <= r.
Proof.
  intros Hq [[_ ->] | (L & m & HL & Hm & ->)]; [lra |].
  set (e := Z.max (L - prec ctx) (Etiny ctx)) in *.
  pose proof (p10_pos e) as Hg.
  assert (0 <= q / p10 e) by (apply Rmult_le_pos; [exact Hq | left; apply Rinv_0_lt_compat; exact Hg]).
  pose proof (nearest_even_nonneg _ _ H Hm) as H0. apply IZR_le in H0. nra.
Qed.

Lemma rounded_mono (q1 q2 r1 r2 : R) :
  0 <= q1 -> q1 <= q2 -> rounded ctx q1 r1 -> rounded ctx q2 r2 -> r1 <= r2.
Proof.
  intros H0 H12 [[E1 ->] | (L1 & m1 & HL1 & Hm1 & ->)] R2.
  { apply (rounded_nonneg q2); [lra | exact R2]. }
  destruct R2 as [[E2 ->] | (L2 & m2 & HL2 & Hm2 & ->)].
  { pose proof (p10_pos (L1 - 1)). lra. }
  set (e1 := Z.max (L1 - prec ctx) (Etiny ctx)) in *.
  set (e2 := Z.max (L2 - prec ctx) (Etiny ctx)) in *.
  pose proof (p10_pos e1) as Hg1. pose proof (p10_pos e2) as Hg2.
  assert (HL : (L1 <= L2)%Z).
  { assert (p10 (L1 - 1) < p10 L2) by lra. apply p10_lt_inv in H. lia. }
  destruct (Z.eq_dec e1 e2) as [Ee | Ee].
  - rewrite <- Ee in *.
    assert (Ha : q1 / p10 e1 <= q2 / p10 e1).
    { apply Rmult_le_compat_r; [left; apply Rinv_0_lt_compat; exact Hg1 | exact H12]. }
    pose proof (nearest_even_mono _ _ _ _ Ha Hm1 Hm2) as Hm. apply IZR_le in Hm. nra.
  - assert (He : (e1 < e2)%Z) by (unfold e1, e2 in *; lia).
    assert (He2 : e2 = (L2 - prec ctx)%Z) by (unfold e1, e2 in *; lia).
    (* r1 is at most 10^T, r2 at least 10^(L2 - 1) *)
    set (T := Z.max L1 e1).
    assert (HT : (T <= L2 - 1)%Z) by (unfold T, e1, e2 in *; lia).
    assert (H1 : IZR m1 * p10 e1 <= p10 T).
    { rewrite (p10_split T e1) by (unfold T; lia).
      apply Rmult_le_compat_r; [lra |]. apply IZR_le.
      apply (nearest_even_le (q1 / p10 e1)); [| exact Hm1].
      rewrite <- (div_grid (10 ^ (T - e1)) (p10 e1)) by exact Hg1.
      apply Rmult_le_compat_r; [left; apply Rinv_0_lt_compat; exact Hg1 |].
      rewrite <- p10_split by (unfold T; lia).
      pose proof (p10_le L1 T ltac:(unfold T; lia)). lra. }
    assert (H2 : p10 (L2 - 1) <= IZR m2 * p10 e2).
    { rewrite (p10_split (L2 - 1) e2) by lia.
      apply Rmult_le_compat_r; [lra |]. apply IZR_le.
      apply (nearest_even_ge (q2 / p10 e2)); [| exact Hm2].
      rewrite <- (div_grid (10 ^ (L2 - 1 - e2)) (p10 e2)) by exact Hg2.
      apply Rmult_le_compat_r; [left; apply Rinv_0_lt_compat; exact Hg2 |].
      rewrite <- p10_split by lia. lra. }
    pose proof (p10_le T (L2 - 1) HT). lra.
Qed.

(** The rounding is a function of the value. *)
Lemma rounded_unique (q r1 r2 : R) :
  0 <= q -> rounded ctx q r1 -> rounded ctx q r2 -> r1 = r2.
Proof.
  intros Hq H1 H2. apply Rle_antisym; eapply (rounded_mono q q); eauto; lra.
Qed.

Lemma rounded_zero (r : R) : rounded ctx 0 r -> r = 0.
Proof.
  intros [[_ ->] | (L & m & HL & _)]; [reflexivity |].
  pose proof (p10_pos (L - 1)). lra.
Qed.

Lemma rounded_zero_intro : rounded ctx 0 0.
Proof. left. split; reflexivity. Qed.

(** *** Values of decimals *)

Lemma to_R_nonneg_form (x : Dec.Decimal) :
  sign x = false -> to_R x = IZR (coef x) * p10 (expo x).
Proof. intros H. unfold to_R. rewrite H. reflexivity. Qed.

Lemma to_R_zero (x : Dec.Decimal) : coef x = 0%Z -> to_R x = 0.
Proof. intros H. unfold to_R. rewrite H. destruct (sign x); cbn; ring. Qed.

Lemma to_R_nonneg (x : Dec.Decimal) : nonneg x -> 0 <= to_R x.
Proof.
  intros [Hwf Hs]. rewrite to_R_nonneg_form by exact Hs.
  pose proof (p10_pos (expo x)). unfold wf in Hwf. apply IZR_le in Hwf. nra.
Qed.

Lemma to_R_pos (x : Dec.Decimal) : sign x = false -> (0 < coef x)%Z -> 0 < to_R x.
Proof.
  intros Hs Hc. rewrite to_R_nonneg_form by exact Hs.
  pose proof (p10_pos (expo x)). apply IZR_lt in Hc. nra.
Qed.

(** The leading digit of a positive decimal. *)
Lemma to_R_bounds (x : Dec.Decimal) :
  sign x = false -> (0 < coef x)%Z ->
  p10 (ndigits (coef x) + expo x - 1) <= to_R x < p10 (ndigits (coef x) + expo x).
Proof.
  intros Hs Hc. rewrite to_R_nonneg_form by exact Hs.
  pose proof (ndigits_spec _ Hc) as [Hlo Hhi]. pose proof (ndigits_ge_1 (coef x)) as H1.
  pose proof (p10_pos (expo x)) as Hg.
  replace (ndigits (coef x) + expo x - 1)%Z with ((ndigits (coef x) - 1) + expo x)%Z by lia.
  rewrite !p10_add.
  rewrite (p10_IZR (ndigits (coef x) - 1)), (p10_IZR (ndigits (coef x))) by lia.
  apply IZR_le in Hlo. apply IZR_lt in Hhi.
  split; [apply Rmult_le_compat_r | apply Rmult_lt_compat_r]; lra.
Qed.

Lemma leading_unique (q : R) (L L' : Z) :
  p10 (L - 1) <= q < p10 L -> p10 (L' - 1) <= q < p10 L' -> L = L'.
Proof.
  intros [H1 H2] [H3 H4].
  assert (A : p10 (L - 1) < p10 L') by lra. apply p10_lt_inv in A.
  assert (B : p10 (L' - 1) < p10 L) by lra. apply p10_lt_inv in B. lia.
Qed.

(** [nearest_even] of a quotient of integers, in integers. *)
Lemma nearest_even_div (c K m : Z) :
  (0 < K)%Z ->
  ((2 * m - 1) * K <= 2 * c <= (2 * m + 1) * K)%Z ->
  ((2 * c = (2 * m - 1) * K)%Z \/ (2 * c = (2 * m + 1) * K)%Z -> Z.even m = true) ->
  nearest_even (IZR c / IZR K) m.
Proof.
  intros HK [H1 H2] He.
  assert (HKR : 0 < IZR K) by (apply IZR_lt; exact HK).
  assert (E : 2 * (IZR c / IZR K) * IZR K = IZR (2 * c)).
  { rewrite mult_IZR. field. lra. }
  apply IZR_le in H1, H2. izr_in H1. izr_in H2.
  split.
  - split.
    + apply (Rmult_le_reg_r (IZR K)); [exact HKR |]. rewrite E. izr. lra.
    + apply (Rmult_le_reg_r (IZR K)); [exact HKR |]. rewrite E. izr. lra.
  - intros [H | H]; apply He; [left | right]; apply eq_IZR;
      rewrite <- E, H; izr; ring.
Qed.

Lemma nearest_even_div_inv (c K m : Z) :
  (0 < K)%Z -> nearest_even (IZR c / IZR K) m ->
  ((2 * m - 1) * K <= 2 * c <= (2 * m + 1) * K)%Z.
Proof.
  intros HK [[H1 H2] _].
  assert (HKR : 0 < IZR K) by (apply IZR_lt; exact HK).
  assert (E : 2 * (IZR c / IZR K) * IZR K = IZR (2 * c)).
  { rewrite mult_IZR. field. lra. }
  split; apply le_IZR; rewrite <- E; izr; apply Rmult_le_compat_r; lra.
Qed.

Lemma nearest_even_Z (j : Z) : nearest_even (IZR j) j.
Proof. split; [lra |]. intros [H | H]; lra. Qed.

(** What [round_half_even] decides. *)
Lemma round_half_even_spec (c k : Z) :
  (0 <= c)%Z -> (1 <= k)%Z ->
  let K := (10 ^ k)%Z in
  let m := (if 0 <? round_half_even c k then c / K + 1 else c / K)%Z in
  ((2 * m - 1) * K <= 2 * c <= (2 * m + 1) * K)%Z /\
  ((2 * c = (2 * m - 1) * K)%Z \/ (2 * c = (2 * m + 1) * K)%Z -> Z.even m = true).
Proof.
  intros Hc Hk K m.
  assert (HK : (0 < K)%Z) by (apply pow10_pos; lia).
  assert (Hhalf : (K = 2 * (5 * 10 ^ (k - 1)))%Z).
  { unfold K. replace k with (k - 1 + 1)%Z at 1 by lia. rewrite pow10_succ by lia. lia. }
  pose proof (Z.div_mod c K ltac:(lia)) as Hdm.
  pose proof (Z.mod_pos_bound c K HK) as Hr.
  unfold m, round_half_even. fold K.
  set (q := (c / K)%Z) in *. set (r := (c mod K)%Z) in *.
  set (half := (5 * 10 ^ (k - 1))%Z) in *.
  destruct (r =? 0)%Z eqn:E0.
  { apply Z.eqb_eq in E0. cbn [Z.ltb Z.compare]. split; [nia |].
    intros [H | H]; exfalso; nia. }
  apply Z.eqb_neq in E0.
  destruct (half <? r)%Z eqn:E1; cbn [orb].
  { apply Z.ltb_lt in E1. cbn [Z.ltb Z.compare]. split; [nia |].
    intros [H | H]; exfalso; nia. }
  apply Z.ltb_ge in E1.
  destruct (r =? half)%Z eqn:E2; cbn [andb].
  - apply Z.eqb_eq in E2. destruct (Z.odd q) eqn:Eo; cbn [Z.ltb Z.compare].
    + split; [nia |]. intros _. rewrite Z.even_add, <- Z.negb_odd, Eo. reflexivity.
    + split; [nia |]. intros _. rewrite <- Z.negb_odd, Eo. reflexivity.
  - apply Z.eqb_neq in E2. cbn [Z.ltb Z.compare]. split; [nia |].
    intros [H | H]; exfalso; nia.
Qed.

(** *** [fix_] rounds correctly *)

Lemma to_R_mkDec (q e : Z) : to_R (mkDec false q e) = IZR q * p10 e.
Proof. reflexivity. Qed.

Lemma to_R_at (x : Dec.Decimal) (e : Z) :
  sign x = false -> (e <= expo x)%Z ->
  to_R x = IZR (coef x * 10 ^ (expo x - e)) * p10 e.
Proof.
  intros Hs He. rewrite to_R_nonneg_form by exact Hs.
  rewrite mult_IZR, <- p10_IZR by lia. rewrite Rmult_assoc, <- p10_add.
  do 2 f_equal. lia.
Qed.

Lemma to_R_over (x : Dec.Decimal) (e : Z) :
  sign x = false -> (expo x <= e)%Z ->
  to_R x / p10 e = IZR (coef x) / IZR (10 ^ (e - expo x)).
Proof.
  intros Hs He. rewrite to_R_nonneg_form by exact Hs.
  rewrite (p10_split e (expo x)) by exact He.
  pose proof (p10_pos (expo x)).
  assert (0 < IZR (10 ^ (e - expo x))) by (apply IZR_lt, pow10_pos; lia).
  field. split; lra.
Qed.

Lemma fix_rounded (x : Dec.Decimal) (f : bool) (r : Dec.Decimal) :
  nonneg x -> fix_ ctx x = (f, Ok r) -> rounded ctx (to_R x) (to_R r) /\ nonneg r.
Proof.
  intros [Hwf Hs] H. unfold wf in Hwf. unfold fix_ in H.
  destruct (coef x =? 0)%Z eqn:E0.
  { apply Z.eqb_eq in E0. inversion H; subst. split.
    - left. split; apply to_R_zero; [exact E0 | reflexivity].
    - split; [unfold wf; cbn; lia | exact Hs]. }
  apply Z.eqb_neq in E0. assert (Hc : (0 < coef x)%Z) by lia.
  pose proof (to_R_bounds x Hs Hc) as HL.
  pose proof (ndigits_spec _ Hc) as [Hlo Hhi].
  set (len := ndigits (coef x)) in *.
  destruct (Etop ctx <? len + expo x - prec ctx)%Z eqn:E1; [discriminate |].
  set (sub := (len + expo x - prec ctx <? Etiny ctx)%Z) in *.
  set (e := if sub then Etiny ctx else (len + expo x - prec ctx)%Z) in *.
  assert (He : e = Z.max (len + expo x - prec ctx) (Etiny ctx)).
  { unfold e, sub. destruct (Z.ltb_spec (len + expo x - prec ctx) (Etiny ctx)); lia. }
  destruct (expo x <? e)%Z eqn:E2.
  2:{ apply Z.ltb_ge in E2. inversion H; subst r. split; [| split; assumption].
      right. exists (len + expo x)%Z, (coef x * 10 ^ (expo x - e))%Z. rewrite <- He.
      split; [exact HL |].
      pose proof (to_R_at x e Hs E2) as Ev.
      split; [| exact Ev]. rewrite Ev, div_grid by apply p10_pos. apply nearest_even_Z. }
  apply Z.ltb_lt in E2.
  assert (Hfin : forall q' e' fl,
    (if (Etop ctx <? e')%Z then raise Overflow else (fl, Ok (mkDec (sign x) q' e'))) = (f, Ok r) ->
    r = mkDec false q' e').
  { intros q' e' fl Hr. destruct (Etop ctx <? e')%Z; [discriminate |].
    inversion Hr. rewrite Hs. reflexivity. }
  destruct (len + expo x - e <? 0)%Z eqn:E3.
  - (* the number lies wholly below the last digit kept *)
    apply Z.ltb_lt in E3.
    replace (e - (e - 1))%Z with 1%Z in H by lia.
    change (round_half_even 1 1) with (-1)%Z in H.
    change (1 / 10 ^ 1)%Z with 0%Z in H. cbn [Z.ltb Z.compare] in H.
    apply Hfin in H. subst r. split; [| split; [unfold wf; cbn; lia | reflexivity]].
    right. exists (len + expo x)%Z, 0%Z. rewrite <- He.
    split; [exact HL |]. rewrite to_R_mkDec. split; [| reflexivity].
    pose proof (p10_pos e) as Hg.
    assert (Ha : 0 <= to_R x / p10 e < / 10).
    { pose proof (p10_le (len + expo x) (e - 1) ltac:(lia)) as Hle.
      pose proof (p10_succ (e - 1)) as Hs1. replace (e - 1 + 1)%Z with e in Hs1 by lia.
      pose proof (p10_pos (len + expo x - 1)). pose proof (p10_pos (e - 1)).
      split.
      - apply Rmult_le_pos; [lra | left; apply Rinv_0_lt_compat; exact Hg].
      - apply (Rmult_lt_reg_r (p10 e)); [exact Hg |].
        replace (to_R x / p10 e * p10 e) with (to_R x) by (field; lra).
        rewrite Hs1. lra. }
    split; [cbn; lra |]. intros _. reflexivity.
  - (* some digits are kept *)
    apply Z.ltb_ge in E3.
    set (k := (e - expo x)%Z) in *. assert (Hk : (1 <= k)%Z) by (unfold k; lia).
    pose proof (round_half_even_spec (coef x) k Hwf Hk) as Hspec. cbv zeta in Hspec.
    assert (HK : (0 < 10 ^ k)%Z) by (apply pow10_pos; lia).
    set (q := (coef x / 10 ^ k)%Z) in *.
    assert (Hq : (0 <= q < 10 ^ prec ctx)%Z).
    { split; [apply Z.div_pos; lia |]. apply Z.div_lt_upper_bound; [lia |].
      rewrite <- Z.pow_add_r by lia.
      assert (10 ^ len <= 10 ^ (k + prec ctx))%Z by (apply Z.pow_le_mono_r; unfold k; lia).
      lia. }
    assert (Hround : forall m q' e',
      nearest_even (IZR (coef x) / IZR (10 ^ k)) m ->
      IZR q' * p10 e' = IZR m * p10 e -> (0 <= q')%Z ->
      rounded ctx (to_R x) (to_R (mkDec false q' e')) /\ nonneg (mkDec false q' e')).
    { intros m q' e' Hm Hv Hq'. split; [| split; [exact Hq' | reflexivity]].
      right. exists (len + expo x)%Z, m. rewrite <- He.
      split; [exact HL |]. rewrite to_R_mkDec. split; [| exact Hv].
      rewrite to_R_over by (try exact Hs; lia). exact Hm. }
    destruct (0 <? round_half_even (coef x) k)%Z eqn:E4.
    + destruct Hspec as [Hb Ht].
      pose proof (nearest_even_div _ _ _ HK Hb Ht) as Hm.
      destruct (prec ctx <? ndigits (q + 1))%Z eqn:E5.
      * apply Z.ltb_lt in E5. apply Hfin in H. subst r.
        pose proof (ndigits_spec (q + 1) ltac:(lia)) as [Hlo1 _].
        assert (10 ^ prec ctx <= 10 ^ (ndigits (q + 1) - 1))%Z
          by (apply Z.pow_le_mono_r; lia).
        assert (Eq : (q + 1 = 10 ^ prec ctx)%Z) by lia.
        assert (Eq10 : (q + 1 = (q + 1) / 10 * 10)%Z).
        { pose proof (pow10_succ (prec ctx - 1) ltac:(lia)) as E10.
          replace (prec ctx - 1 + 1)%Z with (prec ctx) in E10 by lia.
          rewrite Eq, E10, (Z.mul_comm 10), Z.div_mul by lia. reflexivity. }
        apply (Hround (q + 1)%Z); [exact Hm | | apply Z.div_pos; lia].
        rewrite p10_succ. rewrite Eq10 at 2. rewrite mult_IZR. ring.
      * apply Hfin in H. subst r.
        apply (Hround (q + 1)%Z); [exact Hm | reflexivity | lia].
    + destruct Hspec as [Hb Ht].
      pose proof (nearest_even_div _ _ _ HK Hb Ht) as Hm.
      apply Hfin in H. subst r.
      apply (Hround q); [exact Hm | reflexivity | lia].
Qed.

(** *** The sticky digit *)

Lemma nearest_even_strict (z g : R) (m : Z) :
  0 < g -> (2 * IZR m - 1) * g < 2 * z < (2 * IZR m + 1) * g ->
  nearest_even (z / g) m.
Proof.
  intros Hg [H1 H2].
  assert (E : 2 * z = 2 * (z / g) * g) by (field; lra).
  rewrite E in H1, H2.
  apply Rmult_lt_reg_r in H1; [| exact Hg]. apply Rmult_lt_reg_r in H2; [| exact Hg].
  split; [lra |]. intros [H | H]; lra.
Qed.

(** A number of more than [prec] digits whose last digit is neither 0 nor
    5 is rounded as every real less than one unit of its last place away
    from it: this is what the sticky digit of a division, of a square root
    and of a sum of distant operands relies on. *)
Lemma rounded_sticky (x : Dec.Decimal) (z r : R) :
  sign x = false -> (0 < coef x)%Z -> (prec ctx < ndigits (coef x))%Z ->
  (coef x mod 5 <> 0)%Z ->
  to_R x - p10 (expo x) < z < to_R x + p10 (expo x) ->
  rounded ctx (to_R x) r -> rounded ctx z r.
Proof.
  intros Hs Hc Hlen H5 Hz [[E _] | (L & m & HL & Hm & ->)].
  { pose proof (to_R_pos x Hs Hc). lra. }
  pose proof (to_R_bounds x Hs Hc) as HL'.
  assert (EL : L = (ndigits (coef x) + expo x)%Z) by (eapply leading_unique; eauto).
  subst L. clear HL'.
  pose proof (ndigits_spec _ Hc) as [Hlo Hhi].
  set (len := ndigits (coef x)) in *.
  set (e := Z.max (len + expo x - prec ctx) (Etiny ctx)) in *.
  assert (He : (expo x < e)%Z) by (unfold e; lia).
  set (k := (e - expo x)%Z).
  assert (HK : (0 < 10 ^ k)%Z) by (apply pow10_pos; unfold k; lia).
  rewrite to_R_over in Hm by (try exact Hs; lia). fold k in Hm.
  apply nearest_even_div_inv in Hm; [| exact HK].
  pose proof (pow10_succ (k - 1) ltac:(unfold k; lia)) as EK.
  replace (k - 1 + 1)%Z with k in EK by lia.
  pose proof (pow10_pos (k - 1) ltac:(unfold k; lia)) as Hw.
  set (w := (10 ^ (k - 1))%Z) in *. rewrite EK in Hm.
  set (p := (m * w)%Z).
  assert (Hm' : (5 * (2 * p - w) < coef x < 5 * (2 * p + w))%Z).
  { replace ((2 * m - 1) * (10 * w))%Z with (10 * (2 * p - w))%Z in Hm by (unfold p; ring).
    replace ((2 * m + 1) * (10 * w))%Z with (10 * (2 * p + w))%Z in Hm by (unfold p; ring).
    split.
    - destruct (Z.eq_dec (coef x) (5 * (2 * p - w))) as [E | E]; [| lia].
      exfalso. apply H5. rewrite E, Z.mul_comm. apply Z.mod_mul. lia.
    - destruct (Z.eq_dec (coef x) (5 * (2 * p + w))) as [E | E]; [| lia].
      exfalso. apply H5. rewrite E, Z.mul_comm. apply Z.mod_mul. lia. }
  pose proof (pow10_succ (len - 2) ltac:(lia)) as EL.
  replace (len - 2 + 1)%Z with (len - 1)%Z in EL by lia.
  assert (Hlo' : (10 ^ (len - 1) < coef x)%Z).
  { destruct (Z.eq_dec (coef x) (10 ^ (len - 1))) as [E | E]; [| lia].
    exfalso. apply H5. rewrite E, EL.
    replace (10 * 10 ^ (len - 2))%Z with (2 * 10 ^ (len - 2) * 5)%Z by ring.
    apply Z.mod_mul. lia. }
  pose proof (p10_pos (expo x)) as Hu. set (u := p10 (expo x)) in *.
  assert (Ex : to_R x = IZR (coef x) * u) by (apply to_R_nonneg_form; exact Hs).
  right. exists (len + expo x)%Z, m. fold e. split; [| split; [| reflexivity]].
  - replace (len + expo x - 1)%Z with ((len - 1) + expo x)%Z by lia.
    rewrite !p10_add. fold u.
    rewrite (p10_IZR (len - 1)), (p10_IZR len) by lia.
    assert (A : IZR (10 ^ (len - 1)) <= IZR (coef x) - 1).
    { rewrite <- minus_IZR. apply IZR_le. lia. }
    assert (B : IZR (coef x) + 1 <= IZR (10 ^ len)).
    { rewrite <- plus_IZR. apply IZR_le. lia. }
    split; nra.
  - apply nearest_even_strict; [apply p10_pos |].
    rewrite (p10_split e (expo x)) by lia. fold k u. rewrite EK.
    assert (A : IZR (5 * (2 * p - w)) <= IZR (coef x) - 1).
    { rewrite <- minus_IZR. apply IZR_le. lia. }
    assert (B : IZR (coef x) + 1 <= IZR (5 * (2 * p + w))).
    { rewrite <- plus_IZR. apply IZR_le. lia. }
    unfold p in A, B. izr_in A. izr_in B. izr.
    split; nra.
Qed.

Lemma fix_sticky (x : Dec.Decimal) (q : R) (f : bool) (r : Dec.Decimal) :
  sign x = false -> (0 < coef x)%Z -> (prec ctx < ndigits (coef x))%Z ->
  (coef x mod 5 <> 0)%Z ->
  to_R x - p10 (expo x) < q < to_R x + p10 (expo x) ->
  fix_ ctx x = (f, Ok r) -> rounded ctx q (to_R r) /\ nonneg r.
Proof.
  intros Hs Hc Hlen H5 Hq H.
  destruct (fix_rounded x f r) as [Hr Hn]; [split; [unfold wf; lia | exact Hs] | exact H |].
  split; [| exact Hn]. eapply rounded_sticky; eauto.
Qed.

(** *** The operations round correctly *)

Lemma ndigits_gt (t p : Z) : (0 <= p)%Z -> (10 ^ p <= t)%Z -> (p < ndigits t)%Z.
Proof.
  intros Hp Ht. pose proof (pow10_pos p Hp).
  pose proof (ndigits_spec t ltac:(lia)) as [_ Hhi]. pose proof (ndigits_ge_1 t).
  apply pow10_lt_inv; lia.
Qed.

Lemma mul_rounded (x y : Dec.Decimal) (f : bool) (r : Dec.Decimal) :
  nonneg x -> nonneg y -> mul ctx x y = (f, Ok r) ->
  rounded ctx (to_R x * to_R y) (to_R r) /\ nonneg r.
Proof.
  intros [Hx Sx] [Hy Sy] H. unfold mul in H. rewrite Sx, Sy in H. cbn [xorb] in H.
  unfold wf in *.
  apply fix_rounded in H; [| split; [unfold wf; cbn [coef]; nia | reflexivity]].
  rewrite to_R_mkDec in H.
  replace (to_R x * to_R y) with (IZR (coef x * coef y) * p10 (expo x + expo y));
    [exact H |].
  rewrite !to_R_nonneg_form by assumption. rewrite mult_IZR, p10_add. ring.
Qed.

(** The two operands of a sum at one exponent: exactly, or with the
    smaller one replaced by a sticky unit. *)
Lemma normalize_ordered (p : Z) (tmp other : Dec.Decimal) :
  sign tmp = false -> sign other = false -> (0 < coef tmp)%Z -> (0 < coef other)%Z ->
  (expo other <= expo tmp)%Z ->
  let e := (expo tmp + Z.min (-1) (ndigits (coef tmp) - p - 2))%Z in
  let oce := if (ndigits (coef other) + expo other - 1 <? e)%Z then (1%Z, e)
             else (coef other, expo other) in
  let v := (coef tmp * 10 ^ (expo tmp - snd oce) + fst oce)%Z in
  (0 < v)%Z /\
  (IZR v * p10 (snd oce) = to_R tmp + to_R other \/
   ((p < ndigits v)%Z /\ (v mod 5 <> 0)%Z /\
    IZR v * p10 (snd oce) - p10 (snd oce) < to_R tmp + to_R other
      < IZR v * p10 (snd oce) + p10 (snd oce))).
Proof.
  intros St So Ht Ho Hexp e oce v.
  pose proof (ndigits_spec _ Ht) as [Htlo Hthi]. pose proof (ndigits_ge_1 (coef tmp)) as Ht1.
  unfold v, oce. clear v oce.
  destruct (ndigits (coef other) + expo other - 1 <? e)%Z eqn:E; cbn [fst snd].
  - apply Z.ltb_lt in E.
    set (j := (expo tmp - e)%Z).
    assert (Hj : (1 <= j /\ p + 2 - ndigits (coef tmp) <= j)%Z) by (unfold j, e; lia).
    pose proof (pow10_succ (j - 1) ltac:(lia)) as Ej.
    replace (j - 1 + 1)%Z with j in Ej by lia.
    pose proof (pow10_pos (j - 1) ltac:(lia)) as Hw.
    set (tc := (coef tmp * 10 ^ j)%Z).
    assert (Htc : (10 ^ (ndigits (coef tmp) + j - 1) <= tc /\
                   tc + 10 ^ j <= 10 ^ (ndigits (coef tmp) + j))%Z).
    { unfold tc. replace (ndigits (coef tmp) + j - 1)%Z with (ndigits (coef tmp) - 1 + j)%Z by lia.
      rewrite !Z.pow_add_r by lia. nia. }
    split; [unfold tc; nia |]. right.
    split; [| split].
    + rewrite (ndigits_unique (tc + 1) (ndigits (coef tmp) + j)); lia.
    + unfold tc. rewrite Ej.
      replace (coef tmp * (10 * 10 ^ (j - 1)) + 1)%Z
        with (1 + (coef tmp * 2 * 10 ^ (j - 1)) * 5)%Z by ring.
      rewrite Z.mod_add by lia. cbn. lia.
    + assert (Etmp : to_R tmp = IZR tc * p10 e).
      { unfold tc, j. apply to_R_at; [exact St | lia]. }
      pose proof (to_R_pos other So Ho) as Hop.
      pose proof (to_R_bounds other So Ho) as [_ Hob].
      pose proof (p10_le (ndigits (coef other) + expo other) e ltac:(lia)) as Hle.
      rewrite plus_IZR, Etmp. pose proof (p10_pos e). split; nra.
  - apply Z.ltb_ge in E.
    assert (Hp : (0 < 10 ^ (expo tmp - expo other))%Z) by (apply pow10_pos; lia).
    split; [nia |]. left.
    rewrite plus_IZR, Rmult_plus_distr_r.
    rewrite <- (to_R_at tmp (expo other)) by (try exact St; lia).
    rewrite (to_R_nonneg_form other So). reflexivity.
Qed.

Lemma normalize_sum (x y : Dec.Decimal) (c1 c2 en : Z) :
  sign x = false -> sign y = false -> (0 < coef x)%Z -> (0 < coef y)%Z ->
  normalize (prec ctx) x y = (c1, c2, en) ->
  (0 < c1 + c2)%Z /\
  (IZR (c1 + c2) * p10 en = to_R x + to_R y \/
   ((prec ctx < ndigits (c1 + c2))%Z /\ ((c1 + c2) mod 5 <> 0)%Z /\
    IZR (c1 + c2) * p10 en - p10 en < to_R x + to_R y
      < IZR (c1 + c2) * p10 en + p10 en)).
Proof.
  intros Sx Sy Hx Hy H. unfold normalize in H.
  destruct (expo x <? expo y)%Z eqn:E.
  - apply Z.ltb_lt in E.
    pose proof (normalize_ordered (prec ctx) y x Sy Sx Hy Hx ltac:(lia)) as N.
    cbv zeta in N.
    destruct (ndigits (coef x) + expo x - 1 <?
              expo y + Z.min (-1) (ndigits (coef y) - prec ctx - 2))%Z;
      cbn [fst snd] in N; inversion H; subst; clear H;
      rewrite (Z.add_comm _ (coef y * _)), (Rplus_comm (to_R x)); exact N.
  - apply Z.ltb_ge in E.
    pose proof (normalize_ordered (prec ctx) x y Sx Sy Hx Hy ltac:(lia)) as N.
    cbv zeta in N.
    destruct (ndigits (coef y) + expo y - 1 <?
              expo x + Z.min (-1) (ndigits (coef x) - prec ctx - 2))%Z;
      cbn [fst snd] in N; inversion H; subst; clear H; exact N.
Qed.

(** [fix_] of an exact or of a sticky intermediate result. *)
Lemma fix_either (v e : Z) (q : R) (f : bool) (r : Dec.Decimal) :
  (0 < v)%Z ->
  (IZR v * p10 e = q \/
   ((prec ctx < ndigits v)%Z /\ (v mod 5 <> 0)%Z /\
    IZR v * p10 e - p10 e < q < IZR v * p10 e + p10 e)) ->
  fix_ ctx (mkDec false v e) = (f, Ok r) ->
  rounded ctx q (to_R r) /\ nonneg r.
Proof.
  intros Hv [E | (Hd & H5 & Hq)] H.
  - rewrite <- E, <- to_R_mkDec.
    apply (fix_rounded (mkDec false v e) f);
      [split; [unfold wf; cbn; lia | reflexivity] | exact H].
  - apply (fix_sticky (mkDec false v e) q f); auto.
Qed.

Lemma add_rounded (x y : Dec.Decimal) (f : bool) (r : Dec.Decimal) :
  nonneg x -> wf y -> (coef y = 0%Z \/ sign y = false) ->
  add ctx x y = (f, Ok r) ->
  rounded ctx (to_R x + to_R y) (to_R r) /\ nonneg r.
Proof.
  intros [Hx Sx] Hy Sy H. unfold wf in *. unfold add in H. cbv zeta in H.
  destruct (Z.eqb_spec (coef x) 0) as [Ex | Ex];
    destruct (Z.eqb_spec (coef y) 0) as [Ey | Ey]; cbn [andb] in H.
  - rewrite Sx in H. cbn [andb] in H.
    apply fix_rounded in H; [| split; [unfold wf; cbn; lia | reflexivity]].
    rewrite (to_R_zero x Ex), (to_R_zero y Ey), Rplus_0_r.
    rewrite to_R_mkDec in H. cbn in H. rewrite Rmult_0_l in H. exact H.
  - destruct Sy as [Sy | Sy]; [contradiction |]. rewrite Sy in H.
    set (e := Z.max (Z.min (expo x) (expo y)) (expo y - prec ctx - 1)) in *.
    assert (He : (e <= expo y)%Z) by (unfold e; lia).
    assert (Hp : (0 < 10 ^ (expo y - e))%Z) by (apply pow10_pos; lia).
    apply fix_rounded in H; [| split; [unfold wf; cbn [coef]; nia | reflexivity]].
    rewrite to_R_mkDec, <- (to_R_at y e Sy He) in H.
    rewrite (to_R_zero x Ex), Rplus_0_l. exact H.
  - rewrite Sx in H.
    set (e := Z.max (Z.min (expo x) (expo y)) (expo x - prec ctx - 1)) in *.
    assert (He : (e <= expo x)%Z) by (unfold e; lia).
    assert (Hp : (0 < 10 ^ (expo x - e))%Z) by (apply pow10_pos; lia).
    apply fix_rounded in H; [| split; [unfold wf; cbn [coef]; nia | reflexivity]].
    rewrite to_R_mkDec, <- (to_R_at x e Sx He) in H.
    rewrite (to_R_zero y Ey), Rplus_0_r. exact H.
  - destruct Sy as [Sy | Sy]; [contradiction |].
    destruct (normalize (prec ctx) x y) as [[c1 c2] en] eqn:N.
    destruct (normalize_sum x y c1 c2 en Sx Sy ltac:(lia) ltac:(lia) N) as [Hv Hsum].
    rewrite Sx, Sy in H.
    destruct (c1 + c2 =? 0)%Z eqn:E0; [apply Z.eqb_eq in E0; lia |].
    replace (c1 + c2 <? 0)%Z with false in H by (symmetry; apply Z.ltb_ge; lia).
    rewrite Z.abs_eq in H by lia.
    exact (fix_either _ _ _ f r Hv Hsum H).
Qed.

(** [x - 0] *)
Lemma sub_zero_rounded (x z : Dec.Decimal) (f : bool) (r : Dec.Decimal) :
  nonneg x -> coef z = 0%Z -> sub ctx x z = (f, Ok r) ->
  rounded ctx (to_R x) (to_R r) /\ nonneg r.
Proof.
  intros Hx Hz H. unfold sub in H.
  apply add_rounded in H; [| exact Hx | unfold wf; cbn; lia | left; exact Hz].
  rewrite (to_R_zero (copy_negate z)), Rplus_0_r in H by exact Hz. exact H.
Qed.

Lemma strip_zeros_value (fuel : nat) (q e ideal q' e' : Z) :
  strip_zeros fuel q e ideal = (q', e') -> (0 <= q)%Z ->
  (0 <= q')%Z /\ IZR q' * p10 e' = IZR q * p10 e.
Proof.
  revert q e. induction fuel as [| fuel IH]; intros q e H Hq; cbn [strip_zeros] in H.
  - inversion H; subst. split; [exact Hq | reflexivity].
  - destruct ((e <? ideal)%Z && (q mod 10 =? 0)%Z) eqn:E.
    + apply andb_prop in E. destruct E as [_ E]. apply Z.eqb_eq in E.
      apply IH in H; [| apply Z.div_pos; lia].
      destruct H as [H1 H2]. split; [exact H1 |]. rewrite H2, p10_succ.
      pose proof (Z.div_mod q 10 ltac:(lia)) as Hdm. rewrite E, Z.add_0_r in Hdm.
      rewrite Hdm at 2. rewrite mult_IZR. ring.
    + inversion H; subst. split; [exact Hq | reflexivity].
Qed.

Lemma div_rounded (x y : Dec.Decimal) (f : bool) (r : Dec.Decimal) :
  nonneg x -> nonneg y -> div ctx x y = (f, Ok r) ->
  (0 < coef y)%Z /\ rounded ctx (to_R x / to_R y) (to_R r) /\ nonneg r.
Proof.
  intros [Hx Sx] [Hy Sy] H. unfold wf in *. unfold div in H. cbv zeta in H.
  rewrite Sx, Sy in H. cbn [xorb] in H.
  destruct (coef y =? 0)%Z eqn:Ey.
  { destruct (coef x =? 0)%Z; discriminate. }
  apply Z.eqb_neq in Ey. assert (Hcy : (0 < coef y)%Z) by lia. split; [exact Hcy |].
  pose proof (to_R_pos y Sy Hcy) as Hyp.
  destruct (coef x =? 0)%Z eqn:Ex.
  { apply Z.eqb_eq in Ex.
    apply fix_rounded in H; [| split; [unfold wf; cbn; lia | reflexivity]].
    rewrite to_R_mkDec in H. cbn in H. rewrite Rmult_0_l in H.
    rewrite (to_R_zero x Ex). unfold Rdiv. rewrite Rmult_0_l. exact H. }
  apply Z.eqb_neq in Ex. assert (Hcx : (0 < coef x)%Z) by lia.
  pose proof (ndigits_spec _ Hcx) as [Hxlo Hxhi]. pose proof (ndigits_ge_1 (coef x)) as Hx1.
  pose proof (ndigits_spec _ Hcy) as [Hylo Hyhi]. pose proof (ndigits_ge_1 (coef y)) as Hy1.
  set (lx := ndigits (coef x)) in *. set (ly := ndigits (coef y)) in *.
  set (shift := (ly - lx + prec ctx + 1)%Z) in *.
  set (e := (expo x - expo y - shift)%Z) in *.
  set (nm := if (0 <=? shift)%Z then ((coef x * 10 ^ shift)%Z, coef y)
             else (coef x, (coef y * 10 ^ (- shift))%Z)) in *.
  assert (Hnm : (0 < snd nm)%Z /\ (10 ^ prec ctx * snd nm <= fst nm)%Z /\
                to_R x / to_R y = IZR (fst nm) / IZR (snd nm) * p10 e).
  { pose proof (p10_pos (expo x)) as Hux. pose proof (p10_pos (expo y)) as Huy.
    assert (Hcyr : 0 < IZR (coef y)) by (apply IZR_lt; exact Hcy).
    unfold nm. destruct (0 <=? shift)%Z eqn:Es; cbn [fst snd].
    - apply Z.leb_le in Es. split; [exact Hcy |]. split.
      + assert (10 ^ (ly + prec ctx) = 10 ^ (lx - 1) * 10 ^ shift)%Z
          by (rewrite <- Z.pow_add_r by lia; f_equal; unfold shift; lia).
        assert (10 ^ (ly + prec ctx) = 10 ^ prec ctx * 10 ^ ly)%Z
          by (rewrite <- Z.pow_add_r by lia; f_equal; lia).
        pose proof (pow10_pos shift Es). pose proof (pow10_pos (prec ctx) ltac:(lia)). nia.
      + rewrite !to_R_nonneg_form by assumption.
        replace (expo x) with (shift + expo y + e)%Z at 1 by (unfold e; lia).
        rewrite !p10_add, mult_IZR, <- p10_IZR by exact Es.
        pose proof (p10_pos e). pose proof (p10_pos shift). field. split; lra.
    - apply Z.leb_gt in Es.
      pose proof (pow10_pos (- shift) ltac:(lia)) as Hps. split; [nia |]. split.
      + assert (10 ^ (lx - 1) = 10 ^ prec ctx * 10 ^ (- shift) * 10 ^ ly)%Z
          by (rewrite <- !Z.pow_add_r by lia; f_equal; unfold shift; lia).
        pose proof (pow10_pos (prec ctx) ltac:(lia)). nia.
      + rewrite !to_R_nonneg_form by assumption.
        replace (expo x) with (expo y + e + - (- shift))%Z at 1 by (unfold e; lia).
        rewrite !p10_add, mult_IZR, <- (p10_IZR (- shift)) by lia.
        replace (p10 (- - shift)) with (/ p10 (- shift)).
        * pose proof (p10_pos e). pose proof (p10_pos (- shift)). field. repeat split; lra.
        * pose proof (p10_add (- shift) (- - shift)) as A.
          replace (- shift + - - shift)%Z with 0%Z in A by lia. rewrite p10_0 in A.
          pose proof (p10_pos (- shift)). pose proof (p10_pos (- - shift)).
          apply Rmult_eq_reg_l with (p10 (- shift)); [| lra].
          rewrite <- A. field. lra. }
  destruct nm as [n m]. cbn [fst snd] in Hnm. destruct Hnm as (Hm & Hn & Eq).
  pose proof (Z.div_mod n m ltac:(lia)) as Hdm.
  pose proof (Z.mod_pos_bound n m Hm) as Hrm.
  pose proof (pow10_pos (prec ctx) ltac:(lia)) as Hpp.
  assert (Hq : (10 ^ prec ctx <= n / m)%Z) by (apply Z.div_le_lower_bound; lia).
  set (q := (n / m)%Z) in *. set (rm := (n mod m)%Z) in *.
  assert (Hmr : 0 < IZR m) by (apply IZR_lt; exact Hm).
  assert (Enm : IZR n / IZR m = IZR q + IZR rm / IZR m).
  { rewrite Hdm. izr. field. lra. }
  rewrite Eq, Enm.
  destruct (rm =? 0)%Z eqn:Er.
  - apply Z.eqb_eq in Er. rewrite Er. unfold Rdiv at 1. rewrite Rmult_0_l, Rplus_0_r.
    destruct (strip_zeros (Z.to_nat (expo x - expo y - e)) q e (expo x - expo y))
      as [q' e'] eqn:Est.
    apply strip_zeros_value in Est; [| lia]. destruct Est as [Hq' Ev].
    apply fix_rounded in H; [| split; [exact Hq' | reflexivity]].
    rewrite to_R_mkDec, Ev in H. exact H.
  - apply Z.eqb_neq in Er.
    assert (Hfrac : 0 < IZR rm / IZR m < 1).
    { assert (0 < IZR rm) by (apply IZR_lt; lia).
      assert (IZR rm < IZR m) by (apply IZR_lt; lia).
      split; [apply Rdiv_lt_0_compat; lra |].
      apply (Rmult_lt_reg_r (IZR m)); [exact Hmr |].
      replace (IZR rm / IZR m * IZR m) with (IZR rm) by (field; lra). lra. }
    pose proof (p10_pos e) as Hg.
    destruct (q mod 5 =? 0)%Z eqn:E5.
    + apply Z.eqb_eq in E5.
      apply (fix_either (q + 1) e _ f r); [lia | | exact H]. right.
      split; [apply ndigits_gt; lia |]. split; [rewrite Z.add_mod, E5 by lia; cbn; lia |].
      rewrite plus_IZR. split; nra.
    + apply Z.eqb_neq in E5.
      apply (fix_either q e _ f r); [lia | | exact H]. right.
      split; [apply ndigits_gt; lia |]. split; [exact E5 |].
      split; nra.
Qed.

(** A square divisible by [100^s] is the square of a multiple of
    [10^s]. *)
Lemma sq_divisible (s : nat) (n c : Z) :
  (0 <= n)%Z -> (n * n = c * 100 ^ Z.of_nat s)%Z ->
  (n = n / 10 ^ Z.of_nat s * 10 ^ Z.of_nat s)%Z.
Proof.
  revert n c. induction s as [| s IH]; intros n c Hn H.
  - cbn. rewrite Z.div_1_r. lia.
  - rewrite Nat2Z.inj_succ, Z.pow_succ_r in H by lia.
    rewrite Nat2Z.inj_succ, Z.pow_succ_r by lia.
    pose proof (Z.div_mod n 10 ltac:(lia)) as Hdm.
    pose proof (Z.mod_pos_bound n 10 ltac:(lia)) as Hb.
    set (a := (n / 10)%Z) in *. set (b := (n mod 10)%Z) in *.
    set (C := (c * 100 ^ Z.of_nat s)%Z) in *.
    assert (Hsq : (100 * (a * a) + 20 * a * b + b * b = 100 * C)%Z).
    { transitivity (n * n)%Z; [rewrite Hdm; ring | rewrite H; unfold C; ring]. }
    assert (Hb0 : b = 0%Z).
    { generalize dependent (a * a)%Z. intros A HA.
      assert (Hcases : (b = 0 \/ b = 1 \/ b = 2 \/ b = 3 \/ b = 4 \/ b = 5 \/ b = 6 \/
                        b = 7 \/ b = 8 \/ b = 9)%Z) by lia.
      destruct Hcases as [E | [E | [E | [E | [E | [E | [E | [E | [E | E]]]]]]]]];
        rewrite E in HA; lia. }
    rewrite Hb0, Z.add_0_r in Hdm.
    assert (Ha : (a * a = c * 100 ^ Z.of_nat s)%Z).
    { rewrite Hb0 in Hsq. unfold C in Hsq. lia. }
    assert (Ha0 : (0 <= a)%Z) by lia.
    specialize (IH a c Ha0 Ha).
    pose proof (pow10_pos (Z.of_nat s) ltac:(lia)) as Hp.
    assert (Ed : (n / (10 * 10 ^ Z.of_nat s) = a / 10 ^ Z.of_nat s)%Z).
    { rewrite <- Z.div_div by lia. reflexivity. }
    rewrite Ed. rewrite Hdm at 1. rewrite IH at 1. ring.
Qed.

Lemma p10_double (e : Z) : p10 (2 * e) = p10 e * p10 e.
Proof. replace (2 * e)%Z with (e + e)%Z by lia. apply p10_add. Qed.

Lemma sqrt_between (V a b : R) :
  0 <= a -> 0 <= b -> a * a < V < b * b -> a < R_sqrt.sqrt V < b.
Proof.
  intros Ha Hb [H1 H2].
  assert (0 <= a * a) by nra.
  split.
  - rewrite <- (sqrt_square a Ha). apply sqrt_lt_1_alt. lra.
  - rewrite <- (sqrt_square b Hb). apply sqrt_lt_1_alt. lra.
Qed.

(** The body of [sqrt] once the coefficient is written in base 100. *)
Lemma sqrt_core (c1 l e0 : Z) (f : bool) (r : Dec.Decimal) :
  (0 < c1)%Z -> (1 <= l)%Z -> (10 ^ (2 * l - 2) <= c1)%Z ->
  (let shift := (prec ctx + 1 - l)%Z in
   let '(c, exact) := if (0 <=? shift)%Z then ((c1 * 100 ^ shift)%Z, true)
                      else ((c1 / 100 ^ (- shift))%Z, (c1 mod 100 ^ (- shift) =? 0)%Z) in
   let e := (e0 - shift)%Z in
   let n := Z.sqrt c in
   let exact := exact && (n * n =? c)%Z in
   let '(n, e) :=
     if exact then
       (if (0 <=? shift)%Z then (n / 10 ^ shift)%Z else (n * 10 ^ (- shift))%Z, (e + shift)%Z)
     else (if (n mod 5 =? 0)%Z then (n + 1)%Z else n, e) in
   fix_ ctx (mkDec false n e)) = (f, Ok r) ->
  rounded ctx (R_sqrt.sqrt (IZR c1 * p10 (2 * e0))) (to_R r) /\ nonneg r.
Proof.
  intros Hc1 Hl Hlo H. cbv zeta in H.
  set (shift := (prec ctx + 1 - l)%Z) in *.
  set (e2 := (e0 - shift)%Z) in *.
  set (V := IZR c1 * p10 (2 * e0)).
  pose proof (p10_pos e2) as Hg. set (g := p10 e2) in *.
  set (ce := if (0 <=? shift)%Z then ((c1 * 100 ^ shift)%Z, true)
             else ((c1 / 100 ^ (- shift))%Z, (c1 mod 100 ^ (- shift) =? 0)%Z)) in *.
  assert (Hce : (10 ^ (2 * prec ctx) <= fst ce)%Z /\
                exists dl, 0 <= dl < 1 /\ V = (IZR (fst ce) + dl) * (g * g) /\
                           (snd ce = true -> dl = 0) /\ (snd ce = false -> 0 < dl) /\
                           ((0 <= shift)%Z -> fst ce = (c1 * 100 ^ shift)%Z)).
  { unfold ce. destruct (0 <=? shift)%Z eqn:Es; cbn [fst snd].
    - apply Z.leb_le in Es. rewrite pow100 by exact Es.
      pose proof (pow10_pos (2 * shift) ltac:(lia)) as Hp.
      split.
      + replace (2 * prec ctx)%Z with ((2 * l - 2) + 2 * shift)%Z by (unfold shift; lia).
        rewrite Z.pow_add_r by lia. nia.
      + exists 0. split; [lra |]. split; [| split; [reflexivity | split; [discriminate | reflexivity]]].
        unfold V, g. rewrite Rplus_0_r, mult_IZR, <- p10_IZR, <- p10_double by lia.
        rewrite Rmult_assoc, <- p10_add. do 2 f_equal. unfold e2. lia.
    - apply Z.leb_gt in Es. rewrite pow100 by lia.
      pose proof (pow10_pos (2 * - shift) ltac:(lia)) as Hp.
      set (Hh := (10 ^ (2 * - shift))%Z) in *.
      pose proof (Z.div_mod c1 Hh ltac:(lia)) as Hdm.
      pose proof (Z.mod_pos_bound c1 Hh Hp) as Hb.
      split.
      + apply Z.div_le_lower_bound; [lia |]. unfold Hh.
        rewrite <- Z.pow_add_r by lia.
        replace (2 * - shift + 2 * prec ctx)%Z with (2 * l - 2)%Z by (unfold shift; lia).
        exact Hlo.
      + assert (HhR : 0 < IZR Hh) by (apply IZR_lt; exact Hp).
        exists (IZR (c1 mod Hh) / IZR Hh).
        assert (Hr0 : 0 <= IZR (c1 mod Hh)) by (apply IZR_le; lia).
        assert (Hr1 : IZR (c1 mod Hh) < IZR Hh) by (apply IZR_lt; lia).
        split; [| split; [| split]].
        * split; [apply Rmult_le_pos; [lra | left; apply Rinv_0_lt_compat; lra] |].
          apply (Rmult_lt_reg_r (IZR Hh)); [exact HhR |].
          replace (IZR (c1 mod Hh) / IZR Hh * IZR Hh) with (IZR (c1 mod Hh)) by (field; lra).
          lra.
        * unfold V, g. rewrite <- p10_double.
          replace (2 * e2)%Z with (2 * e0 + 2 * - shift)%Z by (unfold e2; lia).
          rewrite p10_add, (p10_IZR (2 * - shift)) by lia. fold Hh.
          rewrite Hdm at 1. izr. field. lra.
        * intros E. apply Z.eqb_eq in E. rewrite E. unfold Rdiv. apply Rmult_0_l.
        * split; [| lia]. intros E. apply Z.eqb_neq in E.
          apply Rdiv_lt_0_compat; [| exact HhR].
          apply IZR_lt. lia. }
  destruct ce as [c2 exact0]. cbn [fst snd] in Hce.
  destruct Hce as (Hc2 & dl & Hdl & EV & Hex1 & Hex0 & Hc2s).
  pose proof (pow10_pos (2 * prec ctx) ltac:(lia)) as Hpp.
  pose proof (Z.sqrt_spec c2 ltac:(lia)) as Hn. cbv zeta in Hn.
  assert (Hn0 : (10 ^ prec ctx <= Z.sqrt c2)%Z).
  { rewrite <- (Z.sqrt_square (10 ^ prec ctx)) by (apply Z.pow_nonneg; lia).
    apply Z.sqrt_le_mono. rewrite <- Z.pow_add_r by lia.
    replace (prec ctx + prec ctx)%Z with (2 * prec ctx)%Z by lia. exact Hc2. }
  pose proof (pow10_pos (prec ctx) ltac:(lia)) as Hp1.
  set (n := Z.sqrt c2) in *.
  assert (HnR : 0 < IZR n) by (apply IZR_lt; lia).
  destruct Hn as [Hn1 Hn2].
  destruct (exact0 && (n * n =? c2)%Z) eqn:Eex.
  - apply andb_prop in Eex. destruct Eex as [E1 E2]. apply Z.eqb_eq in E2.
    rewrite (Hex1 E1), Rplus_0_r, <- E2, mult_IZR in EV.
    assert (Es : R_sqrt.sqrt V = IZR n * g).
    { replace V with ((IZR n * g) * (IZR n * g)) by (rewrite EV; ring).
      apply sqrt_square. nra. }
    rewrite Es.
    assert (Hval : forall q', (0 <= q')%Z -> IZR q' * p10 (e2 + shift) = IZR n * g ->
              fix_ ctx (mkDec false q' (e2 + shift)) = (f, Ok r) ->
              rounded ctx (IZR n * g) (to_R r) /\ nonneg r).
    { intros q' Hq' Ev Hf. rewrite <- Ev, <- to_R_mkDec.
      apply (fix_rounded _ f); [split; [exact Hq' | reflexivity] | exact Hf]. }
    destruct (0 <=? shift)%Z eqn:Es0.
    + apply Z.leb_le in Es0.
      pose proof (pow10_pos shift Es0) as Hps.
      apply Hval in H; [exact H | apply Z.div_pos; lia |].
      assert (Ed : n = (n / 10 ^ shift * 10 ^ shift)%Z).
      { pose proof (sq_divisible (Z.to_nat shift) n c1 ltac:(lia)) as Hd.
        rewrite Z2Nat.id in Hd by exact Es0. apply Hd.
        rewrite E2. apply Hc2s. exact Es0. }
      rewrite Ed at 2. rewrite mult_IZR, p10_add, (p10_IZR shift) by exact Es0.
      fold g. ring.
    + apply Z.leb_gt in Es0.
      pose proof (pow10_pos (- shift) ltac:(lia)) as Hps.
      apply Hval in H; [exact H | nia |].
      rewrite mult_IZR, <- p10_IZR, Rmult_assoc, <- p10_add by lia.
      replace (- shift + (e2 + shift))%Z with e2 by lia. reflexivity.
  - assert (Hin : IZR n * IZR n < IZR c2 + dl < (IZR n + 1) * (IZR n + 1)).
    { assert (A : IZR (n * n) <= IZR c2) by (apply IZR_le; exact Hn1).
      assert (B : IZR c2 + 1 <= IZR ((n + 1) * (n + 1))).
      { rewrite <- (plus_IZR c2 1). apply IZR_le.
        change (Z.succ n) with (n + 1)%Z in Hn2. lia. }
      izr_in A. izr_in B. split; [| lra].
      apply andb_false_iff in Eex. destruct Eex as [E | E].
      - specialize (Hex0 E). lra.
      - apply Z.eqb_neq in E.
        assert (A' : IZR (n * n) + 1 <= IZR c2).
        { rewrite <- (plus_IZR _ 1). apply IZR_le. lia. }
        izr_in A'. lra. }
    assert (Hs : IZR n * g < R_sqrt.sqrt V < (IZR n + 1) * g).
    { apply sqrt_between; [nra | nra |]. rewrite EV.
      assert (0 < g * g) by nra. split; nra. }
    destruct (n mod 5 =? 0)%Z eqn:E5.
    + apply Z.eqb_eq in E5.
      apply (fix_either (n + 1) e2 _ f r); [lia | | exact H]. right.
      split; [apply ndigits_gt; lia |]. split; [rewrite Z.add_mod, E5 by lia; cbn; lia |].
      rewrite plus_IZR. fold g. split; nra.
    + apply Z.eqb_neq in E5.
      apply (fix_either n e2 _ f r); [lia | | exact H]. right.
      split; [apply ndigits_gt; lia |]. split; [exact E5 |].
      fold g. split; nra.
Qed.

Lemma sqrt_rounded (x : Dec.Decimal) (f : bool) (r : Dec.Decimal) :
  nonneg x -> Dec.sqrt ctx x = (f, Ok r) ->
  rounded ctx (R_sqrt.sqrt (to_R x)) (to_R r) /\ nonneg r.
Proof.
  intros [Hx Sx] H. unfold wf in Hx. unfold Dec.sqrt in H.
  destruct (Z.eqb_spec (coef x) 0) as [Ex | Ex].
  { rewrite Sx in H.
    apply fix_rounded in H; [| split; [unfold wf; cbn; lia | reflexivity]].
    rewrite to_R_mkDec in H. cbn in H. rewrite Rmult_0_l in H.
    rewrite (to_R_zero x Ex), sqrt_0. exact H. }
  rewrite Sx in H. assert (Hc : (0 < coef x)%Z) by lia.
  pose proof (ndigits_spec _ Hc) as [Hlo Hhi]. pose proof (ndigits_ge_1 (coef x)) as H1.
  set (len := ndigits (coef x)) in *.
  rewrite (to_R_nonneg_form x Sx).
  pose proof (Z.div_mod len 2 ltac:(lia)) as Hl2.
  pose proof (Z.mod_pos_bound len 2 ltac:(lia)) as Hl2b.
  pose proof (Z.div_mod (len + 1) 2 ltac:(lia)) as Hl3.
  pose proof (Z.mod_pos_bound (len + 1) 2 ltac:(lia)) as Hl3b.
  pose proof (Z.div2_odd (expo x)) as Hodd. rewrite Z.div2_div in Hodd.
  destruct (Z.odd (expo x)) eqn:Eo; cbn [Z.b2z] in Hodd.
  - replace (IZR (coef x) * p10 (expo x))
      with (IZR (coef x * 10) * p10 (2 * (expo x / 2))).
    + apply (sqrt_core (coef x * 10) (len / 2 + 1) (expo x / 2) f r); [lia | lia | | exact H].
      assert (10 ^ (2 * (len / 2 + 1) - 2) <= 10 ^ len)%Z by (apply Z.pow_le_mono_r; lia).
      pose proof (pow10_succ (len - 1) ltac:(lia)) as E.
      replace (len - 1 + 1)%Z with len in E by lia. lia.
    + rewrite Hodd at 2. rewrite p10_add, p10_1, mult_IZR. ring.
  - replace (p10 (expo x)) with (p10 (2 * (expo x / 2))) by (f_equal; lia).
    apply (sqrt_core (coef x) ((len + 1) / 2) (expo x / 2) f r); [lia | lia | | exact H].
    assert (10 ^ (2 * ((len + 1) / 2) - 2) <= 10 ^ (len - 1))%Z
      by (apply Z.pow_le_mono_r; lia).
    lia.
Qed.

End Rounding.

(** *** Two runs side by side *)

Lemma post2_ret {A} (R : A -> A -> Prop) (a1 a2 : A) :
  R a1 a2 -> post2 R (ret a1) (ret a2).
Proof. intros H f1 b1 f2 b2 E1 E2. inversion E1; inversion E2; subst. exact H. Qed.

Lemma post2_bind {A B} (R : A -> A -> Prop) (S : B -> B -> Prop)
    (m1 m2 : M A) (k1 k2 : A -> M B) :
  post2 R m1 m2 -> (forall a1 a2, R a1 a2 -> post2 S (k1 a1) (k2 a2)) ->
  post2 S (bind m1 k1) (bind m2 k2).
Proof.
  intros Hm Hk f1 b1 f2 b2 E1 E2.
  apply bind_Ok_inv in E1. destruct E1 as (g1 & a1 & g1' & Em1 & Ek1 & _).
  apply bind_Ok_inv in E2. destruct E2 as (g2 & a2 & g2' & Em2 & Ek2 & _).
  exact (Hk a1 a2 (Hm _ _ _ _ Em1 Em2) _ _ _ _ Ek1 Ek2).
Qed.

(** The same computation in both runs. *)
Lemma post2_same {A} (P : A -> Prop) (m : M A) :
  post P m -> post2 (fun a1 a2 => a1 = a2 /\ P a1) m m.
Proof.
  intros H f1 a1 f2 a2 E1 E2. pose proof (H _ _ E1) as HP.
  rewrite E1 in E2. inversion E2; subst. split; [reflexivity | exact HP].
Qed.

Lemma post2_any {A} (m1 m2 : M A) : post2 (fun _ _ => True) m1 m2.
Proof. intros f1 a1 f2 a2 _ _. exact I. Qed.

Lemma post2_diag {A} (R : A -> A -> Prop) (m : M A) :
  post2 R m m -> post (fun a => R a a) m.
Proof. intros H f a E. exact (H _ _ _ _ E E). Qed.

Lemma post2_lift2 {D} (P Q R : D -> D -> Prop) (op : D -> D -> M D) (x1 x2 y1 y2 : M D) :
  post2 P x1 x2 -> post2 Q y1 y2 ->
  (forall a1 a2 b1 b2, P a1 a2 -> Q b1 b2 -> post2 R (op a1 b1) (op a2 b2)) ->
  post2 R (lift2 op x1 y1) (lift2 op x2 y2).
Proof.
  intros Hx Hy Hop. unfold lift2.
  eapply post2_bind; [exact Hx |]. intros a1 a2 Ha.
  eapply post2_bind; [exact Hy |]. intros b1 b2 Hb. auto.
Qed.

Lemma post2_lift1 {D} (P R : D -> D -> Prop) (op : D -> M D) (x1 x2 : M D) :
  post2 P x1 x2 -> (forall a1 a2, P a1 a2 -> post2 R (op a1) (op a2)) ->
  post2 R (lift1 op x1) (lift1 op x2).
Proof. intros Hx Hop. unfold lift1. eapply post2_bind; eauto. Qed.

Lemma ordered_refl (x : Dec.Decimal) : nonneg x -> ordered Same x x.
Proof. intros H. repeat split; try apply H. Qed.

Section Monotone.

Variable ctx : context.
Hypothesis Hprec : (1 <= prec ctx)%Z.

Lemma rounded_compare (d : direction) (q1 q2 r1 r2 : R) :
  0 <= q1 -> 0 <= q2 -> compare_as d q1 q2 ->
  rounded ctx q1 r1 -> rounded ctx q2 r2 -> compare_as d r1 r2.
Proof.
  intros H1 H2 Hc R1 R2. destruct d; cbn [compare_as] in *.
  - subst q2. exact (rounded_unique ctx Hprec q1 r1 r2 H1 R1 R2).
  - exact (rounded_mono ctx Hprec q1 q2 r1 r2 H1 Hc R1 R2).
  - exact (rounded_mono ctx Hprec q2 q1 r2 r1 H2 Hc R2 R1).
Qed.

Lemma mul_ordered (d : direction) (a1 a2 b1 b2 : Dec.Decimal) :
  nonneg a1 -> nonneg a2 -> nonneg b1 -> nonneg b2 ->
  compare_as d (to_R a1 * to_R b1) (to_R a2 * to_R b2) ->
  post2 (ordered d) (mul ctx a1 b1) (mul ctx a2 b2).
Proof.
  intros Ha1 Ha2 Hb1 Hb2 Hc f1 r1 f2 r2 E1 E2.
  destruct (mul_rounded ctx Hprec _ _ _ _ Ha1 Hb1 E1) as [R1 N1].
  destruct (mul_rounded ctx Hprec _ _ _ _ Ha2 Hb2 E2) as [R2 N2].
  split; [exact N1 |]. split; [exact N2 |].
  pose proof (to_R_nonneg _ Ha1). pose proof (to_R_nonneg _ Ha2).
  pose proof (to_R_nonneg _ Hb1). pose proof (to_R_nonneg _ Hb2).
  apply (rounded_compare d (to_R a1 * to_R b1) (to_R a2 * to_R b2));
    [nra | nra | exact Hc | exact R1 | exact R2].
Qed.

Lemma add_ordered (d : direction) (a1 a2 b1 b2 : Dec.Decimal) :
  nonneg a1 -> nonneg a2 -> nonneg b1 -> nonneg b2 ->
  compare_as d (to_R a1 + to_R b1) (to_R a2 + to_R b2) ->
  post2 (ordered d) (add ctx a1 b1) (add ctx a2 b2).
Proof.
  intros Ha1 Ha2 Hb1 Hb2 Hc f1 r1 f2 r2 E1 E2.
  destruct (add_rounded ctx Hprec _ _ _ _ Ha1 (proj1 Hb1) (or_intror (proj2 Hb1)) E1)
    as [R1 N1].
  destruct (add_rounded ctx Hprec _ _ _ _ Ha2 (proj1 Hb2) (or_intror (proj2 Hb2)) E2)
    as [R2 N2].
  split; [exact N1 |]. split; [exact N2 |].
  pose proof (to_R_nonneg _ Ha1). pose proof (to_R_nonneg _ Ha2).
  pose proof (to_R_nonneg _ Hb1). pose proof (to_R_nonneg _ Hb2).
  apply (rounded_compare d (to_R a1 + to_R b1) (to_R a2 + to_R b2));
    [lra | lra | exact Hc | exact R1 | exact R2].
Qed.

Lemma sub_zero_ordered (d : direction) (a1 a2 z : Dec.Decimal) :
  ordered d a1 a2 -> coef z = 0%Z -> post2 (ordered d) (sub ctx a1 z) (sub ctx a2 z).
Proof.
  intros (Ha1 & Ha2 & Hc) Hz f1 r1 f2 r2 E1 E2.
  destruct (sub_zero_rounded ctx Hprec _ _ _ _ Ha1 Hz E1) as [R1 N1].
  destruct (sub_zero_rounded ctx Hprec _ _ _ _ Ha2 Hz E2) as [R2 N2].
  split; [exact N1 |]. split; [exact N2 |].
  apply (rounded_compare d (to_R a1) (to_R a2));
    [apply to_R_nonneg; exact Ha1 | apply to_R_nonneg; exact Ha2 | exact Hc
    | exact R1 | exact R2].
Qed.

Lemma div_ordered (d : direction) (a1 a2 b1 b2 : Dec.Decimal) :
  nonneg a1 -> nonneg a2 -> nonneg b1 -> nonneg b2 ->
  (0 < to_R b1 -> 0 < to_R b2 -> compare_as d (to_R a1 / to_R b1) (to_R a2 / to_R b2)) ->
  post2 (ordered d) (div ctx a1 b1) (div ctx a2 b2).
Proof.
  intros Ha1 Ha2 Hb1 Hb2 Hc f1 r1 f2 r2 E1 E2.
  destruct (div_rounded ctx Hprec _ _ _ _ Ha1 Hb1 E1) as (P1 & R1 & N1).
  destruct (div_rounded ctx Hprec _ _ _ _ Ha2 Hb2 E2) as (P2 & R2 & N2).
  split; [exact N1 |]. split; [exact N2 |].
  pose proof (to_R_nonneg _ Ha1). pose proof (to_R_nonneg _ Ha2).
  pose proof (to_R_pos _ (proj2 Hb1) P1) as Hp1. pose proof (to_R_pos _ (proj2 Hb2) P2) as Hp2.
  apply (rounded_compare d (to_R a1 / to_R b1) (to_R a2 / to_R b2));
    [| | exact (Hc Hp1 Hp2) | exact R1 | exact R2].
  - apply Rmult_le_pos; [assumption | left; apply Rinv_0_lt_compat; exact Hp1].
  - apply Rmult_le_pos; [assumption | left; apply Rinv_0_lt_compat; exact Hp2].
Qed.

Lemma sqrt_ordered (d : direction) (a1 a2 : Dec.Decimal) :
  ordered d a1 a2 -> post2 (ordered d) (Dec.sqrt ctx a1) (Dec.sqrt ctx a2).
Proof.
  intros (Ha1 & Ha2 & Hc) f1 r1 f2 r2 E1 E2.
  destruct (sqrt_rounded ctx Hprec _ _ _ Ha1 E1) as [R1 N1].
  destruct (sqrt_rounded ctx Hprec _ _ _ Ha2 E2) as [R2 N2].
  split; [exact N1 |]. split; [exact N2 |].
  pose proof (to_R_nonneg _ Ha1). pose proof (to_R_nonneg _ Ha2).
  apply (rounded_compare d (R_sqrt.sqrt (to_R a1)) (R_sqrt.sqrt (to_R a2)));
    [apply sqrt_pos | apply sqrt_pos | | exact R1 | exact R2].
  destruct d; cbn [compare_as] in *.
  - rewrite Hc. reflexivity.
  - apply sqrt_le_1_alt. exact Hc.
  - apply sqrt_le_1_alt. exact Hc.
Qed.

End Monotone.

Lemma pow2_ordered (ctx : context) (d : direction) (a1 a2 : Dec.Decimal) :
  (1 <= prec ctx)%Z ->
  ordered d a1 a2 -> post2 (ordered d) (pow ctx a1 2) (pow ctx a2 2).
Proof.
  intros Hprec (Ha1 & Ha2 & Hc).
  pose proof (to_R_nonneg _ Ha1) as H1. pose proof (to_R_nonneg _ Ha2) as H2.
  set (wctx := set_prec ctx (prec ctx + (ndigits 2 + 2))).
  assert (Hw : (1 <= prec wctx)%Z) by (cbn; lia).
  assert (Hsq : compare_as d (to_R a1 * to_R a1) (to_R a2 * to_R a2)).
  { destruct d; cbn [compare_as] in *; [rewrite Hc; reflexivity | nra | nra]. }
  assert (Hmul : post2 (ordered d) (mul wctx a1 a1) (mul wctx a2 a2))
    by (apply mul_ordered; assumption).
  assert (Hfix : forall y1 y2, ordered d y1 y2 -> post2 (ordered d) (fix_ ctx y1) (fix_ ctx y2)).
  { intros y1 y2 (Hy1 & Hy2 & Hy) f1 r1 f2 r2 E1 E2.
    destruct (fix_rounded ctx Hprec _ _ _ Hy1 E1) as [R1 N1].
    destruct (fix_rounded ctx Hprec _ _ _ Hy2 E2) as [R2 N2].
    split; [exact N1 |]. split; [exact N2 |].
    apply (rounded_compare ctx Hprec d (to_R y1) (to_R y2));
      [apply to_R_nonneg; exact Hy1 | apply to_R_nonneg; exact Hy2 | exact Hy
      | exact R1 | exact R2]. }
  intros f1 r1 f2 r2 E1 E2. unfold pow in E1, E2.
  destruct (Z.eqb_spec (coef a1) 0) as [Z1 | Z1]; destruct (Z.eqb_spec (coef a2) 0) as [Z2 | Z2].
  - inversion E1; inversion E2; subst.
    rewrite (proj2 Ha1), (proj2 Ha2). cbn [andb].
    repeat split; try (unfold wf; cbn; lia).
    rewrite !to_R_mkDec. cbn. destruct d; cbn; lra.
  - inversion E1; subst. rewrite (proj2 Ha1). cbn [andb].
    cbv zeta in E2. cbn [pow_uint] in E2. rewrite bind_ret_l in E2.
    apply bind_Ok_inv in E2. destruct E2 as (g & y & g' & Em & Ef & _).
    destruct (mul_rounded wctx Hw _ _ _ _ Ha2 Ha2 Em) as [Rm Nm].
    destruct (fix_rounded ctx Hprec _ _ _ Nm Ef) as [Rf Nf].
    split; [split; [unfold wf; cbn; lia | reflexivity] |]. split; [exact Nf |].
    rewrite (to_R_zero a1 Z1) in Hc, Hsq. rewrite to_R_mkDec. cbn [IZR]. rewrite Rmult_0_l.
    pose proof (to_R_nonneg _ Nf) as Hr.
    destruct d; cbn [compare_as] in *.
    + assert (E : to_R a2 * to_R a2 = 0) by nra. rewrite E in Rm.
      apply rounded_zero in Rm. rewrite Rm in Rf. apply rounded_zero in Rf. lra.
    + exact Hr.
    + assert (E : to_R a2 * to_R a2 = 0) by nra. rewrite E in Rm.
      apply rounded_zero in Rm. rewrite Rm in Rf. apply rounded_zero in Rf. lra.
  - inversion E2; subst. rewrite (proj2 Ha2). cbn [andb].
    cbv zeta in E1. cbn [pow_uint] in E1. rewrite bind_ret_l in E1.
    apply bind_Ok_inv in E1. destruct E1 as (g & y & g' & Em & Ef & _).
    destruct (mul_rounded wctx Hw _ _ _ _ Ha1 Ha1 Em) as [Rm Nm].
    destruct (fix_rounded ctx Hprec _ _ _ Nm Ef) as [Rf Nf].
    split; [exact Nf |]. split; [split; [unfold wf; cbn; lia | reflexivity] |].
    rewrite (to_R_zero a2 Z2) in Hc, Hsq. rewrite to_R_mkDec. cbn [IZR]. rewrite Rmult_0_l.
    pose proof (to_R_nonneg _ Nf) as Hr.
    destruct d; cbn [compare_as] in *.
    + assert (E : to_R a1 * to_R a1 = 0) by nra. rewrite E in Rm.
      apply rounded_zero in Rm. rewrite Rm in Rf. apply rounded_zero in Rf. lra.
    + assert (E : to_R a1 * to_R a1 = 0) by nra. rewrite E in Rm.
      apply rounded_zero in Rm. rewrite Rm in Rf. apply rounded_zero in Rf. lra.
    + exact Hr.
  - cbv zeta in E1, E2. cbn [pow_uint] in E1, E2. rewrite bind_ret_l in E1, E2.
    revert f1 r1 f2 r2 E1 E2.
    change (post2 (ordered d) (bind (mul wctx a1 a1) (fix_ ctx)) (bind (mul wctx a2 a2) (fix_ ctx))).
    eapply post2_bind; [exact Hmul | exact Hfix].
Qed.

(** *** The second coordinate of tau when the sine is zero *)

Lemma to_R_zero_inv (x : Dec.Decimal) : to_R x = 0 -> coef x = 0%Z.
Proof.
  unfold to_R. intros H. pose proof (p10_pos (expo x)) as Hg.
  apply Rmult_integral in H. destruct H as [H | H]; [| lra].
  apply eq_IZR in H. destruct (sign x); lia.
Qed.

Ltac side :=
  repeat match goal with
         | H : ordered _ _ _ |- _ => destruct H as (? & ? & ?)
         | H : _ /\ _ |- _ => destruct H
         | H : nonneg ?x |- _ =>
             lazymatch goal with
             | _ : 0 <= to_R x |- _ => fail
             | _ => pose proof (to_R_nonneg x H)
             end
         end;
  cbn [compare_as] in *; subst.

Section TauY.

Variable ctx : context.
Hypothesis Hprec : (1 <= prec ctx)%Z.

Lemma div_nonneg (x y : Dec.Decimal) : nonneg x -> nonneg y -> post nonneg (div ctx x y).
Proof. intros Hx Hy f r E. apply (div_rounded ctx Hprec _ _ _ _ Hx Hy E). Qed.

Lemma div_zero_value (x y : Dec.Decimal) :
  nonneg x -> coef x = 0%Z -> nonneg y ->
  post (fun r => nonneg r /\ coef r = 0%Z) (div ctx x y).
Proof.
  intros Hx Hz Hy f r E.
  destruct (div_rounded ctx Hprec _ _ _ _ Hx Hy E) as (_ & Rr & Nr).
  split; [exact Nr |]. apply to_R_zero_inv.
  rewrite (to_R_zero x Hz) in Rr. unfold Rdiv in Rr. rewrite Rmult_0_l in Rr.
  exact (rounded_zero ctx _ Rr).
Qed.

Lemma pow2_nonneg (x : Dec.Decimal) : nonneg x -> post nonneg (pow ctx x 2).
Proof.
  intros Hx f r E.
  exact (proj1 (pow2_ordered ctx Same x x Hprec (ordered_refl x Hx) _ _ _ _ E E)).
Qed.

Lemma compute_tau_y_ordered (c s lam d p1 p2 : Dec.Decimal) :
  nonneg c -> nonneg s -> coef s = 0%Z -> nonneg lam -> nonneg d ->
  ordered Up p1 p2 ->
  post2 (fun t1 t2 => ordered Down (snd t1) (snd t2))
    (@compute_tau _ (Decimal_Number ctx) c s lam d p1)
    (@compute_tau _ (Decimal_Number ctx) c s lam d p2).
Proof.
  intros Hc Hs Hs0 Hl Hd Hp. unfold compute_tau.
  cbn [num_add num_sub num_mul num_div num_sqrt num_pow of_int Decimal_Number].
  pose proof (to_R_zero s Hs0) as Es.
  destruct Hp as (Hp1 & Hp2 & Hp).
  (* c / d and s / d are the same in both runs *)
  eapply post2_bind.
  { rewrite lift2_ret. apply post2_same. apply div_nonneg; assumption. }
  intros cd ? [<- Hcd].
  eapply post2_bind.
  { rewrite lift2_ret. apply post2_same. apply div_zero_value; assumption. }
  intros sd ? [<- [Hsd Hsd0]].
  pose proof (to_R_zero sd Hsd0) as Esd.
  (* term1 has the same value in both runs *)
  apply (post2_bind (ordered Same)).
  { eapply post2_lift2.
    - eapply post2_lift1.
      + eapply post2_lift2.
        * apply post2_ret. apply (ordered_refl cd Hcd).
        * rewrite !lift2_ret. apply (mul_ordered ctx Hprec Same); try assumption.
          cbn. rewrite Esd. ring.
        * intros a1 a2 b1 b2 Ha Hb. apply (add_ordered ctx Hprec Same).
          all: side; try assumption; lra.
      + intros a1 a2 Ha. apply (pow2_ordered ctx Same); assumption.
    - rewrite lift1_ret. apply post2_same. apply pow2_nonneg. exact Hl.
    - intros a1 a2 b1 b2 Ha [<- Hb]. cbv beta. apply (div_ordered ctx Hprec Same).
      all: side; try assumption. intros _ _. congruence. }
  intros term1 term1' Ht1.
  (* term2 grows with p *)
  apply (post2_bind (ordered Up)).
  { eapply post2_lift1.
    - eapply post2_lift2.
      + rewrite !lift2_ret. apply (mul_ordered ctx Hprec Up); try assumption.
        side. cbn. nra.
      + apply (post2_ret (fun a1 a2 => a1 = a2 /\ coef a1 = 0%Z)). exact (conj eq_refl Hsd0).
      + intros a1 a2 b1 b2 Ha [<- Hb]. cbv beta. apply (sub_zero_ordered ctx Hprec Up); assumption.
    - intros a1 a2 Ha. apply (pow2_ordered ctx Up); assumption. }
  intros term2 term2' Ht2.
  (* so dFactor shrinks *)
  apply (post2_bind (ordered Down)).
  { eapply post2_lift2.
    - apply post2_ret. apply (ordered_refl (of_Z 1)). split; [unfold wf; cbn; lia | reflexivity].
    - eapply post2_lift1.
      + rewrite !lift2_ret. apply (add_ordered ctx Hprec Up).
        all: side; try assumption; lra.
      + intros a1 a2 Ha. apply (sqrt_ordered ctx Hprec Up); assumption.
    - intros a1 a2 b1 b2 Ha Hb. apply (div_ordered ctx Hprec Down).
      all: side; try assumption. intros P1 P2.
      assert (/ to_R b2 <= / to_R b1) by (apply Rinv_le_contravar; assumption).
      assert (0 < / to_R b2) by (apply Rinv_0_lt_compat; assumption).
      unfold Rdiv. nra. }
  intros dF dF' HdF.
  eapply post2_bind; [apply post2_any |]. intros tau_x tau_x' _.
  apply (post2_bind (ordered Down)).
  { eapply post2_lift2.
    - eapply post2_lift2.
      + eapply post2_lift2.
        * apply post2_ret. apply (ordered_refl c Hc).
        * rewrite !lift2_ret. apply (mul_ordered ctx Hprec Same); try assumption.
          cbn. rewrite Es. ring.
        * intros a1 a2 b1 b2 Ha Hb. apply (add_ordered ctx Hprec Same).
          all: side; try assumption; lra.
      + apply post2_ret. exact HdF.
      + intros a1 a2 b1 b2 Ha Hb. apply (mul_ordered ctx Hprec Down).
        all: side; try assumption. nra.
    - apply post2_ret. apply (ordered_refl lam Hl).
    - intros a1 a2 b1 b2 Ha Hb. apply (div_ordered ctx Hprec Down).
      all: side; try assumption. intros P1 P2.
      replace (to_R b2) with (to_R b1) by lra.
      assert (0 < / to_R b1) by (apply Rinv_0_lt_compat; assumption).
      unfold Rdiv. nra. }
  intros tau_y tau_y' Hy. apply post2_ret. exact Hy.
Qed.

(** Steps 1 to 3 for two values of beta. *)
Lemma derive_tauBeta_y_ordered (alpha beta1 beta2 c s lam : Dec.Decimal) :
  nonneg c -> nonneg s -> coef s = 0%Z -> nonneg lam ->
  ordered Up beta1 beta2 ->
  post2 (fun dv1 dv2 => ordered Down (tauBeta_y dv1) (tauBeta_y dv2))
    (@derive _ (Decimal_Number ctx) (mkParams alpha beta1 c s lam))
    (@derive _ (Decimal_Number ctx) (mkParams alpha beta2 c s lam)).
Proof.
  intros Hc Hs Hs0 Hl Hb. unfold derive.
  cbn [num_add num_sub num_mul num_div num_sqrt num_pow of_int Decimal_Number].
  eapply post2_bind.
  { apply post2_same. apply (post2_diag (ordered Same)).
    eapply post2_lift2.
    - rewrite !lift2_ret. apply (mul_ordered ctx Hprec Same); try assumption. reflexivity.
    - rewrite !lift2_ret. apply (mul_ordered ctx Hprec Same); try assumption. reflexivity.
    - intros a1 a2 b1 b2 Ha Hb'. apply (add_ordered ctx Hprec Same).
      all: side; try assumption; lra. }
  intros dSq ? [<- HdSq].
  eapply post2_bind.
  { apply post2_same. apply (post2_diag (ordered Same)).
    apply (sqrt_ordered ctx Hprec Same). exact HdSq. }
  intros d ? [<- Hd].
  eapply post2_bind; [apply post2_any |]. intros [tax tay] [tax' tay'] _.
  apply (post2_bind (fun t1 t2 => ordered Down (snd t1) (snd t2))).
  { apply compute_tau_y_ordered; try assumption. apply Hd. }
  intros [tbx tby] [tbx' tby'] Hy. cbn [snd] in Hy.
  eapply post2_bind; [apply post2_any |]. intros u1 u2 _.
  eapply post2_bind; [apply post2_any |]. intros v1 v2 _.
  eapply post2_bind; [apply post2_any |]. intros w1 w2 _.
  eapply post2_bind; [apply post2_any |]. intros z1 z2 _.
  apply post2_ret. cbn [tauBeta_y]. exact Hy.
Qed.

End TauY.

(** *** Back to the rationals *)

Lemma Q2R_inject_Z (n : Z) : Q2R (inject_Z n) = IZR n.
Proof. unfold Q2R, inject_Z. cbn. rewrite Rinv_1. ring. Qed.

Lemma Q2R_pow10Q (e : Z) : Q2R (pow10Q e) = p10 e.
Proof.
  destruct (Z_le_gt_dec 0 e) as [He | He].
  - rewrite (Qeq_eqR _ _ (pow10Q_nonneg e He)), Q2R_inject_Z. symmetry. apply p10_IZR. exact He.
  - rewrite (Qeq_eqR _ _ (pow10Q_neg e ltac:(lia))).
    pose proof (pow10_pos (- e) ltac:(lia)) as Hp.
    rewrite Q2R_inv, Q2R_inject_Z.
    + rewrite <- p10_IZR by lia.
      pose proof (p10_add e (- e)) as A. replace (e + - e)%Z with 0%Z in A by lia.
      rewrite p10_0 in A. pose proof (p10_pos e). pose proof (p10_pos (- e)).
      apply Rmult_eq_reg_l with (p10 (- e)); [| lra].
      rewrite Rinv_r by lra. rewrite A. ring.
    + intros E. apply (Qeq_eqR _ 0) in E. rewrite Q2R_inject_Z in E.
      replace (Q2R 0) with 0 in E by (unfold Q2R; cbn; ring).
      apply eq_IZR in E. lia.
Qed.

Lemma Q2R_to_Q (x : Dec.Decimal) : Q2R (to_Q x) = to_R x.
Proof. unfold to_Q, to_R. rewrite Q2R_mult, Q2R_inject_Z, Q2R_pow10Q. reflexivity. Qed.

Lemma ordered_Down_Qabs (x1 x2 : Dec.Decimal) :
  ordered Down x1 x2 -> (Qabs (to_Q x2) <= Qabs (to_Q x1))%Q.
Proof.
  intros ([W1 S1] & [W2 S2] & H). cbn [compare_as] in H.
  pose proof (to_Q_sign x1 W1) as P1. rewrite S1 in P1.
  pose proof (to_Q_sign x2 W2) as P2. rewrite S2 in P2.
  rewrite !Qabs_pos by assumption.
  apply Rle_Qle. rewrite !Q2R_to_Q. exact H.
Qed.

Lemma ordered_Up_intro (x1 x2 : Dec.Decimal) :
  nonneg x1 -> nonneg x2 -> (to_Q x1 <= to_Q x2)%Q -> ordered Up x1 x2.
Proof.
  intros H1 H2 H. split; [exact H1 |]. split; [exact H2 |]. cbn [compare_as].
  rewrite <- !Q2R_to_Q. apply Qle_Rle. exact H.
Qed.

End RoundFacts.

(** ** Exact real arithmetic *)

Module RealFacts.
Import RealArith.
Local Open Scope R_scope.

Lemma rdiv_ok (x y : R) : y <> 0 -> rdiv x y = ret (x / y).
Proof. intros H. unfold rdiv. destruct (Req_dec_T y 0); [contradiction | reflexivity]. Qed.

Lemma rsqrt_ok (x : R) : 0 <= x -> rsqrt x = ret (sqrt x).
Proof. intros H. unfold rsqrt. destruct (Rlt_dec x 0); [lra | reflexivity]. Qed.

Lemma dSq_pos (c s : R) : c <> 0 \/ s <> 0 -> 0 < c * c + s * s.
Proof. intros [H | H]; nra. Qed.

Lemma numerator_pos (c s lam p : R) :
  c <> 0 \/ s <> 0 -> 0 < lam -> 0 < p ->
  0 < (c + p * s) ^ 2 / lam ^ 2 + (p * c - s) ^ 2.
Proof.
  intros Hcs Hl Hp.
  assert (Hl2 : 0 < / lam ^ 2) by (apply Rinv_0_lt_compat, pow_lt; lra).
  assert (H1 : 0 <= (c + p * s) ^ 2 / lam ^ 2).
  { unfold Rdiv. apply Rmult_le_pos; [apply pow2_ge_0 | lra]. }
  assert (H2 : 0 <= (p * c - s) ^ 2) by apply pow2_ge_0.
  destruct (Req_dec (p * c - s) 0) as [E | E].
  - assert (Hs : s = p * c) by lra.
    assert (Hc : c <> 0).
    { intros ->. destruct Hcs as [Hc | Hc]; [apply Hc; reflexivity | apply Hc; lra]. }
    assert (0 < (c + p * s) ^ 2).
    { subst s. replace (c + p * (p * c)) with (c * (1 + p * p)) by ring.
      assert (0 < 1 + p * p) by nra.
      assert (c * (1 + p * p) <> 0) by (apply Rmult_integral_contrapositive_currified; lra).
      rewrite <- Rsqr_pow2; apply Rsqr_pos_lt; assumption. }
    assert (0 < (c + p * s) ^ 2 / lam ^ 2) by (unfold Rdiv; apply Rmult_lt_0_compat; lra).
    lra.
  - assert (0 < (p * c - s) ^ 2) by (rewrite <- Rsqr_pow2; apply Rsqr_pos_lt; assumption). lra.
Qed.

Lemma radicand_pos (c s lam p : R) :
  c <> 0 \/ s <> 0 -> 0 < lam -> 0 < p ->
  let d := sqrt (c * c + s * s) in
  0 < (c / d + p * (s / d)) ^ 2 / lam ^ 2 + (p * (c / d) - s / d) ^ 2.
Proof.
  intros Hcs Hl Hp d.
  pose proof (dSq_pos c s Hcs) as HdSq.
  assert (Hd : 0 < d) by (apply sqrt_lt_R0; exact HdSq).
  pose proof (numerator_pos c s lam p Hcs Hl Hp) as HN.
  replace ((c / d + p * (s / d)) ^ 2 / lam ^ 2 + (p * (c / d) - s / d) ^ 2)
    with (((c + p * s) ^ 2 / lam ^ 2 + (p * c - s) ^ 2) / (d * d))
    by (field; split; lra).
  apply Rdiv_lt_0_compat; [exact HN | nra].
Qed.

Lemma compute_tau_real (c s lam p : R) :
  c <> 0 \/ s <> 0 -> 0 < lam -> 0 < p ->
  compute_tau c s lam (sqrt (c * c + s * s)) p =
  ret (tau_real c s lam (sqrt (c * c + s * s)) p).
Proof.
  intros Hcs Hl Hp.
  pose proof (dSq_pos c s Hcs) as HdSq.
  pose proof (radicand_pos c s lam p Hcs Hl Hp) as HT. cbv zeta in HT.
  unfold tau_real.
  set (d := sqrt (c * c + s * s)) in *.
  assert (Hd : 0 < d) by (apply sqrt_lt_R0; exact HdSq).
  set (T := (c / d + p * (s / d)) ^ 2 / lam ^ 2 + (p * (c / d) - s / d) ^ 2) in *.
  assert (Hq : 0 < sqrt T) by (apply sqrt_lt_R0; exact HT).
  unfold compute_tau.
  cbn [num_div num_add num_sub num_mul num_pow num_sqrt of_int R_Number].
  change (Pos.to_nat 2) with 2%nat.
  assert (Hl2 : lam ^ 2 <> 0) by (apply pow_nonzero; lra).
  repeat rewrite ?lift2_ret, ?lift1_ret, ?bind_ret_l, ?rdiv_ok by lra.
  fold T.
  rewrite rsqrt_ok by lra.
  repeat rewrite ?lift2_ret, ?lift1_ret, ?bind_ret_l, ?rdiv_ok by lra.
  reflexivity.
Qed.

Lemma tau_real_norm (c s lam p : R) :
  c <> 0 \/ s <> 0 -> 0 < lam -> 0 < p ->
  let t := tau_real c s lam (sqrt (c * c + s * s)) p in
  fst t * fst t + snd t * snd t = c * c + s * s.
Proof.
  intros Hcs Hl Hp.
  pose proof (dSq_pos c s Hcs) as HdSq.
  pose proof (radicand_pos c s lam p Hcs Hl Hp) as HTpos. cbv zeta in HTpos.
  unfold tau_real. cbv zeta. cbn [fst snd].
  set (d := sqrt (c * c + s * s)) in *.
  assert (Hd : 0 < d) by (apply sqrt_lt_R0; exact HdSq).
  assert (Hdd : d * d = c * c + s * s) by (apply sqrt_sqrt; lra).
  set (T := (c / d + p * (s / d)) ^ 2 / lam ^ 2 + (p * (c / d) - s / d) ^ 2) in *.
  assert (HT : T = ((c + p * s) ^ 2 / lam ^ 2 + (p * c - s) ^ 2) / (d * d)).
  { unfold T. field. split; lra. }
  assert (Hq : 0 < sqrt T) by (apply sqrt_lt_R0; exact HTpos).
  assert (Hqq : sqrt T * sqrt T = T) by (apply sqrt_sqrt; lra).
  rewrite <- Hdd.
  assert (HTd : T * (d * d) = (c + p * s) ^ 2 / lam ^ 2 + (p * c - s) ^ 2).
  { rewrite HT. field. lra. }
  rewrite <- Hqq in HTd.
  apply Rmult_eq_reg_r with (sqrt T * sqrt T); [| nra].
  transitivity ((c + p * s) ^ 2 / lam ^ 2 + (p * c - s) ^ 2); [field; lra |].
  rewrite <- HTd. ring.
Qed.

Lemma derive_real_eq (alpha beta c s lam : R) :
  c <> 0 \/ s <> 0 -> 0 < lam -> 0 < alpha -> 0 < beta ->
  derive (mkParams alpha beta c s lam) = ret (derive_real alpha beta c s lam).
Proof.
  intros Hcs Hl Ha Hb. pose proof (dSq_pos c s Hcs) as HdSq.
  unfold derive, derive_real. cbv zeta.
  cbn [num_add num_mul num_sub num_sqrt R_Number].
  rewrite !lift2_ret, bind_ret_l, rsqrt_ok, bind_ret_l by lra.
  rewrite !compute_tau_real, !bind_ret_l by assumption.
  destruct (tau_real c s lam (sqrt (c * c + s * s)) alpha) as [tax tay].
  destruct (tau_real c s lam (sqrt (c * c + s * s)) beta) as [tbx tby].
  cbn [fst snd].
  repeat rewrite ?lift2_ret, ?bind_ret_l. reflexivity.
Qed.

End RealFacts.

(** ** The run on the hard-coded parameters *)

Section HardCoded.

Local Open Scope num_scope.

Lemma base_params_eq : base_params = (false, Ok script_params).
Proof. vm_compute. reflexivity. Qed.

Lemma SCALE_38_eq : SCALE_38 = (false, Ok script_SCALE_38).
Proof. vm_compute. reflexivity. Qed.

Lemma script_dSq_eq :
  $(c script_params) * $(c script_params) + $(s script_params) * $(s script_params)
  = (false, Ok (Dec.mkDec false 1 0)).
Proof. vm_compute. reflexivity. Qed.

Lemma script_d_eq : num_sqrt (Dec.mkDec false 1 0) = (false, Ok script_d).
Proof. vm_compute. reflexivity. Qed.

Lemma script_tauAlpha_eq :
  compute_tau (c script_params) (s script_params) (lam script_params)
    script_d (alpha script_params) = script_tauAlpha.
Proof. vm_compute. reflexivity. Qed.

Lemma script_tauBeta_eq :
  compute_tau (c script_params) (s script_params) (lam script_params)
    script_d (beta script_params) = script_tauBeta.
Proof. vm_compute. reflexivity. Qed.

Lemma derive_script_params : derive script_params = script_derived.
Proof.
  change (derive script_params) with
    (dSq <- $(c script_params) * $(c script_params)
            + $(s script_params) * $(s script_params) ;;
     d <- num_sqrt dSq ;;
     '(tauAlpha_x, tauAlpha_y) <-
       compute_tau (c script_params) (s script_params) (lam script_params) d
         (alpha script_params) ;;
     '(tauBeta_x, tauBeta_y) <-
       compute_tau (c script_params) (s script_params) (lam script_params) d
         (beta script_params) ;;
     u <- $(s script_params) * $(c script_params) * ($tauBeta_x - $tauAlpha_x) ;;
     v <- $(s script_params) * $(s script_params) * $tauBeta_y
          + $(c script_params) * $(c script_params) * $tauAlpha_y ;;
     w <- $(s script_params) * $(c script_params) * ($tauBeta_y - $tauAlpha_y) ;;
     z <- $(c script_params) * $(c script_params) * $tauBeta_x
          + $(s script_params) * $(s script_params) * $tauAlpha_x ;;
     ret (mkDerived dSq d tauAlpha_x tauAlpha_y tauBeta_x tauBeta_y u v w z))%monad.
  rewrite script_dSq_eq, bind_Ok_l, script_d_eq, bind_Ok_l.
  rewrite script_tauAlpha_eq. unfold script_tauAlpha. rewrite bind_Ok_l.
  rewrite script_tauBeta_eq. unfold script_tauBeta. rewrite bind_Ok_l.
  vm_compute. reflexivity.
Qed.

Lemma run_script_params : run SCALE_38 script_params = script_main_value.
Proof.
  unfold run. rewrite SCALE_38_eq, bind_Ok_l, derive_script_params.
  unfold script_derived. rewrite bind_Ok_l.
  vm_compute. reflexivity.
Qed.

Lemma script_main_eq : script_main = script_main_value.
Proof.
  unfold script_main, main. rewrite base_params_eq, bind_Ok_l.
  exact run_script_params.
Qed.

End HardCoded.

Lemma script_run_d :
  exists o, script_main = (false, Ok o) /\ d (out_derived o) = script_d.
Proof. rewrite script_main_eq. eexists. split; reflexivity. Qed.

(** * The claims *)

(** C3: on the hard-coded parameters the run ends normally and the scaled
    dSq is exactly 10^38. *)
Theorem hard_coded_dSq_38 :
  exists o, script_main = (false, Ok o) /\
            dSq_38 (out_constants o) = 100000000000000000000000000000000000000.
Proof.
  rewrite script_main_eq. eexists. split; reflexivity.
Qed.

(** C8: on the hard-coded parameters each of the nine scaled constants is
    a signed 256-bit integer. *)
Theorem hard_coded_constants_int256 :
  exists o, script_main = (false, Ok o) /\
            Forall in_int256 (constants_list (out_constants o)).
Proof.
  rewrite script_main_eq. eexists. split; [reflexivity |].
  repeat constructor; discriminate.
Qed.

(** C7 (what the code does): on the hard-coded parameters the two norms
    printed by the sanity section are about 1.39 and 1.33, more than 30%
    away from 1; only the restated dSq is 1. *)
Theorem hard_coded_sanity_values :
  exists o, script_main = (false, Ok o) /\
    (1389 # 1000 < Dec.to_Q (norm_tauAlpha (out_sanity o)) < 1390 # 1000)%Q /\
    (1327 # 1000 < Dec.to_Q (norm_tauBeta (out_sanity o)) < 1328 # 1000)%Q /\
    (Dec.to_Q (dSq_again (out_sanity o)) == 1)%Q.
Proof.
  rewrite script_main_eq. eexists. split; [reflexivity |].
  repeat split; vm_compute; reflexivity.
Qed.

Section Refinement.

Local Open Scope num_scope.

Lemma script_c_squared :
  $(c script_params) * $(c script_params) = $(c script_params) ** 2.
Proof. vm_compute. reflexivity. Qed.

Lemma script_s_squared :
  $(s script_params) * $(s script_params) = $(s script_params) ** 2.
Proof. vm_compute. reflexivity. Qed.

(** C1: [compute_tau] is step 2 of the reference algorithm for every price
    bound (and every c, s, lambda, d); and with c, s, lambda as the program
    sets them up, steps 1 to 3 of the script (which writes [c * c] and
    [s * s] as products) give exactly what the reference algorithm gives
    with its squares, for every pair of price bounds: the same tau points
    and the same u, v, w, z, digit for digit. *)
Theorem compute_tau_as_specified :
  (forall c s lam d p : Dec.Decimal,
      compute_tau c s lam d p = Spec.tau c s lam d p) /\
  exists prm, base_params = (false, Ok prm) /\
    forall alpha beta : Dec.Decimal,
      derive (mkParams alpha beta (c prm) (s prm) (lam prm)) =
      Spec.steps_1_to_3 alpha beta (c prm) (s prm) (lam prm).
Proof.
  split; [reflexivity |].
  exists script_params. split; [exact base_params_eq |].
  intros alpha beta.
  unfold derive, Spec.steps_1_to_3.
  apply bind_ext; [rewrite script_c_squared, script_s_squared; reflexivity |].
  intros dSq.
  apply bind_ext; [reflexivity | intros d].
  apply bind_ext; [reflexivity | intros [tauAlpha_x tauAlpha_y]].
  apply bind_ext; [reflexivity | intros [tauBeta_x tauBeta_y]].
  apply bind_ext; [reflexivity | intros u].
  apply bind_ext; [rewrite script_c_squared, script_s_squared; reflexivity |].
  intros v.
  apply bind_ext; [reflexivity | intros w].
  apply bind_ext; [rewrite script_c_squared, script_s_squared; reflexivity |].
  intros z. reflexivity.
Qed.

End Refinement.

(** C2: for every number the context can return (at most 200 digits,
    exponent not below Etiny) whose product with 10^38 does not overflow,
    the scaling step returns, with no flag raised, the floor of
    [x * 10^38] when [x >= 0] and its ceiling when [x < 0]: truncation
    toward zero. *)
Theorem to_int38_truncates (x : Dec.Decimal) :
  Dec.representable script_context x ->
  Dec.coef x = 0 \/
  Dec.ndigits (Dec.coef x) + Dec.expo x + 38 <= Dec.Emax script_context + 1 ->
  exists n, to_int38 script_SCALE_38 x = (false, Ok n) /\
    (0 <= Dec.to_Q x -> n = Qfloor (Dec.to_Q x * inject_Z (10 ^ 38)))%Q /\
    (Dec.to_Q x < 0 -> n = Qceiling (Dec.to_Q x * inject_Z (10 ^ 38)))%Q.
Proof.
  intros Hrep Hov.
  set (x38 := Dec.mkDec (Dec.sign x) (Dec.coef x * 10 ^ 38) (Dec.expo x)).
  assert (Hwf38 : Dec.wf x38).
  { destruct Hrep as [Hwf _]. unfold Dec.wf in *. cbn [Dec.coef x38].
    pose proof (DecFacts.pow10_pos 38). lia. }
  assert (HQ : (Dec.to_Q x38 == Dec.to_Q x * inject_Z (10 ^ 38))%Q).
  { unfold Dec.to_Q, x38. cbn [Dec.sign Dec.coef Dec.expo].
    destruct (Dec.sign x); rewrite <- ?Z.mul_opp_l, inject_Z_mult;
      generalize (inject_Z (10 ^ 38)); intros; ring. }
  assert (Hint : exists y, Dec.mul script_context x script_SCALE_38 = (false, Ok y) /\
                           Dec.to_int y = Dec.to_int x38).
  { destruct Hrep as (Hwf & Hdig & Hexp). unfold Dec.wf in Hwf.
    destruct (Z.eq_dec (Dec.coef x) 0) as [E0 | E0].
    - unfold Dec.mul, Dec.fix_. cbn [Dec.sign Dec.coef Dec.expo].
      rewrite E0, Z.mul_0_l. cbn [Z.eqb].
      eexists. split; [reflexivity |].
      rewrite !DecFacts.to_int_zero;
        [reflexivity | unfold Zr, x38; cbn [Dec.coef]; lia | reflexivity].
    - destruct (DecFacts.mul_SCALE_38_exact script_context x)
        as (y & Hy & Hsy & Hey & Hcy); [repeat split; assumption | lia | lia |].
      exists y. split; [exact Hy |]. unfold x38.
      destruct y as [sy cy ey]. cbn [Dec.sign Dec.coef Dec.expo] in *. subst sy.
      apply DecFacts.to_int_same_value; assumption. }
  destruct Hint as (y & Hy & Hyx).
  exists (Dec.to_int y). split.
  - unfold to_int38. cbn [num_mul num_int script_number Decimal_Number].
    rewrite lift2_ret.
    change (bind (Dec.mul script_context x script_SCALE_38)
                 (fun scaled => ret (Dec.to_int scaled)) = (false, Ok (Dec.to_int y))).
    rewrite Hy. reflexivity.
  - rewrite Hyx. destruct (DecFacts.to_int_truncates x38 Hwf38) as [H1 H2].
    split; intros H.
    + rewrite <- (Qfloor_comp _ _ HQ). apply H1. rewrite HQ.
      apply Qmult_le_0_compat; [exact H |].
      change 0%Q with (inject_Z 0). rewrite <- Zle_Qle.
      pose proof (DecFacts.pow10_pos 38); lia.
    + rewrite <- (Qceiling_comp _ _ HQ). apply H2. rewrite HQ.
      setoid_replace 0%Q with (0 * inject_Z (10 ^ 38))%Q by ring.
      apply Qmult_lt_compat_r; [| exact H].
      change 0%Q with (inject_Z 0). rewrite <- Zlt_Qlt. apply DecFacts.pow10_pos; lia.
Qed.

Lemma to_int38_truncates_witness :
  let x := Dec.mkDec true 19 (-39) in
  Dec.representable script_context x /\
  (Dec.coef x = 0 \/
   Dec.ndigits (Dec.coef x) + Dec.expo x + 38 <= Dec.Emax script_context + 1) /\
  exists n, to_int38 script_SCALE_38 x = (false, Ok n) /\
    (0 <= Dec.to_Q x -> n = Qfloor (Dec.to_Q x * inject_Z (10 ^ 38)))%Q /\
    (Dec.to_Q x < 0 -> n = Qceiling (Dec.to_Q x * inject_Z (10 ^ 38)))%Q.
Proof.
  intros x.
  assert (H1 : Dec.representable script_context x)
    by (repeat split; vm_compute; discriminate).
  assert (H2 : Dec.coef x = 0 \/
               Dec.ndigits (Dec.coef x) + Dec.expo x + 38 <= Dec.Emax script_context + 1)
    by (right; vm_compute; discriminate).
  exact (conj H1 (conj H2 (to_int38_truncates x H1 H2))).
Defined.

(** C4: whenever s is zero, every run that returns has u_38 = 0 and
    w_38 = 0; the run on the hard-coded parameters is one. *)
Theorem zero_sine_gives_zero_u_w (prm : params Dec.Decimal) (f : bool)
    (o : outputs Dec.Decimal) :
  Dec.coef (s prm) = 0 ->
  run SCALE_38 prm = (f, Ok o) ->
  u_38 (out_constants o) = 0 /\ w_38 (out_constants o) = 0.
Proof.
  intros Hs Hrun.
  exact (DecFacts.run_zero_sine script_context SCALE_38 prm Hs f o Hrun).
Qed.

Lemma zero_sine_gives_zero_u_w_witness :
  exists o, run SCALE_38 script_params = (false, Ok o) /\
            u_38 (out_constants o) = 0 /\ w_38 (out_constants o) = 0.
Proof.
  eexists. split; [rewrite run_script_params; reflexivity |].
  apply (zero_sine_gives_zero_u_w script_params false); [reflexivity |].
  rewrite run_script_params. reflexivity.
Defined.

(** C5 (as stated, refuted): with c = 1E-600000, s = 0 and the other
    hard-coded parameters, which are valid, c * c underflows to zero, d is
    zero and [c / d] raises DivisionByZero. *)
Lemma division_by_zero_after_underflow :
  valid_params underflow_params /\
  run SCALE_38 underflow_params = (true, Raise DivisionByZero).
Proof.
  split; [| vm_compute; reflexivity].
  unfold valid_params, Dec.wf. cbn.
  repeat split; lia.
Qed.

Lemma script_context_prec : 1 <= Dec.prec script_context.
Proof. cbn. lia. Qed.

(** C5 (amended): for every valid input on which no result underflows (the
    Underflow flag of the context stays clear), no division by zero and
    no invalid operation (the square root of a negative number, 0/0)
    occurs anywhere in the computation, sanity section included: the run
    returns, or stops on Overflow. *)
Theorem no_zero_division_unless_underflow (prm : params Dec.Decimal) (f : bool)
    (r : result (outputs Dec.Decimal)) :
  valid_params prm ->
  run SCALE_38 prm = (f, r) ->
  f = false ->
  r <> Raise DivisionByZero /\ r <> Raise InvalidOperation.
Proof.
  intros Hprm Hrun Hf.
  assert (HS : safe Dec.wf (@SCALE_38 _ script_number)).
  { rewrite SCALE_38_eq. intros _. unfold Dec.wf. cbn [snd script_SCALE_38 Dec.coef].
    pose proof (DecFacts.pow10_pos 38). lia. }
  pose proof (DecFacts.run_safe script_context script_context_prec SCALE_38 prm HS Hprm)
    as Hsafe.
  unfold safe in Hsafe.
  change (@run _ (Decimal_Number script_context) SCALE_38 prm)
    with (run SCALE_38 prm) in Hsafe.
  rewrite Hrun in Hsafe. cbn [fst snd] in Hsafe. specialize (Hsafe Hf).
  destruct r as [o | e]; [split; discriminate |].
  subst e. split; discriminate.
Qed.

Lemma no_zero_division_unless_underflow_witness :
  valid_params script_params /\
  snd script_main_value <> Raise DivisionByZero /\
  snd script_main_value <> Raise InvalidOperation.
Proof.
  assert (H : valid_params script_params).
  { unfold valid_params, Dec.wf. cbn. repeat split; lia. }
  split; [exact H |].
  apply (no_zero_division_unless_underflow script_params false (snd script_main_value) H);
    [rewrite run_script_params; reflexivity | reflexivity].
Defined.

(** C6 (as stated, refuted): with c, s, lambda and d as in the script's
    run, the price bound 1.035905 gives tau.y = 0.0193..., the larger
    price bound 1.144947 gives the smaller tau.y = 0.0174.... *)
Lemma tauBeta_y_smaller_for_larger_beta :
  let beta1 := Dec.mkDec false 1035905 (-6) in
  let beta2 := Dec.mkDec false 1144947 (-6) in
  exists t1 t2,
    compute_tau (c script_params) (s script_params) (lam script_params)
      script_d beta1 = (false, Ok t1) /\
    compute_tau (c script_params) (s script_params) (lam script_params)
      script_d beta2 = (false, Ok t2) /\
    (Dec.to_Q beta1 < Dec.to_Q beta2)%Q /\
    (Qabs (Dec.to_Q (snd t2)) < Qabs (Dec.to_Q (snd t1)))%Q.
Proof.
  intros beta1 beta2. eexists. eexists.
  split; [exact script_tauAlpha_eq |].
  split; [exact script_tauBeta_eq |].
  split; vm_compute; reflexivity.
Qed.

(** C6 (amended): in the symmetric case (c, s = 0 and lambda as the
    script sets them up, any alpha), for every pair of nonnegative price
    bounds beta1 <= beta2 on which steps 1 to 3 return, the magnitude of
    tauBeta.y computed from beta2 is not larger than the one computed from
    beta1, in the script's own 200-digit arithmetic: every operation on
    the way rounds correctly, and correct rounding keeps the order.  (Two
    close values of beta can give the same tauBeta.y.) *)
Theorem tauBeta_y_nonincreasing (alpha beta1 beta2 : Dec.Decimal)
    (f1 f2 : bool) (dv1 dv2 : derived Dec.Decimal) :
  nonneg beta1 -> nonneg beta2 ->
  (Dec.to_Q beta1 <= Dec.to_Q beta2)%Q ->
  derive (mkParams alpha beta1 (c script_params) (s script_params) (lam script_params))
    = (f1, Ok dv1) ->
  derive (mkParams alpha beta2 (c script_params) (s script_params) (lam script_params))
    = (f2, Ok dv2) ->
  (Qabs (Dec.to_Q (tauBeta_y dv2)) <= Qabs (Dec.to_Q (tauBeta_y dv1)))%Q.
Proof.
  intros H1 H2 Hle E1 E2.
  apply RoundFacts.ordered_Down_Qabs.
  assert (Hn : forall q, (0 <= q)%Z -> nonneg (Dec.mkDec false q 0))
    by (intros q Hq; split; [exact Hq | reflexivity]).
  refine (RoundFacts.derive_tauBeta_y_ordered script_context script_context_prec
            alpha beta1 beta2 (c script_params) (s script_params) (lam script_params)
            _ _ _ _ _ f1 dv1 f2 dv2 E1 E2).
  - apply Hn. lia.
  - apply Hn. lia.
  - reflexivity.
  - apply Hn. lia.
  - apply RoundFacts.ordered_Up_intro; assumption.
Qed.

Lemma tauBeta_y_nonincreasing_witness :
  let alpha := Dec.mkDec false 1035905 (-6) in
  let beta1 := Dec.mkDec false 1144947 (-6) in
  let beta2 := Dec.mkDec false 2 0 in
  nonneg beta1 /\ nonneg beta2 /\ (Dec.to_Q beta1 <= Dec.to_Q beta2)%Q /\
  match derive (mkParams alpha beta1 (c script_params) (s script_params)
                  (lam script_params)),
        derive (mkParams alpha beta2 (c script_params) (s script_params)
                  (lam script_params)) with
  | (_, Ok dv1), (_, Ok dv2) =>
      (Qabs (Dec.to_Q (tauBeta_y dv2)) <= Qabs (Dec.to_Q (tauBeta_y dv1)))%Q
  | _, _ => False
  end.
Proof.
  intros alpha beta1 beta2.
  assert (H1 : nonneg beta1) by (split; [unfold Dec.wf; cbn; lia | reflexivity]).
  assert (H2 : nonneg beta2) by (split; [unfold Dec.wf; cbn; lia | reflexivity]).
  assert (H3 : (Dec.to_Q beta1 <= Dec.to_Q beta2)%Q) by (vm_compute; discriminate).
  split; [exact H1 |]. split; [exact H2 |]. split; [exact H3 |].
  destruct (derive (mkParams alpha beta1 (c script_params) (s script_params)
                      (lam script_params))) as [f1 [dv1 | e1]] eqn:E1;
    [| revert E1; vm_compute; discriminate].
  destruct (derive (mkParams alpha beta2 (c script_params) (s script_params)
                      (lam script_params))) as [f2 [dv2 | e2]] eqn:E2;
    [| revert E2; vm_compute; discriminate].
  exact (tauBeta_y_nonincreasing alpha beta1 beta2 f1 f2 dv1 dv2 H1 H2 H3 E1 E2).
Defined.

Import RealArith.

Local Open Scope R_scope.

(** C10: in exact real arithmetic, for valid c, s (not both zero),
    lambda > 0 and positive price bounds, steps 1 to 3 return normally and
    both tau points satisfy tau.x^2 + tau.y^2 = dSq = c^2 + s^2, with no
    factor lambda. *)
Theorem tau_on_circle_exact (alpha beta c s lam : R) :
  c <> 0 \/ s <> 0 -> 0 < lam -> 0 < alpha -> 0 < beta ->
  exists dv, derive (mkParams alpha beta c s lam) = (false, Ok dv) /\
    dSq dv = c * c + s * s /\
    tauAlpha_x dv * tauAlpha_x dv + tauAlpha_y dv * tauAlpha_y dv = dSq dv /\
    tauBeta_x dv * tauBeta_x dv + tauBeta_y dv * tauBeta_y dv = dSq dv.
Proof.
  intros Hcs Hl Ha Hb. exists (RealArith.derive_real alpha beta c s lam).
  split; [apply RealFacts.derive_real_eq; assumption |].
  unfold RealArith.derive_real. cbv zeta.
  cbn [dSq tauAlpha_x tauAlpha_y tauBeta_x tauBeta_y].
  split; [reflexivity |].
  split; apply RealFacts.tau_real_norm; assumption.
Qed.

Lemma tau_on_circle_exact_witness :
  (1 <> 0 \/ 0 <> 0) /\ 0 < 50 /\ 0 < 1 /\ 0 < 2 /\
  exists dv, derive (mkParams 1 2 1 0 50) = (false, Ok dv) /\
    dSq dv = 1 * 1 + 0 * 0 /\
    tauAlpha_x dv * tauAlpha_x dv + tauAlpha_y dv * tauAlpha_y dv = dSq dv /\
    tauBeta_x dv * tauBeta_x dv + tauBeta_y dv * tauBeta_y dv = dSq dv.
Proof.
  assert (H1 : 1 <> 0 \/ 0 <> 0) by (left; lra).
  assert (H2 : 0 < 50) by lra. assert (H3 : 0 < 1) by lra. assert (H4 : 0 < 2) by lra.
  repeat (split; [assumption |]).
  exact (tau_on_circle_exact 1 2 1 0 50 H1 H2 H3 H4).
Defined.

Local Close Scope R_scope.

(** * Further properties *)

(** ** What the rounding returns *)

Module RangeFacts.
Import Dec DecFacts.

Lemma ndigits_le (q p : Z) : 0 <= q < 10 ^ p -> 1 <= p -> ndigits q <= p.
Proof.
  intros [H0 Hq] Hp. destruct (Z.eq_dec q 0) as [-> | Hne]; [vm_compute ndigits; lia |].
  pose proof (ndigits_spec q ltac:(lia)) as [Hlo _].
  pose proof (ndigits_ge_1 q).
  assert (ndigits q - 1 < p) by (apply pow10_lt_inv; lia). lia.
Qed.

Lemma in_range_wf (ctx : context) (x : Dec.Decimal) : in_range ctx x -> wf x.
Proof. intros H. apply H. Qed.

Lemma in_range_mkDec (ctx : context) (sg : bool) (q e : Z) :
  1 <= prec ctx -> 0 <= q -> ndigits q <= prec ctx ->
  Etiny ctx <= e -> e <= Etop ctx -> in_range ctx (mkDec sg q e).
Proof.
  unfold in_range, representable, wf, Etop. cbn [coef expo]. intros Hp Hq Hn He He'.
  repeat split; try lia. destruct (q =? 0); lia.
Qed.

(** Whatever [_fix] returns is in range. *)
Lemma fix_in_range (ctx : context) (x : Dec.Decimal) (f : bool) (y : Dec.Decimal) :
  1 <= prec ctx -> Etiny ctx <= Emax ctx -> wf x ->
  fix_ ctx x = (f, Ok y) -> in_range ctx y.
Proof.
  unfold fix_, wf. intros Hprec HE Hwf H.
  destruct (coef x =? 0) eqn:E0.
  { inversion H; subst. unfold in_range, representable, wf. cbn [coef expo].
    change (0 =? 0) with true. cbv iota.
    repeat split; [lia | vm_compute ndigits; lia | lia | lia]. }
  pose proof E0 as E0'. apply Z.eqb_neq in E0. assert (Hc : 0 < coef x) by lia.
  pose proof (ndigits_spec _ Hc) as [Hlo Hhi].
  cbv zeta in H.
  set (L := ndigits (coef x)) in *.
  destruct (Etop ctx <? L + expo x - prec ctx) eqn:E1; [discriminate |].
  apply Z.ltb_ge in E1.
  set (sub := L + expo x - prec ctx <? Etiny ctx) in *.
  set (exp_min := if sub then Etiny ctx else L + expo x - prec ctx) in *.
  assert (Hem : Etiny ctx <= exp_min /\ L + expo x - prec ctx <= exp_min).
  { unfold exp_min, sub. destruct (L + expo x - prec ctx <? Etiny ctx) eqn:Es;
      [apply Z.ltb_lt in Es | apply Z.ltb_ge in Es]; lia. }
  destruct (expo x <? exp_min) eqn:E2.
  2:{ apply Z.ltb_ge in E2. inversion H; subst.
      unfold in_range, representable, wf. rewrite E0'. fold L. unfold Etop in E1.
      repeat split; lia. }
  apply Z.ltb_lt in E2.
  set (ce := if L + expo x - exp_min <? 0 then (1, exp_min - 1) else (coef x, expo x)) in *.
  assert (Hce : snd ce < exp_min /\
                0 <= fst ce / 10 ^ (exp_min - snd ce) < 10 ^ prec ctx).
  { unfold ce. destruct (L + expo x - exp_min <? 0) eqn:E3; cbn [fst snd].
    - split; [lia |]. replace (exp_min - (exp_min - 1)) with 1 by lia.
      change (1 / 10 ^ 1) with 0. pose proof (pow10_pos (prec ctx)). lia.
    - apply Z.ltb_ge in E3. split; [lia |].
      pose proof (pow10_pos (exp_min - expo x) ltac:(lia)) as Hk.
      split; [apply Z.div_pos; lia |].
      apply Z.div_lt_upper_bound; [lia |].
      apply Z.lt_le_trans with (10 ^ L); [exact Hhi |].
      rewrite <- Z.pow_add_r by lia. apply Z.pow_le_mono_r; lia. }
  destruct ce as [c e]. cbn [fst snd] in Hce. destruct Hce as (He & Hq0 & Hq).
  set (q := c / 10 ^ (exp_min - e)) in *.
  assert (Hfin : forall q' e',
    0 <= q' -> ndigits q' <= prec ctx -> exp_min <= e' ->
    forall fl, (if Etop ctx <? e' then raise Overflow
                else (fl, Ok (mkDec (sign x) q' e'))) = (f, Ok y) ->
    in_range ctx y).
  { intros q' e' Hq' Hn He' fl Hr. destruct (Etop ctx <? e') eqn:Et; inversion Hr; subst.
    apply Z.ltb_ge in Et. apply in_range_mkDec; lia. }
  destruct (0 <? round_half_even c (exp_min - e)) eqn:E4.
  - destruct (prec ctx <? ndigits (q + 1)) eqn:E5.
    + eapply Hfin; [| | | exact H]; try lia.
      * apply Z.div_pos; lia.
      * apply ndigits_le; [| lia]. split; [apply Z.div_pos; lia |].
        apply Z.div_lt_upper_bound; lia.
    + apply Z.ltb_ge in E5. eapply Hfin; [| | | exact H]; lia.
  - eapply Hfin; [| | | exact H]; try lia. apply ndigits_le; lia.
Qed.

(** The rounding leaves a number in range as it is: it is idempotent. *)
Lemma fix_fixed_point (ctx : context) (x : Dec.Decimal) :
  in_range ctx x -> fix_ ctx x = ret x.
Proof.
  unfold in_range, representable, wf, fix_.
  intros ((Hwf & Hdig & Hexp) & Hmax).
  destruct (coef x =? 0) eqn:E0.
  - apply Z.eqb_eq in E0. destruct x as [sg cx ex]. cbn [sign coef expo] in *. subst cx.
    rewrite Z.max_l, Z.min_l by lia. reflexivity.
  - cbv zeta. unfold Etop.
    destruct (Emax ctx - prec ctx + 1 <? ndigits (coef x) + expo x - prec ctx) eqn:E1;
      [apply Z.ltb_lt in E1; lia |].
    destruct (ndigits (coef x) + expo x - prec ctx <? Etiny ctx) eqn:E2.
    + destruct (expo x <? Etiny ctx) eqn:E3; [apply Z.ltb_lt in E3; lia | reflexivity].
    + destruct (expo x <? ndigits (coef x) + expo x - prec ctx) eqn:E3;
        [apply Z.ltb_lt in E3; lia | reflexivity].
Qed.

Lemma strip_zeros_nonneg (fuel : nat) (q e ideal : Z) :
  0 <= q -> 0 <= fst (strip_zeros fuel q e ideal).
Proof.
  revert q e. induction fuel as [| fuel IH]; intros q e Hq; cbn [strip_zeros]; [exact Hq |].
  destruct ((e <? ideal) && (q mod 10 =? 0)); [| exact Hq].
  apply IH. apply Z.div_pos; lia.
Qed.

Section Operations.

Variable ctx : context.
Hypothesis Hctx : usual_context ctx.

Lemma fix_rng (x : Dec.Decimal) : wf x -> post (in_range ctx) (fix_ ctx x).
Proof.
  destruct Hctx as (Hp & Ht & Hm).
  intros Hx f y E. apply (fix_in_range ctx x f y); auto; lia.
Qed.

Lemma mul_rng (x y : Dec.Decimal) : wf x -> wf y -> post (in_range ctx) (mul ctx x y).
Proof. unfold mul, wf. intros Hx Hy. apply fix_rng. unfold wf. cbn [coef]. nia. Qed.

Lemma add_rng (x y : Dec.Decimal) : wf x -> wf y -> post (in_range ctx) (add ctx x y).
Proof.
  unfold add, wf. intros Hx Hy. cbv zeta.
  destruct ((coef x =? 0) && (coef y =? 0)).
  { apply fix_rng. unfold wf. cbn [coef]. lia. }
  destruct (coef x =? 0).
  { apply fix_rng. unfold wf. cbn [coef].
    apply Z.mul_nonneg_nonneg; [exact Hy | apply Z.pow_nonneg; lia]. }
  destruct (coef y =? 0).
  { apply fix_rng. unfold wf. cbn [coef].
    apply Z.mul_nonneg_nonneg; [exact Hx | apply Z.pow_nonneg; lia]. }
  destruct (normalize (prec ctx) x y) as [[c1 c2] en].
  match goal with |- context [if ?b then _ else _] => destruct b end;
    apply fix_rng; unfold wf; cbn [coef]; lia.
Qed.

Lemma sub_rng (x y : Dec.Decimal) : wf x -> wf y -> post (in_range ctx) (sub ctx x y).
Proof. intros Hx Hy. unfold sub. apply add_rng; [exact Hx | exact Hy]. Qed.

Lemma div_rng (x y : Dec.Decimal) : wf x -> wf y -> post (in_range ctx) (div ctx x y).
Proof.
  unfold div, wf. intros Hx Hy. cbv zeta.
  destruct (coef y =? 0) eqn:Ey.
  { destruct (coef x =? 0); intros f a E; discriminate. }
  apply Z.eqb_neq in Ey.
  destruct (coef x =? 0).
  { apply fix_rng. unfold wf. cbn [coef]. lia. }
  set (shift := ndigits (coef y) - ndigits (coef x) + prec ctx + 1).
  set (nm := if 0 <=? shift then (coef x * 10 ^ shift, coef y)
             else (coef x, coef y * 10 ^ (- shift))).
  assert (Hnm : 0 <= fst nm /\ 0 < snd nm).
  { unfold nm. destruct (0 <=? shift) eqn:Es; cbn [fst snd].
    - split; [| lia]. apply Z.mul_nonneg_nonneg; [exact Hx | apply Z.pow_nonneg; lia].
    - apply Z.leb_gt in Es. split; [exact Hx |].
      apply Z.mul_pos_pos; [lia | apply pow10_pos; lia]. }
  destruct nm as [n m]. cbn [fst snd] in Hnm. destruct Hnm as [Hn Hm].
  assert (Hq : 0 <= n / m) by (apply Z.div_pos; lia).
  destruct (n mod m =? 0).
  - pose proof (strip_zeros_nonneg
                  (Z.to_nat (expo x - expo y - (expo x - expo y - shift)))
                  (n / m) (expo x - expo y - shift) (expo x - expo y) Hq) as Hs.
    destruct (strip_zeros _ _ _ _) as [q e]. cbn [fst] in Hs.
    apply fix_rng. exact Hs.
  - apply fix_rng. unfold wf. cbn [coef]. destruct (n / m mod 5 =? 0); lia.
Qed.

Lemma sqrt_rng (x : Dec.Decimal) : wf x -> post (in_range ctx) (sqrt ctx x).
Proof.
  unfold sqrt, wf. intros Hx. cbv zeta.
  destruct (coef x =? 0).
  { apply fix_rng. unfold wf. cbn [coef]. lia. }
  destruct (sign x); [intros f a E; discriminate |].
  set (cl := if Z.odd (expo x) then (coef x * 10, ndigits (coef x) / 2 + 1)
             else (coef x, (ndigits (coef x) + 1) / 2)).
  destruct cl as [c l].
  set (shift := prec ctx + 1 - l).
  set (ce := if 0 <=? shift then (c * 100 ^ shift, true)
             else (c / 100 ^ (- shift), c mod 100 ^ (- shift) =? 0)).
  destruct ce as [c' exact].
  match goal with |- context [if ?b then _ else _] => destruct b end.
  - apply fix_rng. unfold wf. cbn [coef].
    pose proof (Z.sqrt_nonneg c') as Hs.
    destruct (0 <=? shift) eqn:Es.
    + apply Z.leb_le in Es. apply Z.div_pos; [exact Hs | apply pow10_pos; exact Es].
    + apply Z.mul_nonneg_nonneg; [exact Hs | apply Z.pow_nonneg; lia].
  - apply fix_rng. unfold wf. cbn [coef].
    pose proof (Z.sqrt_nonneg c') as Hs. destruct (Z.sqrt c' mod 5 =? 0); lia.
Qed.

Lemma pow_uint_wf (wctx : context) (base : Dec.Decimal) (n : positive) :
  1 <= prec wctx -> Etiny wctx <= Emax wctx -> wf base ->
  post wf (pow_uint wctx base n).
Proof.
  intros Hp HE Hb.
  assert (Hmul : forall a b, wf a -> wf b -> post wf (mul wctx a b)).
  { intros a b Ha Hb' f y E. unfold mul in E.
    apply (fix_in_range wctx _ f y Hp HE) in E; [apply E |].
    unfold wf in *. cbn [coef]. nia. }
  induction n as [n IH | n IH |]; cbn [pow_uint].
  - eapply post_bind; [exact IH | intros r Hr].
    eapply post_bind; [apply Hmul; exact Hr | intros r2 Hr2].
    apply Hmul; assumption.
  - eapply post_bind; [exact IH | intros r Hr]. apply Hmul; exact Hr.
  - apply post_ret. exact Hb.
Qed.

Lemma pow_rng (x : Dec.Decimal) (n : positive) :
  wf x -> post (in_range ctx) (pow ctx x n).
Proof.
  destruct Hctx as (Hp & Ht & Hm).
  intros Hx. unfold pow.
  destruct (coef x =? 0).
  { apply post_ret. unfold in_range, representable, wf. cbn [coef expo].
    change (0 =? 0) with true. cbv iota.
    repeat split; [lia | vm_compute ndigits; lia | lia | lia]. }
  cbv zeta. pose proof (ndigits_ge_1 (Zpos n)) as Hn.
  eapply post_bind; [| intros r Hr; apply fix_rng; exact Hr].
  apply pow_uint_wf; [cbn [prec set_prec]; lia | | exact Hx].
  unfold Etiny in *. cbn [prec Emin Emax set_prec]. lia.
Qed.

Lemma rng_wf (m : M Dec.Decimal) : post (in_range ctx) m -> post wf m.
Proof. intros H f a E. apply (H f a E). Qed.

Lemma lift2_rng (op : Dec.Decimal -> Dec.Decimal -> M Dec.Decimal) (X Y : M Dec.Decimal) :
  (forall a b, wf a -> wf b -> post (in_range ctx) (op a b)) ->
  post wf X -> post wf Y -> post (in_range ctx) (lift2 op X Y).
Proof.
  intros Hop HX HY. unfold lift2.
  eapply post_bind; [exact HX | intros a Ha].
  eapply post_bind; [exact HY | intros b Hb]. apply Hop; assumption.
Qed.

Lemma lift1_rng (op : Dec.Decimal -> M Dec.Decimal) (X : M Dec.Decimal) :
  (forall a, wf a -> post (in_range ctx) (op a)) ->
  post wf X -> post (in_range ctx) (lift1 op X).
Proof.
  intros Hop HX. unfold lift1. eapply post_bind; [exact HX | intros a Ha].
  apply Hop; assumption.
Qed.

End Operations.

Lemma of_Z_wf (n : Z) : wf (of_Z n).
Proof. unfold wf, of_Z. cbn [coef]. lia. Qed.

(** Syntax-directed: every operation of an expression returns a number in
    range, provided its leaves are well formed. *)
Ltac rng :=
  lazymatch goal with
  | |- post wf (ret (of_Z _)) => apply post_ret, of_Z_wf
  | |- post wf (ret _) =>
      apply post_ret;
      first [assumption
            | match goal with H : in_range _ ?x |- wf ?x => exact (in_range_wf _ _ H) end]
  | |- post wf _ => eapply rng_wf; rng
  | |- post (in_range _) (lift2 (mul _) _ _) =>
      apply lift2_rng; [intros; apply mul_rng; assumption | rng | rng]
  | |- post (in_range _) (lift2 (add _) _ _) =>
      apply lift2_rng; [intros; apply add_rng; assumption | rng | rng]
  | |- post (in_range _) (lift2 (sub _) _ _) =>
      apply lift2_rng; [intros; apply sub_rng; assumption | rng | rng]
  | |- post (in_range _) (lift2 (div _) _ _) =>
      apply lift2_rng; [intros; apply div_rng; assumption | rng | rng]
  | |- post (in_range _) (lift1 (sqrt _) _) =>
      apply lift1_rng; [intros; apply sqrt_rng; assumption | rng]
  | |- post (in_range _) (lift1 (fun a => pow _ a _) _) =>
      apply lift1_rng; [intros; apply pow_rng; assumption | rng]
  end.

Section ProgramRange.

Variable ctx : context.
Hypothesis Hctx : usual_context ctx.

Lemma compute_tau_rng (c s lam d p : Dec.Decimal) :
  wf c -> wf s -> wf lam -> wf d -> wf p ->
  post (fun t => in_range ctx (fst t) /\ in_range ctx (snd t))
       (@compute_tau _ (Decimal_Number ctx) c s lam d p).
Proof.
  intros Hc Hs Hl Hd Hp. unfold compute_tau.
  cbn [num_add num_sub num_mul num_div num_sqrt num_pow of_int Decimal_Number].
  apply (post_bind (in_range ctx)); [rng | intros c_over_d Hcd].
  apply (post_bind (in_range ctx)); [rng | intros s_over_d Hsd].
  apply (post_bind (in_range ctx)); [rng | intros term1 Ht1].
  apply (post_bind (in_range ctx)); [rng | intros term2 Ht2].
  apply (post_bind (in_range ctx)); [rng | intros dFactor HdF].
  apply (post_bind (in_range ctx)); [rng | intros tau_x Hx].
  apply (post_bind (in_range ctx)); [rng | intros tau_y Hy].
  apply post_ret. cbn [fst snd]. split; assumption.
Qed.

Lemma derive_rng (prm : params Dec.Decimal) :
  wf (alpha prm) -> wf (beta prm) -> wf (c prm) -> wf (s prm) -> wf (lam prm) ->
  post (fun dv => Forall (in_range ctx) (scaled_values dv))
       (@derive _ (Decimal_Number ctx) prm).
Proof.
  destruct prm as [pa pb pc ps pl]. cbn [alpha beta c s lam].
  intros Ha Hb Hc Hs Hl. unfold derive.
  cbn [num_add num_sub num_mul num_div num_sqrt num_pow of_int Decimal_Number].
  apply (post_bind (in_range ctx)); [rng | intros dSq0 HdSq].
  eapply post_bind;
    [apply sqrt_rng; [exact Hctx | exact (in_range_wf _ _ HdSq)] | intros d0 Hd].
  eapply post_bind;
    [apply compute_tau_rng; first [assumption | exact (in_range_wf _ _ Hd)]
    | intros [tax tay] [Hax Hay]].
  eapply post_bind;
    [apply compute_tau_rng; first [assumption | exact (in_range_wf _ _ Hd)]
    | intros [tbx tby] [Hbx Hby]].
  cbn [fst snd] in *.
  apply (post_bind (in_range ctx)); [rng | intros u0 Hu].
  apply (post_bind (in_range ctx)); [rng | intros v0 Hv].
  apply (post_bind (in_range ctx)); [rng | intros w0 Hw].
  apply (post_bind (in_range ctx)); [rng | intros z0 Hz].
  apply post_ret. unfold scaled_values.
  cbn [tauAlpha_x tauAlpha_y tauBeta_x tauBeta_y u v w z dSq].
  repeat (apply Forall_cons; [assumption |]). apply Forall_nil.
Qed.

End ProgramRange.

End RangeFacts.

(** ** The scaling step on every number in range *)

Module ScaleFacts.
Import Dec DecFacts RangeFacts.

Lemma to_int38_unfold (ctx : context) (SCALE x : Dec.Decimal) :
  @to_int38 _ (Decimal_Number ctx) SCALE x =
  bind (mul ctx x SCALE) (fun scaled => ret (to_int scaled)).
Proof.
  unfold to_int38. cbn [num_mul num_int Decimal_Number]. rewrite lift2_ret. reflexivity.
Qed.

Lemma mul_SCALE_38_overflow (ctx : context) (x : Dec.Decimal) :
  0 < coef x -> Emax ctx + 1 < ndigits (coef x) + expo x + 38 ->
  mul ctx x script_SCALE_38 = (false, Raise Overflow).
Proof.
  intros Hc Hov. unfold mul, script_SCALE_38. cbn [sign coef expo].
  unfold fix_. cbn [sign coef expo].
  assert (Hp38 : 0 < 10 ^ 38) by (apply pow10_pos; lia).
  destruct (coef x * 10 ^ 38 =? 0) eqn:E0; [apply Z.eqb_eq in E0; nia |].
  rewrite ndigits_mul_pow10 by lia. cbv zeta. unfold Etop.
  destruct (Emax ctx - prec ctx + 1 <? ndigits (coef x) + 38 + (expo x + 0) - prec ctx) eqn:E1;
    [reflexivity | apply Z.ltb_ge in E1; lia].
Qed.

(** The product with [10^38] of a representable number is exact, and
    [int()] truncates it. *)
Lemma to_int38_scaled (x : Dec.Decimal) :
  representable script_context x ->
  coef x = 0 \/ ndigits (coef x) + expo x + 38 <= Emax script_context + 1 ->
  exists n, to_int38 script_SCALE_38 x = (false, Ok n) /\ truncated_38 x n.
Proof.
  intros Hrep Hov.
  set (x38 := mkDec (sign x) (coef x * 10 ^ 38) (expo x)).
  assert (Hwf38 : wf x38).
  { destruct Hrep as [Hwf _]. unfold wf in *. cbn [coef x38].
    pose proof (pow10_pos 38). lia. }
  assert (HQ : (to_Q x38 == to_Q x * inject_Z (10 ^ 38))%Q).
  { unfold to_Q, x38. cbn [sign coef expo].
    destruct (sign x); rewrite <- ?Z.mul_opp_l, inject_Z_mult;
      generalize (inject_Z (10 ^ 38)); intros; ring. }
  assert (Hint : exists y, mul script_context x script_SCALE_38 = (false, Ok y) /\
                           to_int y = to_int x38).
  { destruct Hrep as (Hwf & Hdig & Hexp). unfold wf in Hwf.
    destruct (Z.eq_dec (coef x) 0) as [E0 | E0].
    - unfold mul, fix_. cbn [sign coef expo].
      rewrite E0, Z.mul_0_l. cbn [Z.eqb].
      eexists. split; [reflexivity |].
      rewrite !to_int_zero;
        [reflexivity | unfold Zr, x38; cbn [coef]; lia | reflexivity].
    - destruct (mul_SCALE_38_exact script_context x)
        as (y & Hy & Hsy & Hey & Hcy); [repeat split; assumption | lia | lia |].
      exists y. split; [exact Hy |]. unfold x38.
      destruct y as [sy cy ey]. cbn [sign coef expo] in *. subst sy.
      apply to_int_same_value; assumption. }
  destruct Hint as (y & Hy & Hyx).
  exists (to_int y). split.
  - change (@to_int38 _ (Decimal_Number script_context) script_SCALE_38 x
            = (false, Ok (to_int y))).
    rewrite to_int38_unfold, Hy. reflexivity.
  - rewrite Hyx. destruct (to_int_truncates x38 Hwf38) as [H1 H2].
    split; intros H.
    + rewrite <- (Qfloor_comp _ _ HQ). apply H1. rewrite HQ.
      apply Qmult_le_0_compat; [exact H |].
      change 0%Q with (inject_Z 0). rewrite <- Zle_Qle.
      pose proof (pow10_pos 38); lia.
    + rewrite <- (Qceiling_comp _ _ HQ). apply H2. rewrite HQ.
      setoid_replace 0%Q with (0 * inject_Z (10 ^ 38))%Q by ring.
      apply Qmult_lt_compat_r; [| exact H].
      change 0%Q with (inject_Z 0). rewrite <- Zlt_Qlt. apply pow10_pos; lia.
Qed.

(** The scaling step of a representable number returns or overflows; the
    test tells which. *)
Lemma to_int38_cases (x : Dec.Decimal) :
  representable script_context x ->
  if negb (coef x =? 0) && (Emax script_context + 1 <? ndigits (coef x) + expo x + 38)
  then to_int38 script_SCALE_38 x = (false, Raise Overflow)
  else exists n, to_int38 script_SCALE_38 x = (false, Ok n) /\ truncated_38 x n.
Proof.
  intros Hrep.
  destruct (coef x =? 0) eqn:E0; cbn [negb andb].
  { apply Z.eqb_eq in E0. apply to_int38_scaled; [exact Hrep | left; exact E0]. }
  apply Z.eqb_neq in E0.
  destruct (Emax script_context + 1 <? ndigits (coef x) + expo x + 38) eqn:E1.
  - apply Z.ltb_lt in E1.
    change (@to_int38 _ (Decimal_Number script_context) script_SCALE_38 x
            = (false, Raise Overflow)).
    rewrite to_int38_unfold, mul_SCALE_38_overflow; [reflexivity | | exact E1].
    destruct Hrep as (Hwf & _). unfold wf in Hwf. lia.
  - apply Z.ltb_ge in E1. apply to_int38_scaled; [exact Hrep | right; lia].
Qed.

(** Whenever the scaling step returns, it returns the truncation. *)
Lemma to_int38_post (x : Dec.Decimal) :
  representable script_context x ->
  post (truncated_38 x) (to_int38 script_SCALE_38 x).
Proof.
  intros Hrep f n E. pose proof (to_int38_cases x Hrep) as H.
  destruct (negb (coef x =? 0) && _).
  - rewrite H in E. discriminate.
  - destruct H as (n' & En & Ht). rewrite En in E. inversion E; subst. exact Ht.
Qed.

Lemma scale_rel (N : Number Dec.Decimal) (R : Dec.Decimal -> Z -> Prop)
      (SCALE : Dec.Decimal) (dv : derived Dec.Decimal) :
  Forall (fun x => post (R x) (to_int38 SCALE x)) (scaled_values dv) ->
  post (fun cs => Forall2 R (scaled_values dv) (constants_list cs)) (scale SCALE dv).
Proof.
  unfold scaled_values. intros H.
  repeat match goal with
         | H : Forall _ (_ :: _) |- _ => apply Forall_cons_iff in H; destruct H as [? H]
         end.
  unfold scale.
  repeat (eapply post_bind; [eassumption | intros ? ?]).
  apply post_ret. unfold constants_list.
  cbn [tauAlpha_x_38 tauAlpha_y_38 tauBeta_x_38 tauBeta_y_38 u_38 v_38 w_38 z_38 dSq_38].
  repeat (apply Forall2_cons; [assumption |]). apply Forall2_nil.
Qed.

(** *** Negation *)

Lemma fix_negate (ctx : context) (x : Dec.Decimal) :
  fix_ ctx (copy_negate x) = bind (fix_ ctx x) (fun y => ret (copy_negate y)).
Proof.
  unfold fix_, copy_negate. cbn [sign coef expo]. cbv zeta.
  repeat match goal with
         | |- context [if ?b then _ else _] => destruct b
         end;
    unfold bind, ret, raise; cbn [sign coef expo]; rewrite ?orb_false_r; reflexivity.
Qed.

Lemma mul_negate_l (ctx : context) (x y : Dec.Decimal) :
  mul ctx (copy_negate x) y = bind (mul ctx x y) (fun r => ret (copy_negate r)).
Proof.
  unfold mul. rewrite <- fix_negate. unfold copy_negate. cbn [sign coef expo].
  destruct (sign x), (sign y); reflexivity.
Qed.

Lemma to_int38_negate (ctx : context) (SCALE x : Dec.Decimal) :
  @to_int38 _ (Decimal_Number ctx) SCALE (copy_negate x) =
  bind (@to_int38 _ (Decimal_Number ctx) SCALE x) (fun n => ret (- n)).
Proof.
  rewrite !to_int38_unfold, mul_negate_l.
  destruct (mul ctx x SCALE) as [f [y | e]]; cbn; [| reflexivity].
  rewrite to_int_negate. reflexivity.
Qed.

(** *** Consequences of the truncation *)

Local Open Scope Q_scope.

Lemma scale_38_pos : 0 < inject_Z (10 ^ 38).
Proof. change 0 with (inject_Z 0). rewrite <- Zlt_Qlt. apply pow10_pos. lia. Qed.

Lemma truncated_38_monotone (x y : Dec.Decimal) (n m : Z) :
  truncated_38 x n -> truncated_38 y m -> to_Q x <= to_Q y -> (n <= m)%Z.
Proof.
  intros [Hx1 Hx2] [Hy1 Hy2] Hxy.
  assert (Hs : to_Q x * inject_Z (10 ^ 38) <= to_Q y * inject_Z (10 ^ 38)).
  { apply Qmult_le_compat_r; [exact Hxy | apply Qlt_le_weak, scale_38_pos]. }
  destruct (Qlt_le_dec (to_Q x) 0) as [Hx | Hx];
    destruct (Qlt_le_dec (to_Q y) 0) as [Hy | Hy].
  - rewrite (Hx2 Hx), (Hy2 Hy). apply Qceiling_resp_le. exact Hs.
  - rewrite (Hx2 Hx), (Hy1 Hy).
    apply Z.le_trans with 0%Z.
    + change 0%Z with (Qceiling 0). apply Qceiling_resp_le.
      setoid_replace 0 with (0 * inject_Z (10 ^ 38)) by ring.
      apply Qmult_le_compat_r; [apply Qlt_le_weak; exact Hx |].
      apply Qlt_le_weak, scale_38_pos.
    + change 0%Z with (Qfloor 0). apply Qfloor_resp_le.
      apply Qmult_le_0_compat; [exact Hy | apply Qlt_le_weak, scale_38_pos].
  - exfalso. apply (Qlt_irrefl 0).
    apply Qle_lt_trans with (to_Q x); [exact Hx |].
    apply Qle_lt_trans with (to_Q y); assumption.
  - rewrite (Hx1 Hx), (Hy1 Hy). apply Qfloor_resp_le. exact Hs.
Qed.

(** The truncation is within one unit of the scaled value, on the side of
    zero. *)
Lemma truncated_38_bounds (x : Dec.Decimal) (n : Z) :
  truncated_38 x n ->
  (0 <= to_Q x ->
   inject_Z n <= to_Q x * inject_Z (10 ^ 38) < inject_Z n + 1 /\ (0 <= n)%Z) /\
  (to_Q x < 0 ->
   inject_Z n - 1 < to_Q x * inject_Z (10 ^ 38) <= inject_Z n /\ (n <= 0)%Z).
Proof.
  intros [H1 H2]. split; intros H.
  - rewrite (H1 H). repeat split.
    + apply Qfloor_le.
    + rewrite <- (inject_Z_plus _ 1). apply Qlt_floor.
    + change 0%Z with (Qfloor 0). apply Qfloor_resp_le.
      apply Qmult_le_0_compat; [exact H | apply Qlt_le_weak, scale_38_pos].
  - rewrite (H2 H). repeat split.
    + change (inject_Z (Qceiling (to_Q x * inject_Z (10 ^ 38))) - 1)
        with (inject_Z (Qceiling (to_Q x * inject_Z (10 ^ 38))) + inject_Z (- 1)).
      rewrite <- inject_Z_plus. apply Qceiling_lt.
    + apply Qle_ceiling.
    + change 0%Z with (Qceiling 0). apply Qceiling_resp_le.
      setoid_replace 0 with (0 * inject_Z (10 ^ 38)) by ring.
      apply Qmult_le_compat_r; [apply Qlt_le_weak; exact H |].
      apply Qlt_le_weak, scale_38_pos.
Qed.

(** A number with at most 38 decimal places is scaled exactly. *)
Lemma truncated_38_exact (x : Dec.Decimal) (n : Z) :
  (- 38 <= expo x)%Z -> truncated_38 x n ->
  inject_Z n == to_Q x * inject_Z (10 ^ 38).
Proof.
  intros He [H1 H2].
  assert (E1 : inject_Z (10 ^ (expo x + 38)) == pow10Q (expo x) * inject_Z (10 ^ 38)).
  { rewrite <- (pow10Q_nonneg (expo x + 38)) by lia.
    rewrite <- (pow10Q_nonneg 38) by lia.
    unfold pow10Q. apply Qpower_plus. discriminate. }
  assert (HZ : to_Q x * inject_Z (10 ^ 38) ==
               inject_Z ((if sign x then - coef x else coef x) * 10 ^ (expo x + 38))).
  { unfold to_Q. rewrite inject_Z_mult, E1.
    generalize (inject_Z (10 ^ 38)). intros. ring. }
  destruct (Qlt_le_dec (to_Q x) 0) as [Hx | Hx].
  - rewrite (H2 Hx), (Qceiling_comp _ _ HZ), Qceiling_Z. symmetry. exact HZ.
  - rewrite (H1 Hx), (Qfloor_comp _ _ HZ), Qfloor_Z. symmetry. exact HZ.
Qed.

Local Close Scope Q_scope.

End ScaleFacts.

(** ** Misconfigured parameters *)

Module EdgeFacts.
Import Dec DecFacts RangeFacts.

Lemma bind_Raise_l {A B} (f : bool) (e : exn) (k : A -> M B) :
  bind (f, Raise e) k = (f, Raise e).
Proof. reflexivity. Qed.

Lemma div_by_zero (ctx : context) (x y : Dec.Decimal) :
  coef y = 0 ->
  div ctx x y = raise (if coef x =? 0 then InvalidOperation else DivisionByZero).
Proof. intros Hy. unfold div. rewrite Hy. cbn [Z.eqb]. destruct (coef x =? 0); reflexivity. Qed.

Lemma pow_zero (ctx : context) (x : Dec.Decimal) (n : positive) :
  coef x = 0 -> exists z, pow ctx x n = ret z /\ coef z = 0.
Proof. intros Hx. unfold pow. rewrite Hx. cbn [Z.eqb]. eexists. split; reflexivity. Qed.

Lemma not_Ok_raises {A} (m : M A) :
  (forall f a, m <> (f, Ok a)) -> exists f e, m = (f, Raise e).
Proof.
  intros H. destruct m as [f [a | e]]; [destruct (H f a eq_refl) | eauto].
Qed.

End EdgeFacts.

(** ** Operations that are exact *)

Module ExactFacts.
Import Dec DecFacts RangeFacts ScaleFacts.

Lemma same_value_to_Q (x y : Dec.Decimal) : same_value x y -> (to_Q y == to_Q x)%Q.
Proof.
  intros (Hs & He & Hc). unfold to_Q. rewrite Hs, <- Hc.
  assert (E2 : (pow10Q (expo y) == inject_Z (10 ^ (expo y - expo x)) * pow10Q (expo x))%Q).
  { rewrite <- (pow10Q_nonneg (expo y - expo x)) by lia.
    unfold pow10Q. rewrite <- Qpower_plus by discriminate.
    replace (expo y - expo x + expo x) with (expo y) by lia. reflexivity. }
  rewrite E2.
  destruct (sign x); rewrite <- ?Z.mul_opp_l, inject_Z_mult;
    generalize (inject_Z (10 ^ (expo y - expo x))); intros; ring.
Qed.

(** Dropping zeros only: a coefficient [c0 * 10^j] whose significant part
    [c0] fits the precision, at an exponent whose [j]-th place is not
    below [Etiny], is rounded without loss. *)
Lemma fix_exact (ctx : context) (x : Dec.Decimal) (c0 j : Z) (f : bool) (y : Dec.Decimal) :
  1 <= prec ctx -> 0 < c0 -> 0 <= j -> coef x = c0 * 10 ^ j ->
  ndigits c0 <= prec ctx -> Etiny ctx <= expo x + j ->
  fix_ ctx x = (f, Ok y) -> f = false /\ same_value x y.
Proof.
  intros Hprec Hc0 Hj HC Hdig Het H. unfold fix_ in H.
  pose proof (pow10_pos j Hj) as Hpj.
  assert (Hc : 0 < coef x) by nia.
  destruct (coef x =? 0) eqn:E0; [apply Z.eqb_eq in E0; lia |].
  cbv zeta in H.
  assert (HL : ndigits (coef x) = ndigits c0 + j) by (rewrite HC; apply ndigits_mul_pow10; lia).
  rewrite HL in H. pose proof (ndigits_ge_1 c0) as HL0.
  set (L0 := ndigits c0) in *.
  destruct (Etop ctx <? L0 + j + expo x - prec ctx); [discriminate |].
  set (sub := L0 + j + expo x - prec ctx <? Etiny ctx) in *.
  set (exp_min := if sub then Etiny ctx else L0 + j + expo x - prec ctx) in *.
  assert (Hem : exp_min - expo x <= j /\ 0 <= L0 + j + expo x - exp_min).
  { unfold exp_min, sub. destruct (L0 + j + expo x - prec ctx <? Etiny ctx) eqn:Es;
      [apply Z.ltb_lt in Es | apply Z.ltb_ge in Es]; lia. }
  destruct (expo x <? exp_min) eqn:E2.
  2:{ inversion H; subst. split; [reflexivity |]. unfold same_value.
      rewrite Z.sub_diag. repeat split; lia. }
  apply Z.ltb_lt in E2.
  replace (L0 + j + expo x - exp_min <? 0) with false in H
    by (symmetry; apply Z.ltb_ge; lia).
  cbv iota beta in H.
  set (k := exp_min - expo x) in *.
  assert (Hk : 0 < k <= j) by (unfold k; lia).
  assert (Hdiv : coef x = (c0 * 10 ^ (j - k)) * 10 ^ k).
  { rewrite HC, <- Z.mul_assoc, <- Z.pow_add_r by lia. do 2 f_equal. lia. }
  pose proof (pow10_pos k ltac:(lia)) as Hpk.
  assert (Hr : round_half_even (coef x) k = 0).
  { unfold round_half_even. rewrite Hdiv, Z.mod_mul by lia. reflexivity. }
  assert (Hq : coef x / 10 ^ k = c0 * 10 ^ (j - k)).
  { rewrite Hdiv, Z.div_mul by lia. reflexivity. }
  rewrite Hr, Hq in H. cbn [Z.ltb Z.compare Z.eqb negb andb] in H.
  destruct (Etop ctx <? exp_min); [discriminate |].
  inversion H; subst. split; [reflexivity |]. unfold same_value. cbn [sign coef expo].
  fold k. repeat split; [lia | symmetry; exact Hdiv].
Qed.

Lemma to_Q_zero (x : Dec.Decimal) : coef x = 0 -> (to_Q x == 0)%Q.
Proof. intros H. unfold to_Q. rewrite H. destruct (sign x); cbn; ring. Qed.

Section Exact.

Variable ctx : context.
Hypothesis Hctx : usual_context ctx.

Lemma one_in_range : in_range ctx decimal_one.
Proof.
  destruct Hctx as (Hp & Ht & Hm).
  unfold in_range, representable, wf, decimal_one. cbn [coef expo].
  change (ndigits 1) with 1. change (1 =? 0) with false. cbv iota.
  repeat split; lia.
Qed.

(** [1 * y] is [y] for [y] in range. *)
Lemma mul_one_l (y : Dec.Decimal) : in_range ctx y -> mul ctx decimal_one y = ret y.
Proof.
  intros Hy. unfold mul, decimal_one. cbn [sign coef expo].
  rewrite Z.add_0_l. destruct y as [sy cy ey]. cbn [sign coef expo xorb].
  replace (1 * cy) with cy by lia. apply fix_fixed_point. exact Hy.
Qed.

(** The sum of a zero and of a number in range has the value of that
    number. *)
Lemma add_zero_l_value (x y : Dec.Decimal) :
  coef x = 0 -> in_range ctx y ->
  post (fun r => (to_Q r == to_Q y)%Q) (add ctx x y).
Proof.
  destruct Hctx as (Hp & Ht & Hm).
  intros Hx ((Hwf & Hdig & Hexp) & _) f r E. unfold add in E. cbv zeta in E.
  rewrite Hx in E. cbn [Z.eqb andb] in E. unfold wf in Hwf.
  destruct (coef y =? 0) eqn:Ey.
  - apply Z.eqb_eq in Ey. apply fix_zero in E; [| reflexivity].
    rewrite (to_Q_zero r E), (to_Q_zero y Ey). reflexivity.
  - apply Z.eqb_neq in Ey.
    set (e := Z.max (Z.min (expo x) (expo y)) (expo y - prec ctx - 1)) in *.
    apply (fix_exact ctx _ (coef y) (expo y - e)) in E;
      try (cbn [coef expo]; unfold e; lia).
    destruct E as [_ E]. rewrite (same_value_to_Q _ _ E).
    symmetry. apply same_value_to_Q. unfold same_value. cbn [sign coef expo].
    repeat split; unfold e; lia.
Qed.

Lemma add_zero_r_value (x y : Dec.Decimal) :
  in_range ctx x -> coef y = 0 ->
  post (fun r => (to_Q r == to_Q x)%Q) (add ctx x y).
Proof.
  destruct Hctx as (Hp & Ht & Hm).
  intros ((Hwf & Hdig & Hexp) & _) Hy f r E. unfold add in E. cbv zeta in E.
  rewrite Hy in E. cbn [Z.eqb] in E. rewrite andb_true_r in E. unfold wf in Hwf.
  destruct (coef x =? 0) eqn:Ex.
  - apply Z.eqb_eq in Ex. apply fix_zero in E; [| reflexivity].
    rewrite (to_Q_zero r E), (to_Q_zero x Ex). reflexivity.
  - apply Z.eqb_neq in Ex.
    set (e := Z.max (Z.min (expo x) (expo y)) (expo x - prec ctx - 1)) in *.
    apply (fix_exact ctx _ (coef x) (expo x - e)) in E;
      try (cbn [coef expo]; unfold e; lia).
    destruct E as [_ E]. rewrite (same_value_to_Q _ _ E).
    symmetry. apply same_value_to_Q. unfold same_value. cbn [sign coef expo].
    repeat split; unfold e; lia.
Qed.

End Exact.

End ExactFacts.

(** ** The whole run *)

Module RunFacts.
Import Dec DecFacts RangeFacts ScaleFacts ExactFacts.

Lemma script_context_usual : usual_context script_context.
Proof. repeat split; vm_compute; discriminate. Qed.

Lemma script_params_wf :
  wf (alpha script_params) /\ wf (beta script_params) /\ wf (c script_params) /\
  wf (s script_params) /\ wf (lam script_params).
Proof. unfold wf. cbn. repeat split; lia. Qed.

Lemma post_and {A} (P Q : A -> Prop) (m : M A) :
  post P m -> post Q m -> post (fun a => P a /\ Q a) m.
Proof. intros HP HQ f a E. split; [exact (HP f a E) | exact (HQ f a E)]. Qed.

(** A run that returns has gone through steps 1 to 3 and through the
    scaling step. *)
Lemma run_inv (prm : params Dec.Decimal) (f : bool) (o : outputs Dec.Decimal) :
  run SCALE_38 prm = (f, Ok o) ->
  exists f1 f2, derive prm = (f1, Ok (out_derived o)) /\
                scale script_SCALE_38 (out_derived o) = (f2, Ok (out_constants o)).
Proof.
  unfold run. rewrite SCALE_38_eq, bind_Ok_l. intros E.
  apply bind_Ok_inv in E. destruct E as (f1 & dv & f2 & Ed & E & _).
  apply bind_Ok_inv in E. destruct E as (f3 & cs & f4 & Es & E & _).
  apply bind_Ok_inv in E. destruct E as (f5 & sn & f6 & _ & E & _).
  inversion E; subst. cbn [out_derived out_constants]. eauto.
Qed.

Lemma scale_truncates (dv : derived Dec.Decimal) :
  Forall (representable script_context) (scaled_values dv) ->
  post (fun cs => Forall2 truncated_38 (scaled_values dv) (constants_list cs))
       (scale script_SCALE_38 dv).
Proof.
  intros H. apply scale_rel. eapply Forall_impl; [| exact H].
  intros x Hx. apply to_int38_post. exact Hx.
Qed.

Lemma truncated_38_same_value (x y : Dec.Decimal) (n m : Z) :
  truncated_38 x n -> truncated_38 y m -> (to_Q x == to_Q y)%Q -> n = m.
Proof.
  intros Hx Hy E. apply Z.le_antisymm.
  - apply (truncated_38_monotone x y); [assumption .. |]. rewrite E. apply Qle_refl.
  - apply (truncated_38_monotone y x); [assumption .. |]. rewrite E. apply Qle_refl.
Qed.

Section Symmetric.

Variable ctx : context.
Hypothesis Hctx : usual_context ctx.

(** With [c = 1] and [s = 0], [v] has the value of [tauAlpha.y] and [z]
    the value of [tauBeta.x]. *)
Lemma derive_symmetric (prm : params Dec.Decimal) :
  wf (alpha prm) -> wf (beta prm) -> c prm = decimal_one -> wf (s prm) -> coef (s prm) = 0 ->
  wf (lam prm) ->
  post (fun dv => (to_Q (dSq dv) == 1)%Q /\
                  (to_Q (v dv) == to_Q (tauAlpha_y dv))%Q /\
                  (to_Q (z dv) == to_Q (tauBeta_x dv))%Q)
       (@derive _ (Decimal_Number ctx) prm).
Proof.
  destruct prm as [pa pb pc ps pl]. cbn [alpha beta c s lam].
  intros Ha Hb -> Hs Hs0 Hl.
  assert (Hc : wf decimal_one) by (unfold wf, decimal_one; cbn; lia).
  pose proof (one_in_range ctx Hctx) as H1.
  unfold derive.
  cbn [num_add num_sub num_mul num_div num_sqrt num_pow of_int Decimal_Number].
  apply (post_bind (fun r => in_range ctx r /\ (to_Q r == 1)%Q)).
  { apply post_and; [rng |].
    rewrite (lift2_ret (mul ctx) decimal_one decimal_one), (mul_one_l ctx decimal_one H1).
    unfold lift2 at 1. rewrite bind_ret_l.
    eapply post_bind; [apply lmul_zero_l, post_ret; exact Hs0 | intros b Hb0].
    intros f r E. rewrite (add_zero_r_value ctx Hctx decimal_one b H1 Hb0 f r E).
    reflexivity. }
  intros dSq0 [HdSq HdSq1].
  eapply post_bind;
    [apply sqrt_rng; [exact Hctx | exact (in_range_wf _ _ HdSq)] | intros d0 Hd].
  eapply post_bind;
    [apply compute_tau_rng; first [assumption | exact (in_range_wf _ _ Hd)]
    | intros [tax tay] [Hax Hay]].
  eapply post_bind;
    [apply compute_tau_rng; first [assumption | exact (in_range_wf _ _ Hd)]
    | intros [tbx tby] [Hbx Hby]].
  cbn [fst snd] in *.
  eapply post_bind; [apply post_any | intros u0 _].
  apply (post_bind (fun r => (to_Q r == to_Q tay)%Q)).
  { rewrite (lift2_ret (mul ctx) decimal_one decimal_one), (mul_one_l ctx decimal_one H1).
    rewrite (lift2_ret (mul ctx) decimal_one tay), (mul_one_l ctx tay Hay).
    unfold lift2 at 1.
    eapply post_bind; [apply lmul_zero_l, lmul_zero_l, post_ret; exact Hs0 | intros a Ha0].
    rewrite bind_ret_l. apply add_zero_l_value; assumption. }
  intros v0 Hv.
  eapply post_bind; [apply post_any | intros w0 _].
  apply (post_bind (fun r => (to_Q r == to_Q tbx)%Q)).
  { rewrite (lift2_ret (mul ctx) decimal_one decimal_one), (mul_one_l ctx decimal_one H1).
    rewrite (lift2_ret (mul ctx) decimal_one tbx), (mul_one_l ctx tbx Hbx).
    unfold lift2 at 1. rewrite bind_ret_l.
    eapply post_bind; [apply lmul_zero_l, lmul_zero_l, post_ret; exact Hs0 | intros b Hb0].
    apply add_zero_r_value; assumption. }
  intros z0 Hz.
  apply post_ret. cbn [dSq v z tauAlpha_y tauBeta_x]. repeat split; assumption.
Qed.

Lemma truncated_38_one : truncated_38 decimal_one (10 ^ 38).
Proof. split; intros H; [reflexivity | discriminate H]. Qed.

End Symmetric.

End RunFacts.

(** ** Operations that can only overflow *)

Module OverflowFacts.
Import Dec DecFacts RangeFacts.

Lemma overflow_only_ret {A} (P : A -> Prop) (a : A) : P a -> overflow_only P (ret a).
Proof. intros H. exact H. Qed.

Lemma overflow_only_bind {A B} (P : A -> Prop) (Q : B -> Prop) (m : M A) (k : A -> M B) :
  overflow_only P m -> (forall a, P a -> overflow_only Q (k a)) ->
  overflow_only Q (bind m k).
Proof.
  unfold overflow_only, bind. intros Hm Hk. destruct m as [f [a | e]]; cbn [snd] in *.
  - specialize (Hk a Hm). destruct (k a) as [f' r]. exact Hk.
  - exact Hm.
Qed.

Lemma overflow_only_lift2 (P Q R : Dec.Decimal -> Prop)
      (op : Dec.Decimal -> Dec.Decimal -> M Dec.Decimal) (X Y : M Dec.Decimal) :
  overflow_only P X -> overflow_only Q Y ->
  (forall a b, P a -> Q b -> overflow_only R (op a b)) ->
  overflow_only R (lift2 op X Y).
Proof.
  intros HX HY Hop. unfold lift2.
  eapply overflow_only_bind; [exact HX | intros a Ha].
  eapply overflow_only_bind; [exact HY | intros b Hb]. apply Hop; assumption.
Qed.

Lemma overflow_only_lift1 (P R : Dec.Decimal -> Prop)
      (op : Dec.Decimal -> M Dec.Decimal) (X : M Dec.Decimal) :
  overflow_only P X -> (forall a, P a -> overflow_only R (op a)) ->
  overflow_only R (lift1 op X).
Proof. intros HX Hop. unfold lift1. eapply overflow_only_bind; eassumption. Qed.

(** [_fix] keeps the sign bit and raises nothing but Overflow. *)
Lemma fix_overflow_only (ctx : context) (x : Dec.Decimal) :
  1 <= prec ctx -> Etiny ctx <= Emax ctx -> wf x ->
  overflow_only (fun y => wf y /\ sign y = sign x) (fix_ ctx x).
Proof.
  intros Hp HE Hwf. unfold overflow_only.
  destruct (fix_ ctx x) as [f [y | e]] eqn:E; cbn [snd].
  - split; [exact (in_range_wf _ _ (fix_in_range ctx x f y Hp HE Hwf E)) |].
    revert E. unfold fix_. cbv zeta.
    repeat match goal with
           | |- context [if ?b then _ else _] => destruct b
           end;
      intros E; inversion E; reflexivity.
  - revert E. unfold fix_. cbv zeta.
    repeat match goal with
           | |- context [if ?b then _ else _] => destruct b
           end;
      intros E; inversion E; reflexivity.
Qed.

Section Sanity.

Variable ctx : context.
Hypothesis Hctx : usual_context ctx.

Lemma ctx_prec : 1 <= prec ctx /\ Etiny ctx <= Emax ctx.
Proof. destruct Hctx as (Hp & Ht & Hm). lia. Qed.

Lemma mul_overflow_only (x y : Dec.Decimal) :
  wf x -> wf y ->
  overflow_only (fun r => wf r /\ sign r = xorb (sign x) (sign y)) (mul ctx x y).
Proof.
  destruct ctx_prec as [Hp HE]. intros Hx Hy. unfold mul.
  assert (Hwf : wf (mkDec (xorb (sign x) (sign y)) (coef x * coef y) (expo x + expo y)))
    by (unfold wf in *; cbn [coef]; nia).
  exact (fix_overflow_only ctx _ Hp HE Hwf).
Qed.

Lemma pow2_overflow_only (x : Dec.Decimal) :
  wf x -> overflow_only nonneg (pow ctx x 2).
Proof.
  destruct Hctx as (Hp & Ht & Hm). intros Hx. unfold pow.
  destruct (coef x =? 0).
  { apply overflow_only_ret. unfold nonneg, wf. cbn [coef sign Z.odd].
    rewrite andb_false_r. split; [lia | reflexivity]. }
  cbv zeta. cbn [pow_uint]. rewrite bind_ret_l.
  set (wctx := set_prec ctx (prec ctx + (ndigits 2 + 2))).
  assert (Hwp : 1 <= prec wctx)
    by (unfold wctx; cbn [prec set_prec]; pose proof (ndigits_ge_1 2); lia).
  assert (Hwe : Etiny wctx <= Emax wctx).
  { unfold wctx, Etiny in *. cbn [prec Emin Emax set_prec].
    pose proof (ndigits_ge_1 2). lia. }
  assert (Hwf : wf (mkDec (xorb (sign x) (sign x)) (coef x * coef x) (expo x + expo x)))
    by (unfold wf in *; cbn [coef]; nia).
  eapply overflow_only_bind.
  - unfold mul. exact (fix_overflow_only wctx _ Hwp Hwe Hwf).
  - cbn [sign]. intros r [Hr Hs]. rewrite xorb_nilpotent in Hs.
    pose proof (fix_overflow_only ctx r ltac:(lia) ltac:(lia) Hr) as H.
    unfold overflow_only in *. destruct (snd (fix_ ctx r)) as [y | e]; [| exact H].
    destruct H as [Hy Hsy]. split; [exact Hy | congruence].
Qed.

Lemma add_overflow_only (x y : Dec.Decimal) :
  nonneg x -> nonneg y -> overflow_only nonneg (add ctx x y).
Proof.
  destruct ctx_prec as [Hp HE]. unfold nonneg. intros [Hx Hsx] [Hy Hsy].
  assert (Hfix : forall z, wf z -> sign z = false -> overflow_only nonneg (fix_ ctx z)).
  { intros z Hz Hsz. pose proof (fix_overflow_only ctx z Hp HE Hz) as H.
    unfold overflow_only in *. destruct (snd (fix_ ctx z)) as [r | e]; [| exact H].
    destruct H as [Hr Hsr]. split; [exact Hr | congruence]. }
  unfold add. cbv zeta. unfold wf in Hx, Hy.
  destruct ((coef x =? 0) && (coef y =? 0)).
  { apply Hfix; [unfold wf; cbn [coef]; lia | cbn [sign]; rewrite Hsx; reflexivity]. }
  destruct (coef x =? 0) eqn:Ex.
  { apply Hfix; [| exact Hsy]. unfold wf. cbn [coef].
    apply Z.mul_nonneg_nonneg; [exact Hy | apply Z.pow_nonneg; lia]. }
  destruct (coef y =? 0) eqn:Ey.
  { apply Hfix; [| exact Hsx]. unfold wf. cbn [coef].
    apply Z.mul_nonneg_nonneg; [exact Hx | apply Z.pow_nonneg; lia]. }
  apply Z.eqb_neq in Ex, Ey.
  pose proof (normalize_pos (prec ctx) x y ltac:(lia) ltac:(lia)) as [H1 H2].
  destruct (normalize (prec ctx) x y) as [[c1 c2] en]. cbn [fst snd] in H1, H2.
  rewrite Hsx, Hsy.
  destruct (c1 + c2 =? 0) eqn:Ev; [apply Z.eqb_eq in Ev; lia |].
  apply Hfix; [unfold wf; cbn [coef]; lia |].
  cbn [sign]. apply Z.ltb_ge. lia.
Qed.

Lemma sqrt_overflow_only (x : Dec.Decimal) :
  nonneg x -> overflow_only wf (sqrt ctx x).
Proof.
  intros [Hx Hs]. unfold overflow_only.
  destruct (sqrt ctx x) as [f [y | e]] eqn:E; cbn [snd].
  - exact (in_range_wf _ _ (sqrt_rng ctx Hctx x Hx f y E)).
  - revert E. unfold sqrt. rewrite Hs. cbv zeta.
    assert (Hfix : forall z, fix_ ctx z = (f, Raise e) -> e = Overflow).
    { intros z. unfold fix_. cbv zeta.
      repeat match goal with
             | |- context [if ?b then _ else _] => destruct b
             end;
        intros E; inversion E; reflexivity. }
    destruct (coef x =? 0); [apply Hfix |].
    repeat match goal with
           | |- context [let '(_, _) := ?p in _] => destruct p
           | |- context [if ?b then _ else _] => destruct b
           end; apply Hfix.
Qed.

(** The sanity section (lines 129-130) takes no division and no square
    root of a negative number. *)
Lemma sanity_norm_overflow_only (x y lam : Dec.Decimal) :
  wf x -> wf y -> wf lam ->
  overflow_only wf
    (lift1 (sqrt ctx)
       (lift2 (add ctx) (lift1 (fun a => pow ctx a 2) (ret x))
          (lift1 (fun a => pow ctx a 2) (lift2 (mul ctx) (ret y) (ret lam))))).
Proof.
  intros Hx Hy Hl.
  apply (overflow_only_lift1 nonneg); [| intros a Ha; apply sqrt_overflow_only; exact Ha].
  apply (overflow_only_lift2 nonneg nonneg);
    [| | intros a b Ha Hb; apply add_overflow_only; assumption].
  - apply (overflow_only_lift1 wf);
      [apply overflow_only_ret; exact Hx | intros a Ha; apply pow2_overflow_only; exact Ha].
  - apply (overflow_only_lift1 wf); [| intros a Ha; apply pow2_overflow_only; exact Ha].
    apply (overflow_only_lift2 wf wf);
      [apply overflow_only_ret; exact Hy | apply overflow_only_ret; exact Hl |].
    intros a b Ha Hb. pose proof (mul_overflow_only a b Ha Hb) as H.
    unfold overflow_only in *. destruct (snd (mul ctx a b)); [apply H | exact H].
Qed.

Lemma sanity_checks_overflow_only (lam : Dec.Decimal) (dv : derived Dec.Decimal) :
  wf lam -> wf (tauAlpha_x dv) -> wf (tauAlpha_y dv) ->
  wf (tauBeta_x dv) -> wf (tauBeta_y dv) ->
  overflow_only (fun _ => True) (@sanity_checks _ (Decimal_Number ctx) lam dv).
Proof.
  intros Hl Hax Hay Hbx Hby. unfold sanity_checks.
  cbn [num_add num_mul num_sqrt num_pow Decimal_Number].
  apply (overflow_only_bind wf); [apply sanity_norm_overflow_only; assumption | intros na _].
  apply (overflow_only_bind wf); [apply sanity_norm_overflow_only; assumption | intros nb _].
  apply overflow_only_ret. exact I.
Qed.

End Sanity.

End OverflowFacts.

(** ** Signs of the derived values *)

Module SignFacts.
Import Dec DecFacts.

Section Signs.

Variable ctx : context.
Hypothesis Hprec : 1 <= prec ctx.

(** With [c > 0] and [s >= 0], and no underflow, [tau.y] is positive; with
    [s = 0] so is [tau.x]. *)
Lemma compute_tau_signs (c s lam d p : Dec.Decimal) :
  SG (eq 1) c -> SG (fun z => z = 0 \/ z = 1) s ->
  SG (eq 1) lam -> SG (eq 1) d -> SG (eq 1) p ->
  safe (fun t => SG (fun z => sgn s = 0 -> z = 1) (fst t) /\ SG (eq 1) (snd t))
       (@compute_tau _ (Decimal_Number ctx) c s lam d p).
Proof.
  intros Hc Hs Hlam Hd Hp.
  assert (Hs' : SG (eq (sgn s)) s) by (apply SG_sgn, Hs).
  assert (Rs : sgn s = 0 \/ sgn s = 1) by apply Hs.
  unfold compute_tau.
  cbn [num_add num_sub num_mul num_div num_sqrt num_pow of_int Decimal_Number].
  set (b := sgn s) in *. clearbody b. clear Hs.
  eapply safe_bind; [sg Hprec | intros c_over_d Hcod].
  { intros; lia. }
  eapply safe_bind; [sg Hprec | intros s_over_d Hsod].
  { intros; lia. }
  eapply safe_bind; [sg Hprec | intros term1 Hterm1].
  { sg_side. }
  eapply safe_bind; [sg Hprec | intros term2 Hterm2].
  eapply safe_bind; [sg Hprec | intros dFactor HdFactor].
  { sg_side. }
  { sg_side. }
  eapply safe_bind; [sg Hprec | intros tau_x Htau_x].
  eapply safe_bind; [sg Hprec | intros tau_y Htau_y].
  { sg_side. }
  apply safe_ret. cbn [fst snd]. split.
  - apply (SG_weaken _ _ _ Htau_x). intros z Hz Hb. subst b. revert z Hz. sg_side.
  - apply (SG_weaken _ _ _ Htau_y). sg_side.
Qed.

Lemma derive_signs (prm : params Dec.Decimal) :
  valid_params prm -> sgn (c prm) = 1 -> sgn (s prm) = 0 \/ sgn (s prm) = 1 ->
  safe (fun dv =>
          (SG (eq 1) (dSq dv) /\ SG (eq 1) (tauAlpha_y dv) /\ SG (eq 1) (tauBeta_y dv) /\
           SG (eq 1) (v dv)) /\
          (sgn (s prm) = 0 ->
           SG (eq 1) (tauAlpha_x dv) /\ SG (eq 1) (tauBeta_x dv) /\ SG (eq 1) (z dv)))
       (@derive _ (Decimal_Number ctx) prm).
Proof.
  unfold valid_params. destruct prm as [pa pb pc ps pl]. cbn [alpha beta c s lam].
  intros (Ha & Hb & Hc & Hs & Hl & Hcs & Sl & Sa & Sb) Hc1 Hs01.
  assert (Hlam : SG (eq 1) pl) by (apply SG_positive; tauto).
  assert (Halpha : SG (eq 1) pa) by (apply SG_positive; tauto).
  assert (Hbeta : SG (eq 1) pb) by (apply SG_positive; tauto).
  assert (HC : SG (eq 1) pc) by (split; [exact Hc | symmetry; exact Hc1]).
  assert (HS : SG (fun z => z = 0 \/ z = 1) ps) by (split; assumption).
  assert (HS' : SG (eq (sgn ps)) ps) by (apply SG_sgn; exact Hs).
  pose proof (compute_tau_signs pc ps pl) as Htau.
  set (b := sgn ps) in *. clearbody b.
  unfold derive.
  cbn [num_add num_sub num_mul num_div num_sqrt num_pow of_int Decimal_Number].
  eapply safe_bind; [sg Hprec | intros dSq0 HdSq].
  assert (HdSq1 : SG (eq 1) dSq0) by (apply (SG_weaken _ _ _ HdSq); sg_side).
  eapply safe_bind; [apply (sqrt_SG _ Hprec _ _ HdSq1); intros; lia | intros d0 Hd].
  eapply safe_bind; [apply Htau; assumption | intros [tax tay] [Hax Hay]].
  eapply safe_bind; [apply Htau; assumption | intros [tbx tby] [Hbx Hby]].
  cbn [fst snd] in *.
  eapply safe_bind; [sg Hprec | intros u0 Hu].
  eapply safe_bind; [sg Hprec | intros v0 Hv].
  eapply safe_bind; [sg Hprec | intros w0 Hw].
  eapply safe_bind; [sg Hprec | intros z0 Hz].
  apply safe_ret. cbn [dSq tauAlpha_x tauAlpha_y tauBeta_x tauBeta_y v z].
  split.
  - repeat split; try apply HdSq1; try apply Hay; try apply Hby; try apply Hv.
    destruct Hv as [_ Hv]. revert Hv. generalize (sgn v0). clear Hz Hu Hw Hax Hbx Htau.
    destruct Hs01 as [-> | ->]; sg_side.
  - intros Hb0. subst b.
    destruct Hax as [Wax Sax], Hbx as [Wbx Sbx].
    specialize (Sax eq_refl). specialize (Sbx eq_refl).
    repeat split; try assumption; try (symmetry; assumption).
    + apply Hz.
    + destruct Hz as [_ Hz]. revert Hz. generalize (sgn z0). clear Htau. sg_side.
Qed.

End Signs.

Lemma run_inv_flag (prm : params Dec.Decimal) (o : outputs Dec.Decimal) :
  run SCALE_38 prm = (false, Ok o) ->
  derive prm = (false, Ok (out_derived o)) /\
  exists f2, scale script_SCALE_38 (out_derived o) = (f2, Ok (out_constants o)).
Proof.
  unfold run. rewrite SCALE_38_eq, bind_Ok_l. intros E.
  apply bind_Ok_inv in E. destruct E as (f1 & dv & f2 & Ed & E & Hf).
  apply bind_Ok_inv in E. destruct E as (f3 & cs & f4 & Es & E & _).
  apply bind_Ok_inv in E. destruct E as (f5 & sn & f6 & _ & E & _).
  inversion E; subst. cbn [out_derived out_constants].
  symmetry in Hf. apply orb_false_elim in Hf. destruct Hf as [-> _]. eauto.
Qed.

Lemma sgn_nonneg_to_Q (x : Dec.Decimal) :
  wf x -> sgn x = 0 \/ sgn x = 1 -> (0 <= to_Q x)%Q.
Proof.
  intros Hwf H. pose proof (to_Q_sign x Hwf) as Hq. unfold sgn in H.
  destruct (coef x =? 0) eqn:E0.
  - apply Z.eqb_eq in E0. rewrite (ExactFacts.to_Q_zero x E0). apply Qle_refl.
  - destruct (sign x); [lia | exact Hq].
Qed.

Lemma truncated_38_nonneg (x : Dec.Decimal) (n : Z) :
  truncated_38 x n -> (0 <= to_Q x)%Q -> 0 <= n.
Proof.
  intros H Hx. destruct (ScaleFacts.truncated_38_bounds x n H) as [H1 _].
  apply (H1 Hx).
Qed.

End SignFacts.


(** ** The scaling step and the run *)

(** X1: in every context with at least one digit and 0 in its exponent
    range, whenever steps 1 to 3 return on well-formed parameters, each
    of the nine values they hand to the scaling step is a number of the
    context: at most [prec] digits, exponent not below [Etiny], magnitude
    within [Emax]. *)
Theorem derive_values_in_range (ctx : Dec.context) (prm : params Dec.Decimal)
    (f : bool) (dv : derived Dec.Decimal) :
  usual_context ctx ->
  Dec.wf (alpha prm) -> Dec.wf (beta prm) -> Dec.wf (c prm) -> Dec.wf (s prm) ->
  Dec.wf (lam prm) ->
  @derive _ (Decimal_Number ctx) prm = (f, Ok dv) ->
  Forall (in_range ctx) (scaled_values dv).
Proof.
  intros Hctx Ha Hb Hc Hs Hl E.
  exact (RangeFacts.derive_rng ctx Hctx prm Ha Hb Hc Hs Hl f dv E).
Qed.

Lemma derive_values_in_range_witness :
  exists dv, derive script_params = (false, Ok dv) /\
             Forall (in_range script_context) (scaled_values dv).
Proof.
  assert (E : derive script_params = script_derived) by exact derive_script_params.
  unfold script_derived in E.
  destruct RunFacts.script_params_wf as (Ha & Hb & Hc & Hs & Hl).
  eexists. split; [exact E |].
  exact (derive_values_in_range script_context script_params false _
           RunFacts.script_context_usual
           Ha Hb Hc Hs Hl E).
Defined.

(** X2: every run of the script's computation that returns, on
    well-formed parameters, has produced each of its nine constants as the
    truncation toward zero of the corresponding value times 10^38. *)
Theorem run_constants_truncated (prm : params Dec.Decimal) (f : bool)
    (o : outputs Dec.Decimal) :
  Dec.wf (alpha prm) -> Dec.wf (beta prm) -> Dec.wf (c prm) -> Dec.wf (s prm) ->
  Dec.wf (lam prm) ->
  run SCALE_38 prm = (f, Ok o) ->
  Forall2 truncated_38 (scaled_values (out_derived o)) (constants_list (out_constants o)).
Proof.
  intros Ha Hb Hc Hs Hl E.
  destruct (RunFacts.run_inv prm f o E) as (f1 & f2 & Ed & Es).
  apply (RunFacts.scale_truncates (out_derived o)) in Es; [exact Es |].
  eapply Forall_impl;
    [| exact (RangeFacts.derive_rng script_context RunFacts.script_context_usual
                prm Ha Hb Hc Hs Hl f1 _ Ed)].
  intros x Hx. apply Hx.
Qed.

Lemma run_constants_truncated_witness :
  exists o, run SCALE_38 script_params = (false, Ok o) /\
    Forall2 truncated_38 (scaled_values (out_derived o)) (constants_list (out_constants o)).
Proof.
  assert (E : run SCALE_38 script_params = script_main_value) by exact run_script_params.
  unfold script_main_value in E.
  destruct RunFacts.script_params_wf as (Ha & Hb & Hc & Hs & Hl).
  eexists. split; [exact E |].
  exact (run_constants_truncated script_params false _
           Ha Hb Hc Hs Hl E).
Defined.

(** X3: the scaling step commutes with the change of sign: for every
    context, scale and number, [to_int38] of the number with its sign bit
    flipped ends as [to_int38] of the number does (same exception, same
    flag), with the opposite integer. *)
Theorem to_int38_odd (ctx : Dec.context) (SCALE x : Dec.Decimal) :
  @to_int38 _ (Decimal_Number ctx) SCALE (Dec.copy_negate x) =
  (n <- @to_int38 _ (Decimal_Number ctx) SCALE x ;; ret (- n)).
Proof. exact (ScaleFacts.to_int38_negate ctx SCALE x). Qed.

(** X4: for every representable number the scaling step ends in one of
    two ways, told apart by a test on its digits and exponent: it raises
    Overflow when the number is not zero and its product with 10^38
    exceeds the exponent range, and otherwise returns an integer with no
    flag raised. *)
Theorem to_int38_returns_or_overflows (x : Dec.Decimal) :
  Dec.representable script_context x ->
  if negb (Dec.coef x =? 0) &&
     (Dec.Emax script_context + 1 <? Dec.ndigits (Dec.coef x) + Dec.expo x + 38)
  then to_int38 script_SCALE_38 x = (false, Raise Overflow)
  else exists n, to_int38 script_SCALE_38 x = (false, Ok n).
Proof.
  intros Hrep. pose proof (ScaleFacts.to_int38_cases x Hrep) as H.
  destruct (negb (Dec.coef x =? 0) && _); [exact H |].
  destruct H as (n & Hn & _). exists n. exact Hn.
Qed.

Lemma to_int38_returns_or_overflows_witness :
  to_int38 script_SCALE_38 (Dec.mkDec false 1 999990) = (false, Raise Overflow).
Proof.
  assert (H : Dec.representable script_context (Dec.mkDec false 1 999990))
    by (repeat split; vm_compute; discriminate).
  exact (to_int38_returns_or_overflows (Dec.mkDec false 1 999990) H).
Defined.

(** X5: the constant returned for a representable number is within one
    unit of the number times 10^38 and never beyond it: between it and
    zero, with the sign of the number or zero. *)
Theorem to_int38_within_one_unit (x : Dec.Decimal) (f : bool) (n : Z) :
  Dec.representable script_context x ->
  to_int38 script_SCALE_38 x = (f, Ok n) ->
  ((0 <= Dec.to_Q x ->
    inject_Z n <= Dec.to_Q x * inject_Z (10 ^ 38) < inject_Z n + 1 /\ (0 <= n)%Z) /\
   (Dec.to_Q x < 0 ->
    inject_Z n - 1 < Dec.to_Q x * inject_Z (10 ^ 38) <= inject_Z n /\ (n <= 0)%Z))%Q.
Proof.
  intros Hrep E. apply ScaleFacts.truncated_38_bounds.
  exact (ScaleFacts.to_int38_post x Hrep f n E).
Qed.

Lemma to_int38_within_one_unit_witness :
  let x := Dec.mkDec true 19 (-39) in
  ((0 <= Dec.to_Q x ->
    inject_Z (-1) <= Dec.to_Q x * inject_Z (10 ^ 38) < inject_Z (-1) + 1 /\ (0 <= -1)%Z) /\
   (Dec.to_Q x < 0 ->
    inject_Z (-1) - 1 < Dec.to_Q x * inject_Z (10 ^ 38) <= inject_Z (-1) /\ (-1 <= 0)%Z))%Q.
Proof.
  intros x.
  assert (H1 : Dec.representable script_context x)
    by (repeat split; vm_compute; discriminate).
  assert (H2 : to_int38 script_SCALE_38 x = (false, Ok (-1))) by (vm_compute; reflexivity).
  exact (to_int38_within_one_unit x false (-1) H1 H2).
Defined.

(** X6: a representable number with at most 38 decimal places (exponent
    not below -38) is scaled without loss: the integer returned is
    exactly the number times 10^38. *)
Theorem to_int38_exact_up_to_38_places (x : Dec.Decimal) (f : bool) (n : Z) :
  Dec.representable script_context x -> - 38 <= Dec.expo x ->
  to_int38 script_SCALE_38 x = (f, Ok n) ->
  (inject_Z n == Dec.to_Q x * inject_Z (10 ^ 38))%Q.
Proof.
  intros Hrep He E. apply ScaleFacts.truncated_38_exact; [exact He |].
  exact (ScaleFacts.to_int38_post x Hrep f n E).
Qed.

Lemma to_int38_exact_up_to_38_places_witness :
  let x := Dec.mkDec true 1035905 (-6) in
  (inject_Z (- 103590500000000000000000000000000000000)
   == Dec.to_Q x * inject_Z (10 ^ 38))%Q.
Proof.
  intros x.
  assert (H1 : Dec.representable script_context x)
    by (repeat split; vm_compute; discriminate).
  assert (H2 : - 38 <= Dec.expo x) by (vm_compute; discriminate).
  assert (H3 : to_int38 script_SCALE_38 x
               = (false, Ok (- 103590500000000000000000000000000000000)))
    by (vm_compute; reflexivity).
  exact (to_int38_exact_up_to_38_places x false _ H1 H2 H3).
Defined.

(** X7: the scaling step keeps the order: of two representable numbers,
    the one with the smaller value never gets the larger constant. *)
Theorem to_int38_monotone (x y : Dec.Decimal) (fx fy : bool) (n m : Z) :
  Dec.representable script_context x -> Dec.representable script_context y ->
  (Dec.to_Q x <= Dec.to_Q y)%Q ->
  to_int38 script_SCALE_38 x = (fx, Ok n) ->
  to_int38 script_SCALE_38 y = (fy, Ok m) ->
  n <= m.
Proof.
  intros Hx Hy Hxy Ex Ey.
  apply (ScaleFacts.truncated_38_monotone x y); [| | exact Hxy].
  - exact (ScaleFacts.to_int38_post x Hx fx n Ex).
  - exact (ScaleFacts.to_int38_post y Hy fy m Ey).
Qed.

Lemma to_int38_monotone_witness : -1 <= 1.
Proof.
  assert (Hx : Dec.representable script_context (Dec.mkDec true 19 (-39)))
    by (repeat split; vm_compute; discriminate).
  assert (Hy : Dec.representable script_context (Dec.mkDec false 19 (-39)))
    by (repeat split; vm_compute; discriminate).
  assert (Hxy : (Dec.to_Q (Dec.mkDec true 19 (-39)) <= Dec.to_Q (Dec.mkDec false 19 (-39)))%Q)
    by (vm_compute; discriminate).
  assert (Ex : to_int38 script_SCALE_38 (Dec.mkDec true 19 (-39)) = (false, Ok (-1)))
    by (vm_compute; reflexivity).
  assert (Ey : to_int38 script_SCALE_38 (Dec.mkDec false 19 (-39)) = (false, Ok 1))
    by (vm_compute; reflexivity).
  exact (to_int38_monotone _ _ false false (-1) 1 Hx Hy Hxy Ex Ey).
Defined.


(** ** Misconfigured parameters: how the run stops *)

(** X8: when [d] is zero, [compute_tau] stops at its first division
    (line 63), for every context and every other argument: on
    [InvalidOperation] (0/0) when [c] is zero too, on [DivisionByZero]
    otherwise; no flag is raised. *)
Theorem compute_tau_zero_d (ctx : Dec.context) (c s lam d p : Dec.Decimal) :
  Dec.coef d = 0 ->
  @compute_tau _ (Decimal_Number ctx) c s lam d p =
  raise (if Dec.coef c =? 0 then InvalidOperation else DivisionByZero).
Proof.
  intros Hd. unfold compute_tau. cbn [num_div Decimal_Number].
  rewrite lift2_ret, (EdgeFacts.div_by_zero ctx c d Hd). reflexivity.
Qed.

Lemma compute_tau_zero_d_witness :
  @compute_tau _ (Decimal_Number script_context)
     (Dec.mkDec false 1 0) (Dec.mkDec false 0 0) (Dec.mkDec false 50 0)
     (Dec.mkDec false 0 (-3)) (Dec.mkDec false 1035905 (-6))
  = raise DivisionByZero.
Proof.
  exact (compute_tau_zero_d script_context
           (Dec.mkDec false 1 0) (Dec.mkDec false 0 0) (Dec.mkDec false 50 0)
           (Dec.mkDec false 0 (-3)) (Dec.mkDec false 1035905 (-6)) eq_refl).
Defined.

(** X9: when [c] and [s] are both zero, steps 1 to 3 compute
    [dSq = 0] and [d = 0] and stop in the first call of [compute_tau] on
    [InvalidOperation] (the division 0/0 of line 63), whatever the context,
    the price bounds and lambda. *)
Theorem derive_zero_c_s (ctx : Dec.context) (prm : params Dec.Decimal) :
  Dec.coef (c prm) = 0 -> Dec.coef (s prm) = 0 ->
  @derive _ (Decimal_Number ctx) prm = raise InvalidOperation.
Proof.
  destruct prm as [pa pb [sc cc ec] [ss cs es] pl]. cbn [c s Dec.coef].
  intros -> ->. lazy. reflexivity.
Qed.

Lemma derive_zero_c_s_witness :
  derive (mkParams (alpha script_params) (beta script_params)
                   (Dec.mkDec false 0 0) (Dec.mkDec false 0 0) (lam script_params))
  = raise InvalidOperation.
Proof.
  exact (derive_zero_c_s script_context
           (mkParams (alpha script_params) (beta script_params)
                     (Dec.mkDec false 0 0) (Dec.mkDec false 0 0) (lam script_params))
           eq_refl eq_refl).
Defined.

(** X10: when lambda is zero, [compute_tau] never returns: [lam ** 2] is
    zero and the division of line 67 raises (unless an earlier operation
    already has). *)
Theorem compute_tau_zero_lam (ctx : Dec.context) (c s lam d p : Dec.Decimal) :
  Dec.coef lam = 0 ->
  exists f e, @compute_tau _ (Decimal_Number ctx) c s lam d p = (f, Raise e).
Proof.
  intros Hl. apply EdgeFacts.not_Ok_raises. intros f t E.
  unfold compute_tau in E.
  cbn [num_add num_sub num_mul num_div num_sqrt num_pow of_int Decimal_Number] in E.
  apply bind_Ok_inv in E. destruct E as (f1 & c_over_d & f2 & _ & E & _).
  apply bind_Ok_inv in E. destruct E as (f3 & s_over_d & f4 & _ & E & _).
  apply bind_Ok_inv in E. destruct E as (f5 & term1 & f6 & E & _ & _).
  unfold lift2 in E.
  apply bind_Ok_inv in E. destruct E as (f7 & num & f8 & _ & E & _).
  apply bind_Ok_inv in E. destruct E as (f9 & den & f10 & Eden & E & _).
  rewrite lift1_ret in Eden.
  destruct (EdgeFacts.pow_zero ctx lam 2 Hl) as (z0 & Ez & Hz).
  rewrite Ez in Eden. inversion Eden; subst den.
  rewrite (EdgeFacts.div_by_zero ctx num z0 Hz) in E. discriminate.
Qed.

Lemma compute_tau_zero_lam_witness :
  exists f e,
    @compute_tau _ (Decimal_Number script_context)
       (Dec.mkDec false 1 0) (Dec.mkDec false 0 0) (Dec.mkDec false 0 0)
       (Dec.mkDec false 1 0) (Dec.mkDec false 1035905 (-6)) = (f, Raise e).
Proof.
  exact (compute_tau_zero_lam script_context
           (Dec.mkDec false 1 0) (Dec.mkDec false 0 0) (Dec.mkDec false 0 0)
           (Dec.mkDec false 1 0) (Dec.mkDec false 1035905 (-6)) eq_refl).
Defined.

(** ** The symmetric configuration *)

(** X11: in the symmetric configuration [c = 1], [s = 0], for all price
    bounds and every lambda, a run that returns has [dSq] equal in value
    to 1, [v] to [tauAlpha.y] and [z] to [tauBeta.x], and the constants
    agree: [dSq_38 = 10^38], [v_38 = tauAlpha_y_38] and
    [z_38 = tauBeta_x_38]. *)
Theorem symmetric_dSq_v_z (prm : params Dec.Decimal) (f : bool) (o : outputs Dec.Decimal) :
  Dec.wf (alpha prm) -> Dec.wf (beta prm) -> c prm = decimal_one ->
  Dec.wf (s prm) -> Dec.coef (s prm) = 0 -> Dec.wf (lam prm) ->
  run SCALE_38 prm = (f, Ok o) ->
  ((Dec.to_Q (dSq (out_derived o)) == 1)%Q /\
   (Dec.to_Q (v (out_derived o)) == Dec.to_Q (tauAlpha_y (out_derived o)))%Q /\
   (Dec.to_Q (z (out_derived o)) == Dec.to_Q (tauBeta_x (out_derived o)))%Q) /\
  dSq_38 (out_constants o) = 10 ^ 38 /\
  v_38 (out_constants o) = tauAlpha_y_38 (out_constants o) /\
  z_38 (out_constants o) = tauBeta_x_38 (out_constants o).
Proof.
  intros Ha Hb Hc Hs Hs0 Hl E.
  assert (Hwc : Dec.wf (c prm)) by (rewrite Hc; unfold Dec.wf, decimal_one; cbn; lia).
  destruct (RunFacts.run_inv prm f o E) as (f1 & f2 & Ed & Es).
  pose proof (RangeFacts.derive_rng script_context RunFacts.script_context_usual
                prm Ha Hb Hwc Hs Hl f1 _ Ed) as HR.
  assert (HT : Forall2 truncated_38 (scaled_values (out_derived o))
                 (constants_list (out_constants o))).
  { apply (RunFacts.scale_truncates (out_derived o)) in Es; [exact Es |].
    eapply Forall_impl; [| exact HR]. intros x Hx. apply Hx. }
  destruct (RunFacts.derive_symmetric script_context RunFacts.script_context_usual
              prm Ha Hb Hc Hs Hs0 Hl f1 _ Ed) as (Hd & Hv & Hz).
  unfold scaled_values, constants_list in HT.
  repeat match goal with
         | H : Forall2 _ (_ :: _) (_ :: _) |- _ =>
             apply Forall2_cons_iff in H; destruct H as [? H]
         end.
  split; [repeat split; assumption |]. repeat split.
  - eapply RunFacts.truncated_38_same_value;
      [eassumption | exact RunFacts.truncated_38_one |].
    rewrite Hd. reflexivity.
  - eapply RunFacts.truncated_38_same_value; [| | exact Hv]; eassumption.
  - eapply RunFacts.truncated_38_same_value; [| | exact Hz]; eassumption.
Qed.

Lemma symmetric_dSq_v_z_witness :
  exists o, run SCALE_38 script_params = (false, Ok o) /\
    dSq_38 (out_constants o) = 10 ^ 38 /\
    v_38 (out_constants o) = tauAlpha_y_38 (out_constants o) /\
    z_38 (out_constants o) = tauBeta_x_38 (out_constants o).
Proof.
  assert (E : run SCALE_38 script_params = script_main_value) by exact run_script_params.
  unfold script_main_value in E.
  destruct RunFacts.script_params_wf as (Ha & Hb & Hc & Hs & Hl).
  eexists. split; [exact E |].
  exact (proj2 (symmetric_dSq_v_z script_params false _
           Ha Hb eq_refl Hs eq_refl Hl E)).
Defined.

(** ** Exact real arithmetic, continued *)

Module RealTauFacts.
Import RealArith RealFacts.
Local Open Scope R_scope.

(** The sanity section over the reals, for any point and positive
    lambda. *)
Lemma sanity_norm_real (x y lam : R) :
  lift1 num_sqrt (lift2 num_add (lift1 (fun a => num_pow a 2) (ret x))
                    (lift1 (fun a => num_pow a 2) (lift2 num_mul (ret y) (ret lam))))
  = ret (sqrt (x ^ 2 + (y * lam) ^ 2)).
Proof.
  cbn [num_add num_mul num_pow num_sqrt R_Number].
  change (Pos.to_nat 2) with 2%nat.
  repeat rewrite ?lift2_ret, ?lift1_ret, ?bind_ret_l.
  apply rsqrt_ok. apply Rplus_le_le_0_compat; apply pow2_ge_0.
Qed.

Lemma sanity_checks_real (lam : R) (dv : derived R) :
  sanity_checks lam dv =
  ret (mkSanity (sqrt (tauAlpha_x dv ^ 2 + (tauAlpha_y dv * lam) ^ 2))
                (sqrt (tauBeta_x dv ^ 2 + (tauBeta_y dv * lam) ^ 2))
                (dSq dv)).
Proof.
  unfold sanity_checks. rewrite !sanity_norm_real, !bind_ret_l. reflexivity.
Qed.

Lemma tau_real_y_nonzero (c s lam p : R) :
  c <> 0 \/ s <> 0 -> 0 < lam -> 0 < p -> c + s * p <> 0 ->
  snd (tau_real c s lam (sqrt (c * c + s * s)) p) <> 0.
Proof.
  intros Hcs Hl Hp Hn.
  pose proof (radicand_pos c s lam p Hcs Hl Hp) as HT. cbv zeta in HT.
  unfold tau_real. cbv zeta. cbn [snd].
  set (T := (c / sqrt (c * c + s * s) + p * (s / sqrt (c * c + s * s))) ^ 2 / lam ^ 2 +
            (p * (c / sqrt (c * c + s * s)) - s / sqrt (c * c + s * s)) ^ 2) in *.
  assert (Hq : 0 < sqrt T) by (apply sqrt_lt_R0; exact HT).
  unfold Rdiv. repeat apply Rmult_integral_contrapositive_currified; try lra.
  - apply Rinv_neq_0_compat. lra.
  - apply Rinv_neq_0_compat. lra.
Qed.

(** With [s = 0] and [c > 0] the point is
    [(p c / sqrt (1/lam^2 + p^2), c / (lam sqrt (1/lam^2 + p^2)))]. *)
Lemma tau_real_symmetric (c lam p : R) :
  0 < c -> 0 < lam -> 0 < p ->
  tau_real c 0 lam (sqrt (c * c + 0 * 0)) p =
  (p * c / sqrt (/ lam ^ 2 + p * p), c / sqrt (/ lam ^ 2 + p * p) / lam).
Proof.
  intros Hc Hl Hp. unfold tau_real. cbv zeta.
  replace (c * c + 0 * 0) with (c * c) by ring. rewrite sqrt_square by lra.
  replace ((c / c + p * (0 / c)) ^ 2 / lam ^ 2 + (p * (c / c) - 0 / c) ^ 2)
    with (/ lam ^ 2 + p * p) by (field; lra).
  assert (0 < / lam ^ 2) by (apply Rinv_0_lt_compat, pow_lt; lra).
  assert (0 < sqrt (/ lam ^ 2 + p * p)) by (apply sqrt_lt_R0; nra).
  f_equal; field; lra.
Qed.

Lemma ratio_increasing (a p q : R) :
  0 < a -> 0 < p -> p < q -> p / sqrt (a + p * p) < q / sqrt (a + q * q).
Proof.
  intros Ha Hp Hpq.
  assert (Hsp : 0 < sqrt (a + p * p)) by (apply sqrt_lt_R0; nra).
  assert (Hsq : 0 < sqrt (a + q * q)) by (apply sqrt_lt_R0; nra).
  assert (Hpp : sqrt (a + p * p) * sqrt (a + p * p) = a + p * p) by (apply sqrt_sqrt; nra).
  assert (Hqq : sqrt (a + q * q) * sqrt (a + q * q) = a + q * q) by (apply sqrt_sqrt; nra).
  apply Rmult_lt_reg_r with (sqrt (a + p * p) * sqrt (a + q * q)); [nra |].
  replace (p / sqrt (a + p * p) * (sqrt (a + p * p) * sqrt (a + q * q)))
    with (p * sqrt (a + q * q)) by (field; lra).
  replace (q / sqrt (a + q * q) * (sqrt (a + p * p) * sqrt (a + q * q)))
    with (q * sqrt (a + p * p)) by (field; lra).
  apply Rsqr_incrst_0;
    [| apply Rlt_le, Rmult_lt_0_compat; lra | apply Rlt_le, Rmult_lt_0_compat; lra].
  unfold Rsqr.
  replace (p * sqrt (a + q * q) * (p * sqrt (a + q * q)))
    with (p * p * (sqrt (a + q * q) * sqrt (a + q * q))) by ring.
  replace (q * sqrt (a + p * p) * (q * sqrt (a + p * p)))
    with (q * q * (sqrt (a + p * p) * sqrt (a + p * p))) by ring.
  rewrite Hpp, Hqq.
  assert (0 < a * (q * q - p * p)) by (apply Rmult_lt_0_compat; nra).
  lra.
Qed.

End RealTauFacts.

Module RealScaleFacts.
Import RealArith RealFacts RealTauFacts.
Local Open Scope R_scope.

Lemma trunc_bounds (x : R) (n : Z) :
  - IZR n <= x <= IZR n -> (- n <= trunc x <= n)%Z.
Proof.
  intros [Hlo Hhi]. unfold trunc.
  destruct (Rle_dec 0 x) as [H0 | H0].
  - destruct (base_Int_part x) as [H1 H2].
    split.
    + apply le_IZR. rewrite opp_IZR.
      assert (-1 < IZR (Int_part x)) by lra.
      assert (0 <= Int_part x)%Z.
      { apply Z.lt_succ_r. apply lt_IZR. rewrite succ_IZR. lra. }
      apply IZR_le in H3. lra.
    + apply le_IZR. lra.
  - destruct (base_Int_part (- x)) as [H1 H2].
    split.
    + apply le_IZR. rewrite !opp_IZR. lra.
    + apply le_IZR. rewrite opp_IZR.
      assert (0 <= Int_part (- x))%Z.
      { apply Z.lt_succ_r. apply lt_IZR. rewrite succ_IZR. lra. }
      apply IZR_le in H. lra.
Qed.

Lemma SCALE_38_real : SCALE_38 = ret (10 ^ 38).
Proof.
  unfold SCALE_38. cbn [num_pow of_int R_Number]. rewrite lift1_ret.
  change (Pos.to_nat 38) with 38%nat. reflexivity.
Qed.

Lemma to_int38_real (SCALE x : R) : to_int38 SCALE x = ret (trunc (x * SCALE)).
Proof.
  unfold to_int38. cbn [num_mul num_int R_Number]. rewrite lift2_ret, bind_ret_l.
  reflexivity.
Qed.

Lemma scale_real (SCALE : R) (dv : derived R) :
  scale SCALE dv =
  ret (mkConstants
         (trunc (tauAlpha_x dv * SCALE)) (trunc (tauAlpha_y dv * SCALE))
         (trunc (tauBeta_x dv * SCALE)) (trunc (tauBeta_y dv * SCALE))
         (trunc (u dv * SCALE)) (trunc (v dv * SCALE))
         (trunc (w dv * SCALE)) (trunc (z dv * SCALE)) (trunc (dSq dv * SCALE))).
Proof. unfold scale. rewrite !to_int38_real, !bind_ret_l. reflexivity. Qed.

Lemma scaled_in_int256 (x : R) : -2 <= x <= 2 -> in_int256 (trunc (x * 10 ^ 38)).
Proof.
  intros Hx. unfold in_int256.
  assert (H38 : 10 ^ 38 = IZR (10 ^ 38)) by (rewrite pow_IZR; reflexivity).
  assert (Hp : 0 < 10 ^ 38) by (apply pow_lt; lra).
  assert (Hb : (- (2 * 10 ^ 38) <= trunc (x * 10 ^ 38) <= 2 * 10 ^ 38)%Z).
  { apply trunc_bounds. rewrite mult_IZR, <- H38. nra. }
  assert ((2 * 10 ^ 38 <= 2 ^ 255 - 1)%Z) by (vm_compute; discriminate).
  lia.
Qed.

End RealScaleFacts.

Local Open Scope R_scope.

(** X12: in exact real arithmetic, for valid parameters, the sanity
    section returns, and the square of each norm it prints is
    [dSq + (lam^2 - 1) * tau.y^2]: the true squared norm [dSq] plus a
    term that vanishes only when lambda is 1 or [tau.y] is 0.  So for
    [lam > 1] and [c + s * alpha <> 0] the printed norm of tauAlpha lies
    strictly above the true one (and likewise for tauBeta). *)
Theorem sanity_norm_exact (alpha beta c s lam : R) :
  c <> 0 \/ s <> 0 -> 0 < lam -> 0 < alpha -> 0 < beta ->
  exists dv sn,
    derive (mkParams alpha beta c s lam) = (false, Ok dv) /\
    sanity_checks lam dv = (false, Ok sn) /\
    norm_tauAlpha sn ^ 2 = dSq dv + (lam ^ 2 - 1) * tauAlpha_y dv ^ 2 /\
    norm_tauBeta sn ^ 2 = dSq dv + (lam ^ 2 - 1) * tauBeta_y dv ^ 2 /\
    dSq_again sn = dSq dv /\
    (1 < lam -> c + s * alpha <> 0 -> dSq dv < norm_tauAlpha sn ^ 2) /\
    (1 < lam -> c + s * beta <> 0 -> dSq dv < norm_tauBeta sn ^ 2).
Proof.
  intros Hcs Hl Ha Hb.
  exists (derive_real alpha beta c s lam). eexists.
  split; [apply RealFacts.derive_real_eq; assumption |].
  split; [apply RealTauFacts.sanity_checks_real |].
  cbn [norm_tauAlpha norm_tauBeta dSq_again].
  pose proof (RealFacts.tau_real_norm c s lam alpha Hcs Hl Ha) as Na.
  pose proof (RealFacts.tau_real_norm c s lam beta Hcs Hl Hb) as Nb.
  pose proof (RealTauFacts.tau_real_y_nonzero c s lam alpha Hcs Hl Ha) as Ya.
  pose proof (RealTauFacts.tau_real_y_nonzero c s lam beta Hcs Hl Hb) as Yb.
  cbv zeta in Na, Nb.
  unfold derive_real. cbv zeta.
  cbn [dSq tauAlpha_x tauAlpha_y tauBeta_x tauBeta_y].
  destruct (tau_real c s lam (sqrt (c * c + s * s)) alpha) as [ax ay].
  destruct (tau_real c s lam (sqrt (c * c + s * s)) beta) as [bx by_].
  cbn [fst snd] in *.
  assert (Hsq : forall x y, sqrt (x ^ 2 + (y * lam) ^ 2) ^ 2 = x ^ 2 + (y * lam) ^ 2).
  { intros x y. rewrite <- Rsqr_pow2. apply Rsqr_sqrt.
    apply Rplus_le_le_0_compat; apply pow2_ge_0. }
  rewrite !Hsq.
  assert (Hpos : forall y, y <> 0 -> 1 < lam -> 0 < (lam ^ 2 - 1) * y ^ 2).
  { intros y Hy H1. apply Rmult_lt_0_compat; [nra |].
    rewrite <- Rsqr_pow2. apply Rsqr_pos_lt. exact Hy. }
  repeat split.
  - rewrite <- Na. ring.
  - rewrite <- Nb. ring.
  - intros H1 Hn. specialize (Hpos ay (Ya Hn) H1). rewrite <- Na. nra.
  - intros H1 Hn. specialize (Hpos by_ (Yb Hn) H1). rewrite <- Nb. nra.
Qed.

Lemma sanity_norm_exact_witness :
  exists dv sn,
    derive (mkParams 1 2 1 0 50) = (false, Ok dv) /\
    sanity_checks 50 dv = (false, Ok sn) /\
    norm_tauAlpha sn ^ 2 = dSq dv + (50 ^ 2 - 1) * tauAlpha_y dv ^ 2 /\
    norm_tauBeta sn ^ 2 = dSq dv + (50 ^ 2 - 1) * tauBeta_y dv ^ 2 /\
    dSq_again sn = dSq dv /\
    (1 < 50 -> 1 + 0 * 1 <> 0 -> dSq dv < norm_tauAlpha sn ^ 2) /\
    (1 < 50 -> 1 + 0 * 2 <> 0 -> dSq dv < norm_tauBeta sn ^ 2).
Proof.
  assert (H1 : 1 <> 0 \/ 0 <> 0) by (left; lra).
  assert (H2 : 0 < 50) by lra. assert (H3 : 0 < 1) by lra. assert (H4 : 0 < 2) by lra.
  exact (sanity_norm_exact 1 2 1 0 50 H1 H2 H3 H4).
Defined.

(** X13: in exact real arithmetic and in the symmetric case [s = 0],
    [c > 0], for every [lam > 0]: along increasing price bounds
    [compute_tau] returns points whose [x] grows strictly and whose [y]
    shrinks strictly while staying positive. *)
Theorem compute_tau_monotone_exact (c lam p q : R) :
  0 < c -> 0 < lam -> 0 < p -> p < q ->
  exists t1 t2,
    compute_tau c 0 lam (sqrt (c * c + 0 * 0)) p = (false, Ok t1) /\
    compute_tau c 0 lam (sqrt (c * c + 0 * 0)) q = (false, Ok t2) /\
    fst t1 < fst t2 /\ 0 < snd t2 < snd t1.
Proof.
  intros Hc Hl Hp Hpq.
  assert (Hcs : c <> 0 \/ 0 <> 0) by (left; lra).
  exists (tau_real c 0 lam (sqrt (c * c + 0 * 0)) p),
         (tau_real c 0 lam (sqrt (c * c + 0 * 0)) q).
  split; [apply RealFacts.compute_tau_real; lra |].
  split; [apply RealFacts.compute_tau_real; lra |].
  rewrite !RealTauFacts.tau_real_symmetric by lra. cbn [fst snd].
  assert (Ha : 0 < / lam ^ 2) by (apply Rinv_0_lt_compat, pow_lt; lra).
  assert (Hsp : 0 < sqrt (/ lam ^ 2 + p * p)) by (apply sqrt_lt_R0; nra).
  assert (Hsq : 0 < sqrt (/ lam ^ 2 + q * q)) by (apply sqrt_lt_R0; nra).
  assert (Hlt : sqrt (/ lam ^ 2 + p * p) < sqrt (/ lam ^ 2 + q * q)).
  { apply sqrt_lt_1_alt. split; nra. }
  pose proof (RealTauFacts.ratio_increasing (/ lam ^ 2) p q Ha Hp Hpq) as Hinc.
  assert (Hinv : / sqrt (/ lam ^ 2 + q * q) < / sqrt (/ lam ^ 2 + p * p)).
  { apply Rinv_lt_contravar; [apply Rmult_lt_0_compat; lra | exact Hlt]. }
  assert (Hiq : 0 < / sqrt (/ lam ^ 2 + q * q)) by (apply Rinv_0_lt_compat; lra).
  assert (Hil : 0 < / lam) by (apply Rinv_0_lt_compat; lra).
  repeat split.
  - replace (p * c / sqrt (/ lam ^ 2 + p * p))
      with (c * (p / sqrt (/ lam ^ 2 + p * p))) by (field; lra).
    replace (q * c / sqrt (/ lam ^ 2 + q * q))
      with (c * (q / sqrt (/ lam ^ 2 + q * q))) by (field; lra).
    apply Rmult_lt_compat_l; assumption.
  - unfold Rdiv. repeat apply Rmult_lt_0_compat; assumption.
  - unfold Rdiv. apply Rmult_lt_compat_r; [exact Hil |].
    apply Rmult_lt_compat_l; assumption.
Qed.

Lemma compute_tau_monotone_exact_witness :
  exists t1 t2,
    compute_tau 1 0 50 (sqrt (1 * 1 + 0 * 0)) 1 = (false, Ok t1) /\
    compute_tau 1 0 50 (sqrt (1 * 1 + 0 * 0)) 2 = (false, Ok t2) /\
    fst t1 < fst t2 /\ 0 < snd t2 < snd t1.
Proof.
  assert (H1 : 0 < 1) by lra. assert (H2 : 0 < 50) by lra. assert (H3 : 1 < 2) by lra.
  exact (compute_tau_monotone_exact 1 50 1 2 H1 H2 H1 H3).
Defined.

Local Close Scope R_scope.

Local Open Scope R_scope.

(** X14: in exact real arithmetic, for every rotation of unit length
    ([c^2 + s^2 = 1]), every positive lambda and all positive price
    bounds, the run returns and each of the nine constants is a signed
    256-bit integer: every value scaled has magnitude at most 1. *)
Theorem unit_rotation_constants_int256_exact (alpha beta c s lam : R) :
  c * c + s * s = 1 -> 0 < lam -> 0 < alpha -> 0 < beta ->
  exists o, run SCALE_38 (mkParams alpha beta c s lam) = (false, Ok o) /\
            Forall in_int256 (constants_list (out_constants o)).
Proof.
  intros Hu Hl Ha Hb.
  assert (Hcs : c <> 0 \/ s <> 0).
  { destruct (Req_dec c 0) as [E | E]; [right; intros ->; subst; lra | left; exact E]. }
  unfold run.
  rewrite RealScaleFacts.SCALE_38_real, bind_ret_l.
  rewrite (RealFacts.derive_real_eq alpha beta c s lam Hcs Hl Ha Hb), bind_ret_l.
  rewrite RealScaleFacts.scale_real, bind_ret_l.
  rewrite RealTauFacts.sanity_checks_real, bind_ret_l.
  eexists. split; [reflexivity |].
  cbn [out_constants constants_list tauAlpha_x_38 tauAlpha_y_38 tauBeta_x_38 tauBeta_y_38
       u_38 v_38 w_38 z_38 dSq_38].
  pose proof (RealFacts.tau_real_norm c s lam alpha Hcs Hl Ha) as Na.
  pose proof (RealFacts.tau_real_norm c s lam beta Hcs Hl Hb) as Nb.
  cbv zeta in Na, Nb. rewrite Hu in Na, Nb.
  unfold derive_real. cbv zeta.
  cbn [dSq tauAlpha_x tauAlpha_y tauBeta_x tauBeta_y u v w z].
  rewrite Hu.
  destruct (tau_real c s lam (sqrt 1) alpha) as [ax ay].
  destruct (tau_real c s lam (sqrt 1) beta) as [bx by_].
  cbn [fst snd] in *.
  assert (Hax : -1 <= ax <= 1) by nra.
  assert (Hay : -1 <= ay <= 1) by nra.
  assert (Hbx : -1 <= bx <= 1) by nra.
  assert (Hby : -1 <= by_ <= 1) by nra.
  assert (Hm : 0 <= (c - s) * (c - s)) by exact (Rle_0_sqr (c - s)).
  assert (Hp : 0 <= (c + s) * (c + s)) by exact (Rle_0_sqr (c + s)).
  assert (Hsc : -1 <= 2 * (s * c) <= 1) by (split; nra).
  assert (Hc2 : 0 <= c * c <= 1) by nra.
  assert (Hs2 : 0 <= s * s <= 1) by nra.
  repeat (apply Forall_cons; [apply RealScaleFacts.scaled_in_int256 |]);
    [lra | lra | lra | lra | | | | | lra | apply Forall_nil].
  - set (k := s * c) in *. set (t := bx - ax). assert (-2 <= t <= 2) by (unfold t; lra). nra.
  - nra.
  - set (k := s * c) in *. set (t := by_ - ay). assert (-2 <= t <= 2) by (unfold t; lra). nra.
  - nra.
Qed.

Lemma unit_rotation_constants_int256_exact_witness :
  exists o, run SCALE_38 (mkParams 1 2 1 0 50) = (false, Ok o) /\
            Forall in_int256 (constants_list (out_constants o)).
Proof.
  assert (H1 : 1 * 1 + 0 * 0 = 1) by lra.
  assert (H2 : 0 < 50) by lra. assert (H3 : 0 < 1) by lra. assert (H4 : 0 < 2) by lra.
  exact (unit_rotation_constants_int256_exact 1 2 1 0 50 H1 H2 H3 H4).
Defined.

Local Close Scope R_scope.

Local Open Scope R_scope.

(** X20: in exact real arithmetic, for valid parameters, [compute_tau]
    returns a point whose [x] has the sign of [p * c - s] and whose [y] has
    the sign of [c + s * p]: [tau.x] is positive exactly for price bounds
    above [s / c], zero at it and negative below. *)
Theorem compute_tau_signs_exact (c s lam p : R) :
  c <> 0 \/ s <> 0 -> 0 < lam -> 0 < p ->
  exists t, compute_tau c s lam (sqrt (c * c + s * s)) p = (false, Ok t) /\
    (0 < fst t <-> s < p * c) /\ (fst t = 0 <-> p * c = s) /\
    (fst t < 0 <-> p * c < s) /\
    (0 < snd t <-> 0 < c + s * p) /\ (snd t < 0 <-> c + s * p < 0).
Proof.
  intros Hcs Hl Hp.
  exists (tau_real c s lam (sqrt (c * c + s * s)) p).
  split; [apply RealFacts.compute_tau_real; assumption |].
  pose proof (RealFacts.radicand_pos c s lam p Hcs Hl Hp) as HT. cbv zeta in HT.
  unfold tau_real. cbv zeta. cbn [fst snd].
  set (T := (c / sqrt (c * c + s * s) + p * (s / sqrt (c * c + s * s))) ^ 2 / lam ^ 2 +
            (p * (c / sqrt (c * c + s * s)) - s / sqrt (c * c + s * s)) ^ 2) in *.
  assert (Hk : 0 < 1 / sqrt T).
  { apply Rdiv_lt_0_compat; [lra | apply sqrt_lt_R0; exact HT]. }
  set (k := 1 / sqrt T) in *. clearbody k. clear HT T.
  assert (Hkl : 0 < k / lam) by (apply Rdiv_lt_0_compat; assumption).
  replace ((c + s * p) * k / lam) with ((c + s * p) * (k / lam)) by (field; lra).
  set (m := k / lam) in *. clearbody m.
  repeat split; intros H; nra.
Qed.

Lemma compute_tau_signs_exact_witness :
  exists t, compute_tau 1 0 50 (sqrt (1 * 1 + 0 * 0)) 2 = (false, Ok t) /\
    (0 < fst t <-> 0 < 2 * 1) /\ (fst t = 0 <-> 2 * 1 = 0) /\
    (fst t < 0 <-> 2 * 1 < 0) /\
    (0 < snd t <-> 0 < 1 + 0 * 2) /\ (snd t < 0 <-> 1 + 0 * 2 < 0).
Proof.
  assert (H1 : 1 <> 0 \/ 0 <> 0) by (left; lra).
  assert (H2 : 0 < 50) by lra. assert (H3 : 0 < 2) by lra.
  exact (compute_tau_signs_exact 1 0 50 2 H1 H2 H3).
Defined.

Local Close Scope R_scope.

Module RealDirectionFacts.
Import RealArith RealFacts.
Local Open Scope R_scope.

(** [A / sqrt (A^2 + B^2)] grows with the ratio [A / B], for [B > 0]. *)
Lemma direction_increasing (A1 B1 A2 B2 : R) :
  0 < B1 -> 0 < B2 -> A1 * B2 < A2 * B1 ->
  A1 / sqrt (A1 * A1 + B1 * B1) < A2 / sqrt (A2 * A2 + B2 * B2).
Proof.
  intros HB1 HB2 Hlt.
  assert (HN1 : 0 < A1 * A1 + B1 * B1) by nra.
  assert (HN2 : 0 < A2 * A2 + B2 * B2) by nra.
  assert (Hr1 : 0 < sqrt (A1 * A1 + B1 * B1)) by (apply sqrt_lt_R0; exact HN1).
  assert (Hr2 : 0 < sqrt (A2 * A2 + B2 * B2)) by (apply sqrt_lt_R0; exact HN2).
  assert (Hq1 : sqrt (A1 * A1 + B1 * B1) * sqrt (A1 * A1 + B1 * B1) = A1 * A1 + B1 * B1)
    by (apply sqrt_sqrt; lra).
  assert (Hq2 : sqrt (A2 * A2 + B2 * B2) * sqrt (A2 * A2 + B2 * B2) = A2 * A2 + B2 * B2)
    by (apply sqrt_sqrt; lra).
  set (r1 := sqrt (A1 * A1 + B1 * B1)) in *. set (r2 := sqrt (A2 * A2 + B2 * B2)) in *.
  apply Rmult_lt_reg_r with (r1 * r2); [apply Rmult_lt_0_compat; assumption |].
  replace (A1 / r1 * (r1 * r2)) with (A1 * r2) by (field; lra).
  replace (A2 / r2 * (r1 * r2)) with (A2 * r1) by (field; lra).
  destruct (Rlt_le_dec A1 0) as [HA1 | HA1]; destruct (Rlt_le_dec A2 0) as [HA2 | HA2].
  - (* both negative *)
    assert (H : (- A2) * r1 < (- A1) * r2).
    { apply Rsqr_incrst_0;
        [| apply Rlt_le, Rmult_lt_0_compat; lra | apply Rlt_le, Rmult_lt_0_compat; lra].
      unfold Rsqr.
      replace (- A2 * r1 * (- A2 * r1)) with (A2 * A2 * (r1 * r1)) by ring.
      replace (- A1 * r2 * (- A1 * r2)) with (A1 * A1 * (r2 * r2)) by ring.
      rewrite Hq1, Hq2.
      assert (0 < - (A2 * B1)) by nra.
      assert (- (A2 * B1) < - (A1 * B2)) by lra.
      assert ((A2 * B1) * (A2 * B1) < (A1 * B2) * (A1 * B2)) by nra.
      nra. }
    lra.
  - assert (A1 * r2 < 0) by nra. assert (0 <= A2 * r1) by nra. lra.
  - exfalso. assert (0 <= A1 * B2) by nra. assert (A2 * B1 < 0) by nra. lra.
  - apply Rsqr_incrst_0;
      [| apply Rmult_le_pos; lra | apply Rmult_le_pos; lra].
    unfold Rsqr.
    replace (A1 * r2 * (A1 * r2)) with (A1 * A1 * (r2 * r2)) by ring.
    replace (A2 * r1 * (A2 * r1)) with (A2 * A2 * (r1 * r1)) by ring.
    rewrite Hq1, Hq2.
    assert (0 <= A1 * B2) by nra.
    assert ((A1 * B2) * (A1 * B2) < (A2 * B1) * (A2 * B1)) by nra.
    nra.
Qed.

(** The [x] of the point as a direction cosine scaled by [d]. *)
Lemma tau_real_x (c s lam p : R) :
  c <> 0 \/ s <> 0 -> 0 < lam -> 0 < p ->
  fst (tau_real c s lam (sqrt (c * c + s * s)) p) =
  sqrt (c * c + s * s) *
  ((p * c - s) /
   sqrt ((p * c - s) * (p * c - s) + (c + p * s) / lam * ((c + p * s) / lam))).
Proof.
  intros Hcs Hl Hp.
  pose proof (dSq_pos c s Hcs) as HdSq.
  pose proof (numerator_pos c s lam p Hcs Hl Hp) as HN.
  unfold tau_real. cbv zeta. cbn [fst].
  set (d := sqrt (c * c + s * s)) in *.
  assert (Hd : 0 < d) by (apply sqrt_lt_R0; exact HdSq).
  set (N := (p * c - s) * (p * c - s) + (c + p * s) / lam * ((c + p * s) / lam)).
  assert (HNN : N = (c + p * s) ^ 2 / lam ^ 2 + (p * c - s) ^ 2) by (unfold N; field; lra).
  assert (HNpos : 0 < N) by (rewrite HNN; exact HN).
  replace ((c / d + p * (s / d)) ^ 2 / lam ^ 2 + (p * (c / d) - s / d) ^ 2)
    with (N / (d * d)) by (rewrite HNN; field; split; lra).
  rewrite sqrt_div_alt by nra. rewrite sqrt_square by lra.
  assert (0 < sqrt N) by (apply sqrt_lt_R0; exact HNpos).
  field. split; lra.
Qed.

End RealDirectionFacts.

Local Open Scope R_scope.

(** X21: in exact real arithmetic, for every rotation with [c >= 0] and
    [s >= 0] (not both zero) and every [lam > 0], [tau.x] grows strictly
    with the price bound: the point moves one way along its circle. *)
Theorem tau_x_increasing_exact (c s lam p q : R) :
  0 <= c -> 0 <= s -> c <> 0 \/ s <> 0 -> 0 < lam -> 0 < p -> p < q ->
  exists t1 t2,
    compute_tau c s lam (sqrt (c * c + s * s)) p = (false, Ok t1) /\
    compute_tau c s lam (sqrt (c * c + s * s)) q = (false, Ok t2) /\
    fst t1 < fst t2.
Proof.
  intros Hc Hs Hcs Hl Hp Hpq.
  exists (tau_real c s lam (sqrt (c * c + s * s)) p),
         (tau_real c s lam (sqrt (c * c + s * s)) q).
  split; [apply RealFacts.compute_tau_real; lra |].
  split; [apply RealFacts.compute_tau_real; lra |].
  rewrite !RealDirectionFacts.tau_real_x by lra.
  pose proof (RealFacts.dSq_pos c s Hcs) as HdSq.
  assert (Hd : 0 < sqrt (c * c + s * s)) by (apply sqrt_lt_R0; exact HdSq).
  apply Rmult_lt_compat_l; [exact Hd |].
  assert (Hil : 0 < / lam) by (apply Rinv_0_lt_compat; exact Hl).
  assert (HBp : 0 < c + p * s) by (destruct Hcs; nra).
  assert (HBq : 0 < c + q * s) by (destruct Hcs; nra).
  apply RealDirectionFacts.direction_increasing.
  - unfold Rdiv. apply Rmult_lt_0_compat; assumption.
  - unfold Rdiv. apply Rmult_lt_0_compat; assumption.
  - unfold Rdiv.
    apply Rmult_lt_reg_r with lam; [exact Hl |].
    replace ((p * c - s) * ((c + q * s) * / lam) * lam)
      with ((p * c - s) * (c + q * s)) by (field; lra).
    replace ((q * c - s) * ((c + p * s) * / lam) * lam)
      with ((q * c - s) * (c + p * s)) by (field; lra).
    assert (E : (q * c - s) * (c + p * s) - (p * c - s) * (c + q * s)
                = (q - p) * (c * c + s * s)) by ring.
    assert (0 < (q - p) * (c * c + s * s)) by (apply Rmult_lt_0_compat; lra).
    lra.
Qed.

Lemma tau_x_increasing_exact_witness :
  exists t1 t2,
    compute_tau 3 4 50 (sqrt (3 * 3 + 4 * 4)) 1 = (false, Ok t1) /\
    compute_tau 3 4 50 (sqrt (3 * 3 + 4 * 4)) 2 = (false, Ok t2) /\
    fst t1 < fst t2.
Proof.
  assert (H1 : 0 <= 3) by lra. assert (H2 : 0 <= 4) by lra.
  assert (H3 : 3 <> 0 \/ 4 <> 0) by (left; lra).
  assert (H4 : 0 < 50) by lra. assert (H5 : 0 < 1) by lra. assert (H6 : 1 < 2) by lra.
  exact (tau_x_increasing_exact 3 4 50 1 2 H1 H2 H3 H4 H5 H6).
Defined.

Local Close Scope R_scope.

(** ** The script as it executes: what is printed *)

Module ExecFacts.

(** One computing statement: split on its outcome, on both sides at
    once, and run on to the next one. *)
Ltac next_calc :=
  match goal with
  | |- context [@calc ?A ?m] =>
      lazymatch m with
      | (_, _) => fail
      | _ => idtac
      end;
      let f := fresh "f" in
      let a := fresh "a" in
      let e := fresh "e" in
      destruct m as [f [a | e]];
      [ change (@calc A (f, Ok a)) with (@nil string, (f, @Finished A a));
        try match type of a with (_ * _)%type => destruct a as [? ?] end
      | change (@calc A (f, Raise e)) with (@nil string, (f, @Stopped A (Signal e))) ];
      cbv beta iota delta [out_bind say out_ret bind ret app
        alpha beta c s lam dSq d tauAlpha_x tauAlpha_y tauBeta_x tauBeta_y u v w z]
  end.

(** One declaration line: split on whether the integer can be printed. *)
Ltac next_constant :=
  match goal with
  | |- context [say_constant ?name ?n] =>
      let E := fresh "E" in
      unfold say_constant at 1; unfold format_int;
      destruct (printable n) eqn:E;
      cbv beta iota delta [out_bind say out_ret bind ret app]
  end.

Ltac flags := rewrite ?orb_false_r, ?orb_false_l, ?orb_assoc.

Lemma prefix_append (p t : string) : String.prefix p (p ++ t) = true.
Proof.
  induction p as [| a p IH]; [destruct t; reflexivity |]. cbn [append String.prefix].
  destruct (ascii_dec a a) as [_ | H]; [exact IH | destruct (H eq_refl)].
Qed.

Lemma is_declaration_line (name text : string) :
  is_declaration (constant_line name text) = true.
Proof. unfold is_declaration, constant_line. apply prefix_append. Qed.

Lemma not_declaration (a : ascii) (rest : string) :
  a <> " "%char -> is_declaration (String a rest) = false.
Proof.
  intros H. unfold is_declaration. cbn [String.prefix].
  destruct (ascii_dec " " a) as [E | _]; [destruct (H (eq_sym E)) | reflexivity].
Qed.

Lemma not_declaration_empty : is_declaration EmptyString = false.
Proof. reflexivity. Qed.

Lemma filter_skip (line : string) (rest : list string) :
  is_declaration line = false ->
  filter is_declaration (line :: rest) = filter is_declaration rest.
Proof. intros H. cbn [filter]. rewrite H. reflexivity. Qed.

Lemma filter_keep (name text : string) (rest : list string) :
  filter is_declaration (constant_line name text :: rest) =
  constant_line name text :: filter is_declaration rest.
Proof. cbn [filter]. rewrite is_declaration_line. reflexivity. Qed.

Ltac filter_lines :=
  repeat first
    [ rewrite filter_keep
    | rewrite filter_skip
        by first [exact not_declaration_empty | apply not_declaration; discriminate] ].

(** How the script ends, from the computation alone. *)
Lemma exec_outcome (ambient : Dec.context) (prm : params Dec.Decimal) :
  snd (script_exec ambient prm) =
  match constants_stage ambient prm with
  | (f, Raise e) => (f, Stopped (Signal e))
  | (f, Ok cs) =>
      if forallb printable (constants_list cs) then
        match script_outputs ambient prm with
        | (f', Ok o) => (f', Finished (out_constants o))
        | (f', Raise e) => (f', Stopped (Signal e))
        end
      else (f, Stopped ValueError)
  end.
Proof.
  destruct prm as [pa pb pc ps pl].
  unfold script_exec, constants_stage, script_outputs, run, derive, scale, sanity_checks.
  cbv zeta. cbn [alpha beta c s lam].
  cbv beta iota delta [out_bind say out_ret bind ret app
        alpha beta c s lam dSq d tauAlpha_x tauAlpha_y tauBeta_x tauBeta_y u v w z].
  repeat next_calc.
  all: cbn [constants_list tauAlpha_x_38 tauAlpha_y_38 tauBeta_x_38 tauBeta_y_38
            u_38 v_38 w_38 z_38 dSq_38 forallb].
  all: repeat (next_constant;
               [| cbn [snd andb]; flags; rewrite ?andb_false_r; reflexivity]).
  all: cbn [out_derived out_constants out_sanity fst snd andb]; flags; reflexivity.
Qed.

End ExecFacts.

(** X15: executed statement by statement, with its prints between the
    computations, the script ends as follows.  When the computation of
    the nine constants raises, it stops on that exception.  Otherwise,
    when one of the nine integers has more than 4300 digits, it stops on
    ValueError in the declaration lines.  Otherwise it ends as the whole
    computation does: normally with its nine constants, or on the
    exception of the sanity section. *)
Theorem script_exec_outcome (ambient : Dec.context) (prm : params Dec.Decimal) :
  snd (script_exec ambient prm) =
  match constants_stage ambient prm with
  | (f, Raise e) => (f, Stopped (Signal e))
  | (f, Ok cs) =>
      if forallb printable (constants_list cs) then
        match script_outputs ambient prm with
        | (f', Ok o) => (f', Finished (out_constants o))
        | (f', Raise e) => (f', Stopped (Signal e))
        end
      else (f, Stopped ValueError)
  end.
Proof. exact (ExecFacts.exec_outcome ambient prm). Qed.

(** X16: the declaration lines on standard output are those of the nine
    constants, in order, up to the first one whose integer has more than
    4300 digits (all nine when there is none), and none when the
    computation of the constants raises.  They are there even when the
    sanity section then stops the run. *)
Theorem script_exec_declarations (ambient : Dec.context) (prm : params Dec.Decimal) :
  filter is_declaration (fst (script_exec ambient prm)) =
  match constants_stage ambient prm with
  | (_, Ok cs) => declarations (named_constants cs)
  | (_, Raise _) => nil
  end.
Proof.
  destruct prm as [pa pb pc ps pl].
  unfold script_exec, constants_stage, derive, scale. cbv zeta.
  cbv beta iota delta [out_bind say out_ret bind ret app
        alpha beta c s lam dSq d tauAlpha_x tauAlpha_y tauBeta_x tauBeta_y u v w z].
  repeat ExecFacts.next_calc.
  all: cbn [named_constants declarations tauAlpha_x_38 tauAlpha_y_38 tauBeta_x_38
            tauBeta_y_38 u_38 v_38 w_38 z_38 dSq_38].
  all: repeat (ExecFacts.next_constant;
               [| cbn [fst]; ExecFacts.filter_lines; reflexivity]).
  all: cbn [fst snd]; ExecFacts.filter_lines; reflexivity.
Qed.

(** ** Zero cosine, and the run after the constants *)

Module CosineFacts.
Import Dec DecFacts RangeFacts.

Lemma mul_zero_r (ctx : context) (x y : Dec.Decimal) : Zr y -> post Zr (mul ctx x y).
Proof.
  intros H. unfold mul. apply fix_zero. unfold Zr in *. cbn [coef]. rewrite H. lia.
Qed.

Lemma derive_zero_cosine (ctx : context) (prm : params Dec.Decimal) :
  Zr (c prm) ->
  post (fun dv => Zr (u dv) /\ Zr (w dv)) (@derive _ (Decimal_Number ctx) prm).
Proof.
  destruct prm as [pa pb pc ps pl]. cbn [c]. intros Hc.
  unfold derive. cbn [num_add num_sub num_mul num_div num_sqrt num_pow of_int Decimal_Number].
  assert (Hsc : post Zr (lift2 (mul ctx) (ret ps) (ret pc)))
    by (rewrite lift2_ret; apply mul_zero_r; exact Hc).
  eapply post_bind; [apply post_any | intros dSq _].
  eapply post_bind; [apply post_any | intros d _].
  eapply post_bind; [apply post_any | intros [tauAlpha_x tauAlpha_y] _].
  eapply post_bind; [apply post_any | intros [tauBeta_x tauBeta_y] _].
  eapply post_bind; [apply lmul_zero_l; exact Hsc | intros u Hu].
  eapply post_bind; [apply post_any | intros v _].
  eapply post_bind; [apply lmul_zero_l; exact Hsc | intros w Hw].
  eapply post_bind; [apply post_any | intros z _].
  apply post_ret. cbn. auto.
Qed.

End CosineFacts.

(** X17: whenever [c] is zero, every run that returns has [u_38 = 0] and
    [w_38 = 0], as it has when [s] is zero: both carry the factor
    [s * c]. *)
Theorem zero_cosine_gives_zero_u_w (prm : params Dec.Decimal) (f : bool)
    (o : outputs Dec.Decimal) :
  Dec.coef (c prm) = 0 ->
  run SCALE_38 prm = (f, Ok o) ->
  u_38 (out_constants o) = 0 /\ w_38 (out_constants o) = 0.
Proof.
  intros Hc E.
  destruct (RunFacts.run_inv prm f o E) as (f1 & f2 & Ed & Es).
  destruct (CosineFacts.derive_zero_cosine script_context prm Hc f1 _ Ed) as [Hu Hw].
  exact (DecFacts.scale_zero script_context script_SCALE_38 _ Hu Hw f2 _ Es).
Qed.

Lemma zero_cosine_gives_zero_u_w_witness :
  let prm := mkParams (Dec.mkDec false 3 0) (Dec.mkDec false 3 0)
                      (Dec.mkDec false 0 0) (Dec.mkDec false 1 0)
                      (Dec.mkDec false 4 0) in
  match run SCALE_38 prm with
  | (_, Ok o) => u_38 (out_constants o) = 0 /\ w_38 (out_constants o) = 0
  | (_, Raise _) => False
  end.
Proof.
  intros prm.
  destruct (run SCALE_38 prm) as [f [o | e]] eqn:E.
  - exact (zero_cosine_gives_zero_u_w prm f o eq_refl E).
  - revert E. vm_compute. discriminate.
Defined.

(** X18: once the nine constants are computed, the script can end in
    three ways only: on ValueError in the declaration lines, exactly when
    one of the nine integers has more than 4300 digits; otherwise normally,
    with these constants, or on Overflow in the sanity section, which
    divides by nothing and takes no square root of a negative number,
    whatever the values. *)
Theorem after_constants_endings (ambient : Dec.context) (prm : params Dec.Decimal)
    (f : bool) (cs : constants) :
  usual_context (Dec.set_prec ambient 200) ->
  Dec.wf (alpha prm) -> Dec.wf (beta prm) -> Dec.wf (c prm) -> Dec.wf (s prm) ->
  Dec.wf (lam prm) ->
  constants_stage ambient prm = (f, Ok cs) ->
  (forallb printable (constants_list cs) = false /\
   snd (script_exec ambient prm) = (f, Stopped ValueError)) \/
  (forallb printable (constants_list cs) = true /\
   exists f', snd (script_exec ambient prm) = (f', Finished cs) \/
              snd (script_exec ambient prm) = (f', Stopped (Signal Overflow))).
Proof.
  intros Hctx Ha Hb Hc Hs Hl E.
  rewrite (ExecFacts.exec_outcome ambient prm), E.
  destruct (forallb printable (constants_list cs)); [right | left; split; reflexivity].
  split; [reflexivity |].
  unfold constants_stage in E. cbv zeta in E.
  apply bind_Ok_inv in E. destruct E as (f1 & S38 & f2 & ES & E & _).
  apply bind_Ok_inv in E. destruct E as (f3 & dv & f4 & Ed & Esc & _).
  pose proof (RangeFacts.derive_rng _ Hctx prm Ha Hb Hc Hs Hl f3 dv Ed) as HR.
  unfold scaled_values in HR.
  repeat match goal with
         | H : Forall _ (_ :: _) |- _ => apply Forall_cons_iff in H; destruct H as [? H]
         end.
  pose proof (OverflowFacts.sanity_checks_overflow_only _ Hctx (lam prm) dv Hl
                ltac:(eapply RangeFacts.in_range_wf; eassumption)
                ltac:(eapply RangeFacts.in_range_wf; eassumption)
                ltac:(eapply RangeFacts.in_range_wf; eassumption)
                ltac:(eapply RangeFacts.in_range_wf; eassumption)) as Hsan.
  unfold overflow_only in Hsan.
  unfold script_outputs, run. cbv zeta. rewrite ES, Ed. cbn [bind].
  rewrite Esc. cbn [bind].
  destruct (sanity_checks (lam prm) dv) as [fs [sn | e]]; cbn [snd] in Hsan.
  - eexists. left. cbn. reflexivity.
  - subst e. eexists. right. cbn. reflexivity.
Qed.

Lemma after_constants_endings_witness :
  let prm := mkParams (Dec.mkDec false 3 0) (Dec.mkDec false 3 0)
                      (Dec.mkDec false 0 0) (Dec.mkDec false 1 0)
                      (Dec.mkDec false 4 0) in
  match constants_stage Dec.DefaultContext prm with
  | (f, Ok cs) =>
      (forallb printable (constants_list cs) = false /\
       snd (script_exec Dec.DefaultContext prm) = (f, Stopped ValueError)) \/
      (forallb printable (constants_list cs) = true /\
       exists f', snd (script_exec Dec.DefaultContext prm) = (f', Finished cs) \/
                  snd (script_exec Dec.DefaultContext prm) = (f', Stopped (Signal Overflow)))
  | (_, Raise _) => False
  end.
Proof.
  intros prm.
  assert (Hwf : Dec.wf (alpha prm) /\ Dec.wf (beta prm) /\ Dec.wf (c prm) /\
                Dec.wf (s prm) /\ Dec.wf (lam prm))
    by (unfold Dec.wf; cbn; repeat split; lia).
  destruct Hwf as (Ha & Hb & Hc & Hs & Hl).
  destruct (constants_stage Dec.DefaultContext prm) as [f [cs | e]] eqn:E.
  - exact (after_constants_endings Dec.DefaultContext prm f cs
             RunFacts.script_context_usual Ha Hb Hc Hs Hl E).
  - revert E. vm_compute. discriminate.
Defined.

(** X19: for valid parameters with [c > 0] and [s >= 0], every run that
    ends with the Underflow flag clear has [dSq], [tauAlpha.y],
    [tauBeta.y] and [v] strictly positive and their constants
    non-negative; when moreover [s = 0], [tauAlpha.x], [tauBeta.x] and [z]
    are strictly positive too and none of the nine constants is
    negative. *)
Theorem positive_rotation_signs (prm : params Dec.Decimal) (o : outputs Dec.Decimal) :
  valid_params prm -> Dec.sgn (c prm) = 1 ->
  Dec.sgn (s prm) = 0 \/ Dec.sgn (s prm) = 1 ->
  run SCALE_38 prm = (false, Ok o) ->
  (Dec.sgn (dSq (out_derived o)) = 1 /\ Dec.sgn (tauAlpha_y (out_derived o)) = 1 /\
   Dec.sgn (tauBeta_y (out_derived o)) = 1 /\ Dec.sgn (v (out_derived o)) = 1 /\
   0 <= dSq_38 (out_constants o) /\ 0 <= tauAlpha_y_38 (out_constants o) /\
   0 <= tauBeta_y_38 (out_constants o) /\ 0 <= v_38 (out_constants o)) /\
  (Dec.sgn (s prm) = 0 ->
   Dec.sgn (tauAlpha_x (out_derived o)) = 1 /\ Dec.sgn (tauBeta_x (out_derived o)) = 1 /\
   Dec.sgn (z (out_derived o)) = 1 /\
   Forall (fun n => 0 <= n) (constants_list (out_constants o))).
Proof.
  intros Hv Hc Hs E.
  destruct (SignFacts.run_inv_flag prm o E) as (Ed & f2 & Es).
  pose proof (SignFacts.derive_signs script_context script_context_prec prm Hv Hc Hs) as HS.
  unfold safe in HS.
  change (@derive _ (Decimal_Number script_context) prm) with (derive prm) in HS.
  rewrite Ed in HS. cbn [fst snd] in HS. specialize (HS eq_refl).
  destruct HS as ((SdSq & Say & Sby & Sv) & Hsym).
  assert (HR : Forall (in_range script_context) (scaled_values (out_derived o))).
  { destruct Hv as (Ha & Hb & Hwc & Hws & Hl & _).
    exact (RangeFacts.derive_rng script_context RunFacts.script_context_usual
             prm Ha Hb Hwc Hws Hl false _ Ed). }
  assert (HT : Forall2 truncated_38 (scaled_values (out_derived o))
                 (constants_list (out_constants o))).
  { apply (RunFacts.scale_truncates (out_derived o)) in Es; [exact Es |].
    eapply Forall_impl; [| exact HR]. intros x Hx. apply Hx. }
  unfold scaled_values, constants_list in HT |- *.
  repeat match goal with
         | H : Forall2 _ (_ :: _) (_ :: _) |- _ =>
             apply Forall2_cons_iff in H; destruct H as [? H]
         end.
  assert (Hpos : forall x n, SG (eq 1) x -> truncated_38 x n -> 0 <= n).
  { intros x n [Hw Hx] Ht. apply (SignFacts.truncated_38_nonneg x n Ht).
    apply SignFacts.sgn_nonneg_to_Q; [exact Hw | right; symmetry; exact Hx]. }
  split.
  - repeat split;
      try (symmetry; first [apply SdSq | apply Say | apply Sby | apply Sv]);
      (eapply Hpos; [| eassumption]; assumption).
  - intros Hs0. destruct (Hsym Hs0) as (Sax & Sbx & Sz).
    repeat split; try (symmetry; first [apply Sax | apply Sbx | apply Sz]).
    assert (Hzero : Dec.coef (s prm) = 0) by (apply DecFacts.sgn_zero_iff; exact Hs0).
    destruct (DecFacts.derive_zero_sine script_context prm Hzero false _ Ed) as [Hu Hw].
    destruct (DecFacts.scale_zero script_context script_SCALE_38 _ Hu Hw f2 _ Es)
      as [Hu0 Hw0].
    repeat (apply Forall_cons;
              [first [eapply Hpos; [| eassumption]; assumption | lia] |]).
    apply Forall_nil.
Qed.

Lemma positive_rotation_signs_witness :
  exists o, run SCALE_38 script_params = (false, Ok o) /\
            Forall (fun n => 0 <= n) (constants_list (out_constants o)).
Proof.
  assert (E : run SCALE_38 script_params = script_main_value) by exact run_script_params.
  unfold script_main_value in E.
  assert (Hv : valid_params script_params).
  { unfold valid_params, Dec.wf. cbn. repeat split; lia. }
  eexists. split; [exact E |].
  exact (proj2 (proj2 (proj2 (proj2
           (positive_rotation_signs script_params _ Hv eq_refl (or_introl eq_refl) E)
           eq_refl)))).
Defined.

(** ** Correct rounding in the run *)

Module BoundFacts.
Import Dec DecFacts.

Lemma nonneg_mkDec (q e : Z) : 0 <= q -> nonneg (mkDec false q e).
Proof. intros H. split; [exact H | reflexivity]. Qed.

(** [compute_tau] at the price bound 0, with c, s, lambda and d of the
    script. *)
Lemma tau_at_zero :
  compute_tau (c script_params) (s script_params) (lam script_params) script_d
    (mkDec false 0 0) = (false, Ok (mkDec false 0 1, mkDec false 1 0)).
Proof. vm_compute. reflexivity. Qed.

Lemma tau_y_at_most_one (p : Dec.Decimal) (f : bool) (t : Dec.Decimal * Dec.Decimal) :
  nonneg p ->
  compute_tau (c script_params) (s script_params) (lam script_params) script_d p
    = (f, Ok t) ->
  nonneg (snd t) /\ (to_Q (snd t) <= 1)%Q.
Proof.
  intros Hp E.
  assert (Hup : ordered Up (mkDec false 0 0) p).
  { split; [apply nonneg_mkDec; lia |]. split; [exact Hp |]. cbn [compare_as].
    rewrite (RoundFacts.to_R_zero (mkDec false 0 0)) by reflexivity.
    apply RoundFacts.to_R_nonneg. exact Hp. }
  pose proof (RoundFacts.compute_tau_y_ordered script_context script_context_prec
                (c script_params) (s script_params) (lam script_params) script_d
                (mkDec false 0 0) p
                (nonneg_mkDec 1 0 ltac:(lia)) (nonneg_mkDec 0 0 ltac:(lia)) eq_refl
                (nonneg_mkDec 50 0 ltac:(lia)) (nonneg_mkDec 1 0 ltac:(lia)) Hup
                _ _ _ _ tau_at_zero E) as (_ & Hn & Hle).
  cbn [snd compare_as] in Hle, Hn. split; [exact Hn |].
  apply Rle_Qle. rewrite RoundFacts.Q2R_to_Q.
  replace (Q2R 1) with 1%R by (unfold Q2R; cbn; field).
  rewrite RoundFacts.to_R_mkDec, RoundFacts.p10_0 in Hle. lra.
Qed.

Lemma truncated_38_zero : truncated_38 (mkDec false 0 0) 0.
Proof. split; intros H; [reflexivity | discriminate H]. Qed.

Lemma truncated_38_unit (x : Dec.Decimal) (n : Z) :
  nonneg x -> (to_Q x <= 1)%Q -> truncated_38 x n -> 0 <= n <= 10 ^ 38.
Proof.
  intros [Hw Hs] H1 Ht.
  pose proof (to_Q_sign x Hw) as H0. rewrite Hs in H0.
  split.
  - apply (ScaleFacts.truncated_38_monotone (mkDec false 0 0) x);
      [exact truncated_38_zero | exact Ht | exact H0].
  - apply (ScaleFacts.truncated_38_monotone x decimal_one);
      [exact Ht | exact RunFacts.truncated_38_one | exact H1].
Qed.

(** Steps 1 to 3 with c, s and lambda of the script: the two calls of
    [compute_tau]. *)
Lemma derive_script_inv (a b : Dec.Decimal) (f : bool) (dv : derived Dec.Decimal) :
  derive (mkParams a b (c script_params) (s script_params) (lam script_params))
    = (f, Ok dv) ->
  exists f1 f2,
    compute_tau (c script_params) (s script_params) (lam script_params) script_d a
      = (f1, Ok (tauAlpha_x dv, tauAlpha_y dv)) /\
    compute_tau (c script_params) (s script_params) (lam script_params) script_d b
      = (f2, Ok (tauBeta_x dv, tauBeta_y dv)).
Proof.
  intros E. unfold derive in E. cbv iota in E.
  rewrite script_dSq_eq, bind_Ok_l, script_d_eq, bind_Ok_l in E.
  apply bind_Ok_inv in E. destruct E as (f1 & [tax tay] & g1 & Ea & E & _).
  apply bind_Ok_inv in E. destruct E as (f2 & [tbx tby] & g2 & Eb & E & _).
  apply bind_Ok_inv in E. destruct E as (f3 & u0 & g3 & _ & E & _).
  apply bind_Ok_inv in E. destruct E as (f4 & v0 & g4 & _ & E & _).
  apply bind_Ok_inv in E. destruct E as (f5 & w0 & g5 & _ & E & _).
  apply bind_Ok_inv in E. destruct E as (f6 & z0 & g6 & _ & E & _).
  inversion E; subst. cbn [tauAlpha_x tauAlpha_y tauBeta_x tauBeta_y].
  exists f1, f2. split; assumption.
Qed.

Lemma mul_self_nonneg (ctx : context) (x : Dec.Decimal) :
  1 <= prec ctx -> wf x -> post nonneg (mul ctx x x).
Proof.
  intros Hp Hw f r E. unfold mul in E. rewrite xorb_nilpotent in E.
  unfold wf in Hw.
  assert (Hn : nonneg (mkDec false (coef x * coef x) (expo x + expo x)))
    by (apply nonneg_mkDec; nia).
  exact (proj2 (RoundFacts.fix_rounded ctx Hp _ f r Hn E)).
Qed.

End BoundFacts.

(** X22: in the symmetric configuration of the script (c = 1, s = 0,
    lambda = 50) and for every pair of nonnegative price bounds, a run that
    returns has its two tau.y constants between 0 and 10^38: the computed
    tau.y never exceeds its value 1 at the price bound 0. *)
Theorem tau_y_constants_within_unit (alpha beta : Dec.Decimal) (f : bool)
    (o : outputs Dec.Decimal) :
  nonneg alpha -> nonneg beta ->
  run SCALE_38
    (mkParams alpha beta (c script_params) (s script_params) (lam script_params))
    = (f, Ok o) ->
  0 <= tauAlpha_y_38 (out_constants o) <= 10 ^ 38 /\
  0 <= tauBeta_y_38 (out_constants o) <= 10 ^ 38.
Proof.
  intros Ha Hb E.
  destruct (RunFacts.run_inv _ f o E) as (f1 & f2 & Ed & Es).
  destruct (BoundFacts.derive_script_inv alpha beta f1 _ Ed) as (g1 & g2 & Ea & Eb).
  destruct (BoundFacts.tau_y_at_most_one alpha g1 _ Ha Ea) as [Na La].
  destruct (BoundFacts.tau_y_at_most_one beta g2 _ Hb Eb) as [Nb Lb].
  cbn [snd] in Na, La, Nb, Lb.
  assert (Hw : forall q, 0 <= q -> Dec.wf (Dec.mkDec false q 0)) by (intros q Hq; exact Hq).
  apply (RunFacts.scale_truncates (out_derived o)) in Es.
  2:{ eapply Forall_impl;
        [| exact (RangeFacts.derive_rng script_context RunFacts.script_context_usual
                    (mkParams alpha beta (c script_params) (s script_params)
                       (lam script_params))
                    (proj1 Ha) (proj1 Hb) (Hw 1 ltac:(lia)) (Hw 0 ltac:(lia))
                    (Hw 50 ltac:(lia)) f1 _ Ed)].
      intros x Hx. apply Hx. }
  unfold scaled_values, constants_list in Es.
  inversion Es as [| ? ? ? ? _ Es1]; subst.
  inversion Es1 as [| ? ? ? ? Hay Es2]; subst.
  inversion Es2 as [| ? ? ? ? _ Es3]; subst.
  inversion Es3 as [| ? ? ? ? Hby _]; subst.
  split;
    [apply (BoundFacts.truncated_38_unit (tauAlpha_y (out_derived o)))
    | apply (BoundFacts.truncated_38_unit (tauBeta_y (out_derived o)))]; assumption.
Qed.

Lemma tau_y_constants_within_unit_witness :
  nonneg (alpha script_params) /\ nonneg (beta script_params) /\
  exists o, run SCALE_38 script_params = (false, Ok o) /\
    0 <= tauAlpha_y_38 (out_constants o) <= 10 ^ 38 /\
    0 <= tauBeta_y_38 (out_constants o) <= 10 ^ 38.
Proof.
  assert (Ha : nonneg (alpha script_params)) by (split; [unfold Dec.wf; cbn; lia | reflexivity]).
  assert (Hb : nonneg (beta script_params)) by (split; [unfold Dec.wf; cbn; lia | reflexivity]).
  split; [exact Ha |]. split; [exact Hb |].
  eexists. split; [rewrite run_script_params; reflexivity |].
  apply (tau_y_constants_within_unit (alpha script_params) (beta script_params) false);
    [exact Ha | exact Hb |].
  exact run_script_params.
Defined.

(** X23: whenever steps 1 to 3 return, [d] is the correctly rounded
    square root of the computed [dSq]: the multiple of the last place
    throughout nearest to the exact root, the even one in a tie, at the
    precision of the context. *)
Theorem d_correctly_rounded (ctx : Dec.context) (prm : params Dec.Decimal) (f : bool)
    (dv : derived Dec.Decimal) :
  1 <= Dec.prec ctx -> Dec.wf (c prm) -> Dec.wf (s prm) ->
  @derive _ (Decimal_Number ctx) prm = (f, Ok dv) ->
  rounded ctx (sqrt (to_R (dSq dv))) (to_R (d dv)).
Proof.
  intros Hp Hc Hs E. destruct prm as [pa pb pc ps pl]. cbn [c s] in Hc, Hs.
  unfold derive in E.
  cbn [num_add num_sub num_mul num_div num_sqrt num_pow of_int Decimal_Number] in E.
  apply bind_Ok_inv in E. destruct E as (f0 & dSq0 & g0 & EdSq & E & _).
  apply bind_Ok_inv in E. destruct E as (f1 & d0 & g1 & Ed & E & _).
  apply bind_Ok_inv in E. destruct E as (f2 & [tax tay] & g2 & _ & E & _).
  apply bind_Ok_inv in E. destruct E as (f3 & [tbx tby] & g3 & _ & E & _).
  apply bind_Ok_inv in E. destruct E as (f4 & u0 & g4 & _ & E & _).
  apply bind_Ok_inv in E. destruct E as (f5 & v0 & g5 & _ & E & _).
  apply bind_Ok_inv in E. destruct E as (f6 & w0 & g6 & _ & E & _).
  apply bind_Ok_inv in E. destruct E as (f7 & z0 & g7 & _ & E & _).
  inversion E; subst. cbn [dSq d].
  assert (HdSq : nonneg dSq0).
  { unfold lift2 in EdSq.
    apply bind_Ok_inv in EdSq. destruct EdSq as (h1 & cc & h2 & Ecc & EdSq & _).
    apply bind_Ok_inv in EdSq. destruct EdSq as (h3 & ss & h4 & Ess & EdSq & _).
    rewrite !bind_ret_l in Ecc, Ess.
    pose proof (BoundFacts.mul_self_nonneg ctx pc Hp Hc _ _ Ecc) as Ncc.
    pose proof (BoundFacts.mul_self_nonneg ctx ps Hp Hs _ _ Ess) as Nss.
    exact (proj2 (RoundFacts.add_rounded ctx Hp cc ss _ _ Ncc (proj1 Nss)
                    (or_intror (proj2 Nss)) EdSq)). }
  exact (proj1 (RoundFacts.sqrt_rounded ctx Hp dSq0 _ _ HdSq Ed)).
Qed.

Lemma d_correctly_rounded_witness :
  1 <= Dec.prec script_context /\ Dec.wf (c script_params) /\ Dec.wf (s script_params) /\
  match derive script_params with
  | (_, Ok dv) => rounded script_context (sqrt (to_R (dSq dv))) (to_R (d dv))
  | (_, Raise _) => False
  end.
Proof.
  assert (Hc : Dec.wf (c script_params)) by (unfold Dec.wf; cbn; lia).
  assert (Hs : Dec.wf (s script_params)) by (unfold Dec.wf; cbn; lia).
  split; [exact script_context_prec |]. split; [exact Hc |]. split; [exact Hs |].
  destruct (derive script_params) as [f [dv | e]] eqn:E.
  - exact (d_correctly_rounded script_context script_params f dv script_context_prec Hc Hs E).
  - rewrite derive_script_params in E. discriminate E.
Defined.

(** X24: in any context, with a zero sine and nonnegative c, lambda and
    d, the second coordinate of [compute_tau] does not grow with the price
    bound: for nonnegative p1 <= p2 on which the function returns,
    tau.y at p2 is nonnegative and not larger than tau.y at p1. *)
Theorem compute_tau_y_nonincreasing (ctx : Dec.context) (c s lam d p1 p2 : Dec.Decimal)
    (f1 f2 : bool) (t1 t2 : Dec.Decimal * Dec.Decimal) :
  1 <= Dec.prec ctx ->
  nonneg c -> nonneg s -> Dec.coef s = 0 -> nonneg lam -> nonneg d ->
  nonneg p1 -> nonneg p2 -> (Dec.to_Q p1 <= Dec.to_Q p2)%Q ->
  @compute_tau _ (Decimal_Number ctx) c s lam d p1 = (f1, Ok t1) ->
  @compute_tau _ (Decimal_Number ctx) c s lam d p2 = (f2, Ok t2) ->
  (0 <= Dec.to_Q (snd t2) <= Dec.to_Q (snd t1))%Q.
Proof.
  intros Hp Hc Hs Hs0 Hl Hd H1 H2 Hle E1 E2.
  pose proof (RoundFacts.compute_tau_y_ordered ctx Hp c s lam d p1 p2 Hc Hs Hs0 Hl Hd
                (RoundFacts.ordered_Up_intro p1 p2 H1 H2 Hle) _ _ _ _ E1 E2) as Ho.
  pose proof (RoundFacts.ordered_Down_Qabs _ _ Ho) as Habs.
  destruct Ho as ([W1 S1] & [W2 S2] & _).
  pose proof (DecFacts.to_Q_sign _ W1) as P1. rewrite S1 in P1.
  pose proof (DecFacts.to_Q_sign _ W2) as P2. rewrite S2 in P2.
  rewrite !Qabs_pos in Habs by assumption. split; assumption.
Qed.

Lemma compute_tau_y_nonincreasing_witness :
  let p1 := Dec.mkDec false 1035905 (-6) in
  let p2 := Dec.mkDec false 1144947 (-6) in
  exists t1 t2,
    compute_tau (c script_params) (s script_params) (lam script_params) script_d p1
      = (false, Ok t1) /\
    compute_tau (c script_params) (s script_params) (lam script_params) script_d p2
      = (false, Ok t2) /\
    (Dec.to_Q p1 <= Dec.to_Q p2)%Q /\
    (0 <= Dec.to_Q (snd t2) <= Dec.to_Q (snd t1))%Q.
Proof.
  intros p1 p2.
  assert (Hn : forall q e, 0 <= q -> nonneg (Dec.mkDec false q e))
    by (intros q e Hq; split; [exact Hq | reflexivity]).
  assert (H3 : (Dec.to_Q p1 <= Dec.to_Q p2)%Q) by (vm_compute; discriminate).
  eexists. eexists.
  split; [exact script_tauAlpha_eq |]. split; [exact script_tauBeta_eq |].
  split; [exact H3 |].
  exact (compute_tau_y_nonincreasing script_context
           (c script_params) (s script_params) (lam script_params) script_d p1 p2
           false false _ _ script_context_prec
           (Hn 1 0 ltac:(lia)) (Hn 0 0 ltac:(lia)) eq_refl (Hn 50 0 ltac:(lia))
           (Hn 1 0 ltac:(lia)) (Hn 1035905 (-6) ltac:(lia)) (Hn 1144947 (-6) ltac:(lia))
           H3 script_tauAlpha_eq script_tauBeta_eq).
Defined.
